(** * saami-vocabulator: a shallow embedding of [saami_vocabulator.py]

    The development follows the Python module top to bottom:
    - [Py]: the built-in [str] operations the script calls;
    - [Difflib]: [difflib.SequenceMatcher] as CPython implements it, which
      [similar] delegates to;
    - [DictEntry], the part-of-speech tables, the two HTML readers, the
      flat-text word-list codec and the threshold loop of the script body.

    Conventions.  A Python [str] is a Rocq [string]; one [ascii] stands for
    one character of the Python string.  A file opened in binary mode and
    written with [str.encode()] / read with [bytes.decode()] is modelled by
    its text: UTF-8 maps the characters [";"] and newline to single bytes
    that occur nowhere else in an encoding, so splitting commutes with the
    encoding.  Python floats that are quotients of two small integers are
    modelled by the exact rational in [Q].  A raised exception is a value of
    [exn]. *)

From Stdlib Require Import QArith Ascii String.
From stdpp Require Import gmap strings list fin_maps sorting.

(** ** Exceptions and results *)

Inductive exn : Type :=
| IndexError
| ZeroDivisionError.

Inductive result (A : Type) : Type :=
| Ok (a : A)
| Raise (e : exn).
Arguments Ok {A} a.
Arguments Raise {A} e.

(** ** Built-in string operations *)

Module Py.

Definition nl : ascii := "010"%char.

(** [str.isspace] on one character, for the code points below 256:
    TAB, LF, VT, FF, CR, FS, GS, RS, US, SPACE, NEL and NBSP. *)
Definition is_space (c : ascii) : bool :=
  let n := nat_of_ascii c in
  (((9 <=? n) && (n <=? 13)) || ((28 <=? n) && (n <=? 32))
   || (n =? 133) || (n =? 160))%nat.

Definition in_chars (cs : string) (c : ascii) : bool :=
  bool_decide (c ∈ list_ascii_of_string cs).

Fixpoint lstrip_by (p : ascii → bool) (s : string) : string :=
  match s with
  | "" => ""
  | String c s' => if p c then lstrip_by p s' else s
  end.

Fixpoint rstrip_by (p : ascii → bool) (s : string) : string :=
  match s with
  | "" => ""
  | String c s' =>
      match rstrip_by p s' with
      | "" => if p c then "" else String c ""
      | r => String c r
      end
  end.

(** [s.strip()] and [s.strip(chars)] *)
Definition strip (s : string) : string := rstrip_by is_space (lstrip_by is_space s).
Definition strip_chars (cs s : string) : string :=
  rstrip_by (in_chars cs) (lstrip_by (in_chars cs) s).

(** [s[:n]] *)
Fixpoint take (n : nat) (s : string) : string :=
  match n, s with
  | S n', String c s' => String c (take n' s')
  | _, _ => ""
  end.

(** [s[:-1]] *)
Fixpoint drop_last (s : string) : string :=
  match s with
  | "" => ""
  | String c "" => ""
  | String c s' => String c (drop_last s')
  end.

(** [s.split(sep, maxsplit)] for a one-character separator: at most
    [maxsplit] cuts, hence at most [maxsplit + 1] pieces; never empty. *)
Fixpoint split_max (sep : ascii) (maxsplit : nat) (s : string) : list string :=
  match s with
  | "" => [""]
  | String c s' =>
      match maxsplit with
      | 0 => [s]
      | S m =>
          if decide (c = sep) then "" :: split_max sep m s'
          else match split_max sep maxsplit s' with
               | h :: t => String c h :: t
               | [] => [String c ""]
               end
      end
  end.

(** [s.split(sep)]: no bound on the number of cuts. *)
Definition split (sep : ascii) (s : string) : list string :=
  split_max sep (String.length s) s.

(** [s.split(sep)[0]]; [split] never returns the empty list. *)
Definition split0 (sep : ascii) (s : string) : string :=
  default "" (head (split sep s)).

(** [f.readlines()]: the lines of a text, each with its terminating
    newline, the last one possibly without. *)
Fixpoint readlines (s : string) : list string :=
  match s with
  | "" => []
  | String c s' =>
      if decide (c = nl) then String c "" :: readlines s'
      else match readlines s' with
           | h :: t => String c h :: t
           | [] => [String c ""]
           end
  end.

(** [c in s] for a character *)
Definition contains (c : ascii) (s : string) : Prop :=
  c ∈ list_ascii_of_string s.

(** [str.lower] on one character, for the code points below 256. *)
Definition lower_char (c : ascii) : ascii :=
  let n := nat_of_ascii c in
  if (((65 <=? n) && (n <=? 90))
      || ((192 <=? n) && (n <=? 222) && negb (n =? 215)))%nat
  then ascii_of_nat (n + 32) else c.

Fixpoint lower (s : string) : string :=
  match s with
  | "" => ""
  | String c s' => String (lower_char c) (lower s')
  end.

End Py.

(** ** [DictEntry] *)

(** [class DictEntry]: the class attributes [word = ""] and [pos = ""] are the
    defaults an instance reads until it assigns its own; [__init__] gives
    every instance a fresh [translations] dict. *)
Record DictEntry : Type := mkDictEntry {
  word : string;
  pos : string;
  translations : gmap string string;
}.

#[global] Instance DictEntry_eq_dec : EqDecision DictEntry.
Proof. solve_decision. Defined.

Definition DictEntry_new : DictEntry :=
  {| word := ""; pos := ""; translations := ∅ |}.

(** [DictEntry.__eq__] applied to another [DictEntry]: the [except] branch is
    taken only when [obj] has no attribute [word]. *)
Definition DictEntry_eq (self obj : DictEntry) : bool :=
  bool_decide (word self = word obj).

(** [entry in lst]: Python tests identity, then [==]; identical objects have
    equal words, so this is the search by [__eq__]. *)
Definition entry_in (e : DictEntry) (l : list DictEntry) : bool :=
  existsb (DictEntry_eq e) l.

Definition set_word (w : string) (e : DictEntry) : DictEntry :=
  {| word := w; pos := pos e; translations := translations e |}.
Definition set_pos (p : string) (e : DictEntry) : DictEntry :=
  {| word := word e; pos := p; translations := translations e |}.
Definition set_translation (lang v : string) (e : DictEntry) : DictEntry :=
  {| word := word e; pos := pos e; translations := <[lang := v]> (translations e) |}.

(** ** [difflib.SequenceMatcher(None, a, b)]

    The constructor is called with [isjunk=None] and the default
    [autojunk=True]: the junk set [bjunk] stays empty, so [isbjunk] is
    constantly false, the two [while] loops of [find_longest_match] that
    extend a match over junk never iterate, and only the "popular" purge of
    [__chain_b] removes keys of [b2j].  Indices are naturals; every
    subtraction below is one Python performs on operands that keep it
    non-negative (see [find_longest_match_bounds]). *)

Module Difflib.
Section SequenceMatcher.
Context {A : Type} `{Countable A}.

(** A [Match(a, b, size)] named tuple. *)
Definition Match : Type := nat * nat * nat.

Definition b2j_get (b2j : gmap A (list nat)) (elt : A) : list nat :=
  default [] (b2j !! elt).

(** [for i, elt in enumerate(b): b2j.setdefault(elt, []).append(i)] *)
Fixpoint chain_loop (b : list A) (i : nat) (b2j : gmap A (list nat))
  : gmap A (list nat) :=
  match b with
  | [] => b2j
  | elt :: b' => chain_loop b' (S i) (<[elt := b2j_get b2j elt ++ [i]]> b2j)
  end.

(** [popular]: the elements occurring more than [n // 100 + 1] times. *)
Definition popular (n : nat) (b2j : gmap A (list nat)) : gset A :=
  dom (filter (λ kv, n `div` 100 + 1 < length kv.2) b2j).

(** [__chain_b]: the index of [b], purged of popular elements when
    [len(b) >= 200]. *)
Definition chain_b (b : list A) : gmap A (list nat) :=
  let b2j := chain_loop b 0 ∅ in
  let n := length b in
  if decide (200 ≤ n)
  then filter (λ kv, kv.1 ∉ popular n b2j) b2j
  else b2j.

Section find_longest_match.
Variables (a b : list A) (b2j : gmap A (list nat)).

(** [a[i] == b[j]] for indices inside both sequences. *)
Definition elt_eq (i j : nat) : bool :=
  match a !! i, b !! j with
  | Some x, Some y => bool_decide (x = y)
  | _, _ => false
  end.

(** [j2len.get(j-1, 0)]: no key is negative, so the key [-1] is absent. *)
Definition j2lenget (j2len : gmap nat nat) (j : nat) : nat :=
  match j with
  | 0 => 0
  | S j' => default 0 (j2len !! j')
  end.

(** The loop [for j in b2j.get(a[i], nothing)] with its [continue] and
    [break]; the state is [newj2len] and [(besti, bestj, bestsize)]. *)
Fixpoint row (i blo bhi : nat) (j2len : gmap nat nat) (js : list nat)
    (newj2len : gmap nat nat) (best : Match) : gmap nat nat * Match :=
  match js with
  | [] => (newj2len, best)
  | j :: js' =>
      if decide (j < blo) then row i blo bhi j2len js' newj2len best
      else if decide (bhi ≤ j) then (newj2len, best)
      else
        let k := j2lenget j2len j + 1 in
        let best' := if decide (best.2 < k) then (i + 1 - k, j + 1 - k, k)
                     else best in
        row i blo bhi j2len js' (<[j := k]> newj2len) best'
  end.

(** [for i in range(alo, ahi)]: [n] rows are left, starting at row [i].
    Every range searched lies inside [a], so [a[i]] exists. *)
Fixpoint rows (n i blo bhi : nat) (j2len : gmap nat nat) (best : Match)
  : gmap nat nat * Match :=
  match n with
  | 0 => (j2len, best)
  | S n' =>
      let js := match a !! i with
                | Some x => b2j_get b2j x
                | None => []
                end in
      let '(newj2len, best') := row i blo bhi j2len js ∅ best in
      rows n' (S i) blo bhi newj2len best'
  end.

(** [while besti > alo and bestj > blo and a[besti-1] == b[bestj-1]] *)
Fixpoint extend_back (alo blo besti bestj bestsize : nat) : Match :=
  match besti, bestj with
  | S i', S j' =>
      if bool_decide (alo < besti) && bool_decide (blo < bestj) && elt_eq i' j'
      then extend_back alo blo i' j' (bestsize + 1)
      else (besti, bestj, bestsize)
  | _, _ => (besti, bestj, bestsize)
  end.

(** [while besti+bestsize < ahi and bestj+bestsize < bhi and
    a[besti+bestsize] == b[bestj+bestsize]]; [n] iterations at most. *)
Fixpoint extend_fwd (n ahi bhi besti bestj bestsize : nat) : Match :=
  match n with
  | 0 => (besti, bestj, bestsize)
  | S n' =>
      if bool_decide (besti + bestsize < ahi) && bool_decide (bestj + bestsize < bhi)
         && elt_eq (besti + bestsize) (bestj + bestsize)
      then extend_fwd n' ahi bhi besti bestj (bestsize + 1)
      else (besti, bestj, bestsize)
  end.

Definition find_longest_match (alo ahi blo bhi : nat) : Match :=
  let '(_, (besti, bestj, bestsize)) :=
    rows (ahi - alo) alo blo bhi ∅ (alo, blo, 0) in
  let '(besti, bestj, bestsize) :=
    extend_back alo blo besti bestj bestsize in
  extend_fwd (ahi - (besti + bestsize)) ahi bhi besti bestj bestsize.

(** The [while queue] loop of [get_matching_blocks]; the queue is a
    Python list used as a stack, its last element first here.  Every
    iteration pops one range and pushes strictly shorter ones, so
    [2 * len(a) + 1] iterations empty the queue
    (see [matching_loop_fuel]). *)
Fixpoint matching_loop (fuel : nat) (queue : list (nat * nat * nat * nat))
    (matching_blocks : list Match) : list (nat * nat * nat * nat) * list Match :=
  match fuel, queue with
  | S fuel', (alo, ahi, blo, bhi) :: queue' =>
      let '(i, j, k) := find_longest_match alo ahi blo bhi in
      if decide (k = 0) then matching_loop fuel' queue' matching_blocks
      else
        let q1 := if bool_decide (alo < i) && bool_decide (blo < j)
                  then (alo, i, blo, j) :: queue' else queue' in
        let q2 := if bool_decide (i + k < ahi) && bool_decide (j + k < bhi)
                  then (i + k, ahi, j + k, bhi) :: q1 else q1 in
        matching_loop fuel' q2 (matching_blocks ++ [(i, j, k)])
  | _, _ => (queue, matching_blocks)
  end.
End find_longest_match.

(** Tuple comparison, as [list.sort] uses it on the blocks. *)
Definition Match_le (x y : Match) : Prop :=
  let '(i1, j1, k1) := x in
  let '(i2, j2, k2) := y in
  i1 < i2 ∨ (i1 = i2 ∧ (j1 < j2 ∨ (j1 = j2 ∧ k1 ≤ k2))).

#[global] Instance Match_le_dec (x y : Match) : Decision (Match_le x y).
Proof. destruct x as [[??]?], y as [[??]?]; simpl; apply _. Defined.

(** The loop that collapses adjacent equal blocks: [(i1, j1, k1)] is the
    pending block. *)
Fixpoint collapse (blocks : list Match) (i1 j1 k1 : nat)
    (non_adjacent : list Match) : list Match :=
  match blocks with
  | [] => if decide (k1 = 0) then non_adjacent
          else non_adjacent ++ [(i1, j1, k1)]
  | (i2, j2, k2) :: blocks' =>
      if bool_decide (i1 + k1 = i2) && bool_decide (j1 + k1 = j2)
      then collapse blocks' i1 j1 (k1 + k2) non_adjacent
      else collapse blocks' i2 j2 k2
             (if decide (k1 = 0) then non_adjacent
              else non_adjacent ++ [(i1, j1, k1)])
  end.

Definition get_matching_blocks (a b : list A) : list Match :=
  let la := length a in
  let lb := length b in
  let b2j := chain_b b in
  let '(_, matching_blocks) :=
    matching_loop a b b2j (2 * la + 1) [(0, la, 0, lb)] [] in
  let sorted := merge_sort Match_le matching_blocks in
  collapse sorted 0 0 0 [] ++ [(la, lb, 0)].

(** [sum(triple[-1] for triple in self.get_matching_blocks())] *)
Definition matches (a b : list A) : nat :=
  foldr (λ (x : Match) acc, x.2 + acc) 0 (get_matching_blocks a b).

(** [_calculate_ratio(matches, length)] *)
Definition calculate_ratio (matches length : nat) : Q :=
  if decide (length = 0) then 1%Q
  else (Z.of_nat (2 * matches) # Pos.of_nat length)%Q.

Definition ratio (a b : list A) : Q :=
  calculate_ratio (matches a b) (length a + length b).

(** *** Vocabulary for the properties of the matcher *)

(** A queued range [(alo, ahi, blo, bhi)] is well formed, holds at most
    [range_room] matching elements, and costs [range_cost] iterations of
    the queue loop. *)
Definition range_ok (r : nat * nat * nat * nat) : Prop :=
  r.1.1.1 ≤ r.1.1.2 ∧ r.1.2 ≤ r.2.

Definition range_room (r : nat * nat * nat * nat) : nat :=
  (r.1.1.2 - r.1.1.1) `min` (r.2 - r.1.2).

Definition range_cost (r : nat * nat * nat * nat) : nat :=
  2 * (r.1.1.2 - r.1.1.1) + 1.

(** After the rows [alo .. i-1]: every recorded length fits in the rows
    seen and in the columns from [blo] to its own. *)
Definition j2len_ok (alo blo bhi i : nat) (j2len : gmap nat nat) : Prop :=
  ∀ j k, j2len !! j = Some k → 1 ≤ k ∧ k + alo ≤ i ∧ k + blo ≤ j + 1 ∧ j < bhi.

Definition best_ok (alo blo bhi i : nat) (best : Match) : Prop :=
  alo ≤ best.1.1 ∧ best.1.1 + best.2 ≤ i
  ∧ blo ≤ best.1.2 ∧ best.1.2 + best.2 ≤ bhi.

(** [sum(triple[-1] for triple in blocks)] *)
Definition total_size (blocks : list Match) : nat :=
  foldr (λ (x : Match) acc, x.2 + acc) 0 blocks.

(** [b2j] lists, for each key it has, all positions of that element in [b],
    in increasing order. *)
Definition indexes (b : list A) (b2j : gmap A (list nat)) : Prop :=
  ∀ x js, b2j !! x = Some js →
    StronglySorted lt js ∧ ∀ j, j ∈ js ↔ b !! j = Some x.

(** The index under construction covers the prefix read so far. *)
Definition indexes_all (pre : list A) (b2j : gmap A (list nat)) : Prop :=
  ∀ x, StronglySorted lt (b2j_get b2j x)
       ∧ ∀ j, j ∈ b2j_get b2j x ↔ pre !! j = Some x.

Section self_comparison.
Variables (a : list A) (b2j : gmap A (list nat)).

(** [a[i]] is an element [b2j] kept, i.e. not a popular one. *)
Definition kept_at (i : nat) : bool :=
  match a !! i with
  | Some x => bool_decide (is_Some (b2j !! x))
  | None => false
  end.

(** The number of kept elements that end the prefix of length [i]. *)
Fixpoint run_len (i : nat) : nat :=
  match i with
  | 0 => 0
  | S i' => if kept_at i' then S (run_len i') else 0
  end.

(** The table row and the best block while [a] is compared with itself:
    no entry exceeds the run of kept elements ending at its row or at its
    column, and the best block lies on the diagonal. *)
Definition diag_j2len (i : nat) (j2len : gmap nat nat) : Prop :=
  (∀ j, j2lenget j2len j ≤ run_len i ∧ j2lenget j2len j ≤ run_len j)
  ∧ j2lenget j2len i = run_len i.

Definition diag_best (i : nat) (best : Match) : Prop :=
  best.1.1 = best.1.2 ∧ best.1.1 + best.2 ≤ i
  ∧ ∀ i', i' ≤ i → run_len i' ≤ best.2.
End self_comparison.

End SequenceMatcher.
End Difflib.

(** ** [similar] *)

(** [similar(a, b)]: an argument is [None] or a string.  The [else] branch
    returns the integer [0]. *)
Definition similar (a b : option string) : Q :=
  match a, b with
  | Some a, Some b =>
      Difflib.ratio (list_ascii_of_string a) (list_ascii_of_string b)
  | _, _ => 0%Q
  end.

(** ** Part-of-speech table *)

Definition swedish_parts_of_speech : gmap string string :=
  list_to_map
    [("subst", "Noun"); ("verb", "Verb"); ("konj", "Conjunction");
     ("adj", "Adjective"); ("adj:attr", "Adjective");
     ("adj:pred", "Adjective"); ("adj:attr/pred", "Adjective");
     ("adv", "Adverb"); ("num", "Numeral")].

(** ** HTML events

    [HTMLParser.feed] tokenises the markup and calls [handle_starttag],
    [handle_data] and [handle_endtag] in document order.  The tokeniser is
    the library's; a document is represented by the sequence of calls it
    gives rise to.  An attribute without a value has the value [None]. *)

Inductive html_event : Type :=
| StartTag (tag : string) (attrs : list (string * option string))
| Data (data : string)
| EndTag (tag : string).

(** [lst[-1] = f(lst[-1])], the in-place update of the last element;
    [IndexError] on the empty list. *)
Fixpoint update_last {A} (f : A → A) (l : list A) : result (list A) :=
  match l with
  | [] => Raise IndexError
  | [x] => Ok [f x]
  | x :: l' =>
      match update_last f l' with
      | Ok r => Ok (x :: r)
      | Raise e => Raise e
      end
  end.

(** [lst.pop()]: the list without its last element; [IndexError] on the
    empty list. *)
Definition pop {A} (l : list A) : result (list A) :=
  match l with
  | [] => Raise IndexError
  | _ => Ok (removelast l)
  end.

(** Sequencing of computations that may raise, in stdpp's monad notation
    [x ← r; k]. *)
#[global] Instance result_bind : MBind result := λ A B k r,
  match r with
  | Ok a => k a
  | Raise e => Raise e
  end.

(** ** [PiteWordlistReader] *)

Module PiteWordlistReader.

Record t : Type := mk {
  reading_entry : bool;
  entries : list DictEntry;
  line_num : nat;
  last_line : string;
}.

(** [__init__] *)
Definition init : t :=
  {| reading_entry := false; entries := []; line_num := 0; last_line := "" |}.

Definition with_entries (l : list DictEntry) (self : t) : t :=
  {| reading_entry := reading_entry self; entries := l;
     line_num := line_num self; last_line := last_line self |}.

Definition handle_starttag (self : t) (tag : string)
    (attrs : list (string * option string)) : t :=
  if bool_decide (Py.lower tag = "p")
     && bool_decide (("class", Some "menu1") ∈ attrs)
  then {| reading_entry := true; entries := entries self;
          line_num := line_num self; last_line := last_line self |}
  else self.

(** The part-of-speech token of line 3. *)
Definition normalize_pos (data : string) : string :=
  if bool_decide (Py.take 3 (Py.strip_chars "()" (Py.strip data)) = "ege")
  then "Proper noun"
  else default "Other"
         (swedish_parts_of_speech
            !! Py.split0 ")" (Py.strip_chars "()" (Py.strip data))).

Definition handle_data (self : t) (data : string) : result t :=
  if reading_entry self then
    if bool_decide (Py.strip data = "") then Ok self
    else
      let n := line_num self + 1 in
      es ← (if bool_decide (n = 2) then
              Ok (entries self ++ [set_word (Py.strip data) DictEntry_new])
            else if bool_decide (n = 3) then
              update_last (set_pos (normalize_pos data)) (entries self)
            else Ok (entries self));
      es ← (if bool_decide (last_line self = "Engl.") then
              update_last
                (set_translation "eng" (Py.strip (Py.split0 "(" data))) es
            else Ok es);
      es ← (if bool_decide (last_line self = "Swed.") then
              update_last
                (set_translation "swe" (Py.strip (Py.split0 "(" data))) es
            else if bool_decide (last_line self = "Norw.") then
              update_last
                (set_translation "nor"
                   (Py.strip (Py.split0 "(" (Py.split0 "[" data)))) es
            else Ok es);
      Ok {| reading_entry := true; entries := es; line_num := n;
            last_line := Py.strip data |}
  else Ok self.

Definition handle_endtag (self : t) (tag : string) : t :=
  if bool_decide (Py.lower tag = "p")
  then {| reading_entry := false; entries := entries self;
          line_num := 0; last_line := last_line self |}
  else self.

Definition handle (self : t) (ev : html_event) : result t :=
  match ev with
  | StartTag tag attrs => Ok (handle_starttag self tag attrs)
  | Data data => handle_data self data
  | EndTag tag => Ok (handle_endtag self tag)
  end.

(** [HTMLParser.feed(self, data)]: the handlers in document order; an
    exception raised by a handler propagates. *)
Fixpoint HTMLParser_feed (self : t) (data : list html_event) : result t :=
  match data with
  | [] => Ok self
  | ev :: data' => self' ← handle self ev; HTMLParser_feed self' data'
  end.

(** [feed]: the value returned is [self.entries] after the [pop]. *)
Definition feed (self : t) (data : list html_event)
  : result (t * list DictEntry) :=
  self' ← HTMLParser_feed self data;
  es ← pop (entries self');
  Ok (with_entries es self', es).

End PiteWordlistReader.

(** A two-entry word list in the shape the Pite Saami reader expects: three
    [<p class="menu1">] blocks, the last one the trailing block that gives
    rise to the spurious entry. *)
Definition two_entry_fixture : list html_event :=
  [ StartTag "html" []; Data "Pite Saami word list";
    StartTag "p" [("class", Some "menu1")];
    Data "1"; Data " bussa "; Data "(subst)";
    Data "Engl."; Data "bus (vehicle)"; Data "Swed."; Data "buss";
    EndTag "p"; Data (String Py.nl "");
    StartTag "P" [("id", Some "e2"); ("class", Some "menu1")];
    Data "2"; Data "  "; Data "jus"; Data "(konj?) [rare]";
    Data "Norw."; Data "hvis [om] (cond.)"; Data "Engl."; Data "if";
    EndTag "p";
    StartTag "p" [("class", Some "menu1")];
    Data "3"; Data "-";
    EndTag "p"; EndTag "html" ].

Definition two_entry_expected : list DictEntry :=
  [ mkDictEntry "bussa" "Noun" {["eng" := "bus"; "swe" := "buss"]};
    mkDictEntry "jus" "Other" {["nor" := "hvis"; "eng" := "if"]} ].

(** The reader after [HTMLParser.feed] on the fixture, before the [pop]. *)
Definition two_entry_parsed : PiteWordlistReader.t :=
  Eval vm_compute in
    match PiteWordlistReader.HTMLParser_feed PiteWordlistReader.init
            two_entry_fixture with
    | Ok s => s
    | Raise _ => PiteWordlistReader.init
    end.

(** No start tag of the document opens an entry block. *)
Definition no_entry_block (data : list html_event) : Prop :=
  ∀ tag attrs, StartTag tag attrs ∈ data →
    ¬ (Py.lower tag = "p" ∧ ("class", Some "menu1") ∈ attrs).

(** ** [LuleDictReader]

    [entries = []] is an attribute of the class: every instance appends to
    and pops from this one list, and [__init__] does not rebind it.  The
    other class attributes are immutable defaults, which an instance
    shadows by its own attribute at the first assignment.  A reader is
    therefore its instance attributes [t] next to the class's list. *)

Module LuleDictReader.

Record t : Type := mk {
  reading_entry : bool;
  td_num : nat;
  spans_seen : nat;
}.

(** The state of the class: the list bound to [LuleDictReader.entries]. *)
Definition cls : Type := list DictEntry.

(** The class body: the list is created once, empty. *)
Definition cls_init : cls := [].

(** [__init__]: no instance attribute yet, the class defaults show
    through; the class's list is left as it is. *)
Definition init : t :=
  {| reading_entry := false; td_num := 0; spans_seen := 0 |}.

Definition is_row_class (attr : string * option string) : bool :=
  bool_decide (attr = ("class", Some "normalRow"))
  || bool_decide (attr = ("class", Some "alternateRow")).

Definition handle_starttag (st : cls * t) (tag : string)
    (attrs : list (string * option string)) : cls * t :=
  let '(entries, self) := st in
  let '(entries, self) :=
    if bool_decide (tag = "tr") && existsb is_row_class attrs
    then (entries ++ [DictEntry_new],
          {| reading_entry := true; td_num := td_num self;
             spans_seen := spans_seen self |})
    else (entries, self) in
  let self :=
    if bool_decide (tag = "td") && reading_entry self
    then {| reading_entry := reading_entry self; td_num := td_num self + 1;
            spans_seen := spans_seen self |}
    else self in
  let self :=
    if negb (bool_decide (td_num self = 0)) && bool_decide (tag = "span")
    then {| reading_entry := reading_entry self; td_num := td_num self;
            spans_seen := spans_seen self + 1 |}
    else self in
  (entries, self).

Definition handle_data (st : cls * t) (data : string) : result (cls * t) :=
  let '(entries, self) := st in
  if reading_entry self then
    entries ← (if bool_decide (td_num self = 1)
                  && bool_decide (spans_seen self = 1)
               then update_last
                      (set_word (Py.strip (Py.split0 " " data))) entries
               else Ok entries);
    if bool_decide (td_num self = 2) && bool_decide (spans_seen self = 1)
    then
      if bool_decide (data = "1")
      then Ok (entries,
               {| reading_entry := reading_entry self;
                  td_num := td_num self;
                  spans_seen := spans_seen self - 1 |})
      else
        entries ← update_last
                    (set_translation "nor"
                       (Py.strip
                          (Py.split0 "("
                             (Py.split0 ";" (Py.split0 "," data)))))
                    entries;
        Ok (entries, self)
    else Ok (entries, self)
  else Ok st.

Definition handle_endtag (st : cls * t) (tag : string) : cls * t :=
  let '(entries, self) := st in
  let '(entries, self) :=
    if bool_decide (tag = "tr")
    then (match last entries with
          | Some e => if bool_decide (word e = "")
                      then removelast entries else entries
          | None => entries
          end,
          {| reading_entry := false; td_num := 0;
             spans_seen := spans_seen self |})
    else (entries, self) in
  if bool_decide (tag = "td")
  then (entries, {| reading_entry := reading_entry self;
                    td_num := td_num self; spans_seen := 0 |})
  else (entries, self).

Definition handle (st : cls * t) (ev : html_event) : result (cls * t) :=
  match ev with
  | StartTag tag attrs => Ok (handle_starttag st tag attrs)
  | Data data => handle_data st data
  | EndTag tag => Ok (handle_endtag st tag)
  end.

(** [feed]: [HTMLParser.feed(self, data)], nothing returned. *)
Fixpoint feed (st : cls * t) (data : list html_event) : result (cls * t) :=
  match data with
  | [] => Ok st
  | ev :: data' => st' ← handle st ev; feed st' data'
  end.

(** [read]: one page per letter of [lule_alphabet], fetched by
    [urllib.request.urlopen]; [pages] are the documents the fetches
    return, in alphabet order.  The value returned is the class's list. *)
Fixpoint read_loop (st : cls * t) (pages : list (list html_event))
  : result (cls * t) :=
  match pages with
  | [] => Ok st
  | page :: pages' => st' ← feed st page; read_loop st' pages'
  end.

Definition read (st : cls * t) (pages : list (list html_event))
  : result (cls * t * list DictEntry) :=
  st' ← read_loop st pages;
  Ok (st', st'.1).

End LuleDictReader.

(** What the handlers of one reader maintain, started on a fresh instance:
    while a row is being read the class's list is not empty. *)
Definition reading_inv (st : LuleDictReader.cls * LuleDictReader.t) : Prop :=
  LuleDictReader.reading_entry st.2 = true → st.1 ≠ [].

Definition biila : DictEntry := mkDictEntry "biila" "" {["nor" := "bil"]}.

Definition lule_page : list html_event :=
  [ StartTag "table" [];
    StartTag "tr" [("class", Some "alternateRow")];
    StartTag "td" []; StartTag "span" [("class", Some "lemma")];
    Data "girjje (subst.)"; EndTag "span"; EndTag "td";
    StartTag "td" []; StartTag "span" []; Data "1"; EndTag "span";
    StartTag "span" []; Data "bok; brev (gammeldags)"; EndTag "span";
    EndTag "td"; EndTag "tr";
    StartTag "tr" [("class", Some "header")]; EndTag "tr";
    EndTag "table" ].

(** ** The flat-text word list *)

(** [translations.get(lang, '')] *)
Definition translation_or_empty (lang : string) (e : DictEntry) : string :=
  default "" (translations e !! lang).

(** ['{};{};{};{};{}\n'.format(...)] *)
Definition format_entry (entry : DictEntry) : string :=
  word entry +:+ ";" +:+ pos entry +:+ ";"
  +:+ translation_or_empty "swe" entry +:+ ";"
  +:+ translation_or_empty "nor" entry +:+ ";"
  +:+ translation_or_empty "eng" entry +:+ String Py.nl "".

(** [writeWordlistFile]: the content of the file after the call. *)
Fixpoint writeWordlistFile (word_list : list DictEntry) : string :=
  match word_list with
  | [] => ""
  | entry :: word_list' => format_entry entry +:+ writeWordlistFile word_list'
  end.

(** [contents[i]] *)
Definition item (contents : list string) (i : nat) : result string :=
  match contents !! i with
  | Some s => Ok s
  | None => Raise IndexError
  end.

(** [if contents[i]: new_entry.translations[lang] = contents[i]] *)
Definition store_translation (lang s : string) (e : DictEntry) : DictEntry :=
  if bool_decide (s = "") then e else set_translation lang s e.

(** The body of [for line in lines] for a non-empty [line]. *)
Definition read_line (line : string) : result DictEntry :=
  let contents := Py.split_max ";" 4 (Py.drop_last line) in
  w ← item contents 0;
  p ← item contents 1;
  swe ← item contents 2;
  nor ← item contents 3;
  eng ← item contents 4;
  Ok (store_translation "eng" eng
        (store_translation "nor" nor
           (store_translation "swe" swe
              (set_pos p (set_word w DictEntry_new))))).

Fixpoint read_lines (lines : list string) (word_list : list DictEntry)
  : result (list DictEntry) :=
  match lines with
  | [] => Ok word_list
  | line :: lines' =>
      if bool_decide (line = "") then read_lines lines' word_list
      else new_entry ← read_line line;
           read_lines lines' (word_list ++ [new_entry])
  end.

(** [readWordlistFile], applied to the content of the file. *)
Definition readWordlistFile (content : string) : result (list DictEntry) :=
  read_lines (Py.readlines content) [].

(** A field the line format can carry: no separator, no line end. *)
Definition field_ok (s : string) : Prop :=
  ¬ Py.contains ";" s ∧ ¬ Py.contains Py.nl s.

#[global] Instance contains_dec c s : Decision (Py.contains c s).
Proof. unfold Py.contains. apply _. Defined.

#[global] Instance field_ok_dec s : Decision (field_ok s).
Proof. unfold field_ok. apply _. Defined.

Definition entry_ok (e : DictEntry) : Prop :=
  field_ok (word e) ∧ field_ok (pos e)
  ∧ map_Forall (λ _ v, field_ok v) (translations e).

#[global] Instance entry_ok_dec e : Decision (entry_ok e).
Proof. unfold entry_ok. apply _. Defined.

(** The translations the line format keeps: those of the three languages of
    the format whose value is not empty. *)
Definition kept (kv : string * string) : Prop :=
  kv.1 ∈ ["swe"; "nor"; "eng"] ∧ kv.2 ≠ "".

#[global] Instance kept_dec kv : Decision (kept kv).
Proof. unfold kept. apply _. Defined.

Definition decoded (e : DictEntry) : DictEntry :=
  {| word := word e; pos := pos e;
     translations := filter kept (translations e) |}.

Definition bussa_full : DictEntry :=
  mkDictEntry "bussa" "Noun" {["swe" := "buss"; "eng" := "bus"]}.

Definition ahkka_partial : DictEntry :=
  mkDictEntry "ahkka" "" {["nor" := ""; "fin" := "akka"]}.

(** ** The threshold loop of the script *)

Inductive dialect : Type := Pite | North.

#[global] Instance dialect_eq_dec : EqDecision dialect.
Proof. solve_decision. Defined.

(** What the script writes to the report file [f], one constructor per
    [f.write].  Numbers are kept as numbers; the dialect of a line is the
    one its text or the preceding header names. *)
Inductive report_item : Type :=
| Rule
| NewHeader (d : dialect)
| NewMatch (d : dialect) (w translation p eng : string)
| Summary (d : dialect) (matched : nat) (percent : Q) (new : nat)
    (threshold_percent : Q)
| PosLine (d : dialect) (p : string) (count : nat) (percent : Q)
| Blank.

(** The module-level names the loop mutates. *)
Record globals : Type := mkGlobals {
  pite_matches_so_far : list DictEntry;
  north_matches_so_far : list DictEntry;
  f : list report_item;
}.

Definition globals_init : globals :=
  {| pite_matches_so_far := []; north_matches_so_far := []; f := [] |}.

Definition matches_so_far (d : dialect) (g : globals) : list DictEntry :=
  match d with
  | Pite => pite_matches_so_far g
  | North => north_matches_so_far g
  end.

Definition append_so_far (d : dialect) (e : DictEntry) (g : globals) : globals :=
  match d with
  | Pite => {| pite_matches_so_far := pite_matches_so_far g ++ [e];
               north_matches_so_far := north_matches_so_far g; f := f g |}
  | North => {| pite_matches_so_far := pite_matches_so_far g;
                north_matches_so_far := north_matches_so_far g ++ [e];
                f := f g |}
  end.

Definition write (x : report_item) (g : globals) : globals :=
  {| pite_matches_so_far := pite_matches_so_far g;
     north_matches_so_far := north_matches_so_far g;
     f := f g ++ [x] |}.

(** The comparison language of a dialect. *)
Definition lang_of (d : dialect) : string :=
  match d with Pite => "swe" | North => "nor" end.

(** [if pos not in counter: counter[pos] = 1 else: counter[pos] += 1] on a
    dict, kept in insertion order. *)
Fixpoint count_pos (p : string) (counter : list (string * nat))
  : list (string * nat) :=
  match counter with
  | [] => [(p, 1)]
  | (q, n) :: counter' =>
      if bool_decide (p = q) then (q, n + 1) :: counter'
      else (q, n) :: count_pos p counter'
  end.

(** The names reset at the top of each pass, for one dialect: the
    part-of-speech counter, the matched list and the counter of new
    matches.  The Pite Saami loop appends [entry.word] to its matched list,
    the North Saami loop appends [entry]. *)
Record locals : Type := mkLocals {
  pos_counter : list (string * nat);
  words_matched : list (string + DictEntry);
  new_counter : nat;
}.

Definition locals_init : locals :=
  {| pos_counter := []; words_matched := []; new_counter := 0 |}.

Definition matched_item (d : dialect) (entry : DictEntry)
  : string + DictEntry :=
  match d with
  | Pite => inl (word entry)
  | North => inr entry
  end.

(** [similar(entry.word, entry.translations.get(lang)) >= similarity_threshold
     and entry.pos != 'Proper noun'] *)
Definition is_match (d : dialect) (similarity_threshold : Q)
    (entry : DictEntry) : bool :=
  Qle_bool similarity_threshold
    (similar (Some (word entry)) (translations entry !! lang_of d))
  && negb (bool_decide (pos entry = "Proper noun")).

(** The body of [for entry in psm_words] / [for entry in nsm_words]. *)
Definition match_entry (d : dialect) (similarity_threshold : Q)
    (st : globals * locals) (entry : DictEntry) : globals * locals :=
  let '(g, l) := st in
  if is_match d similarity_threshold entry then
    let '(g, new) :=
      if negb (entry_in entry (matches_so_far d g))
      then (write (NewMatch d (word entry)
                     (default "???" (translations entry !! lang_of d))
                     (pos entry)
                     (default "???" (translations entry !! "eng")))
              (append_so_far d entry g),
            new_counter l + 1)
      else (g, new_counter l) in
    (g, {| pos_counter := count_pos (pos entry) (pos_counter l);
           words_matched := words_matched l ++ [matched_item d entry];
           new_counter := new |})
  else st.

(** [x / y] on the lengths and counts, a float division. *)
Definition true_div (x y : nat) : result Q :=
  if bool_decide (y = 0) then Raise ZeroDivisionError
  else Ok (Z.of_nat x # Pos.of_nat y)%Q.

(** [for pos in counter: f.write(...)] *)
Fixpoint write_pos_lines (d : dialect) (counter : list (string * nat))
    (matched : nat) (g : globals) : globals * result () :=
  match counter with
  | [] => (g, Ok ())
  | (p, n) :: counter' =>
      match true_div n matched with
      | Ok q => write_pos_lines d counter' matched
                  (write (PosLine d p n (q * 100)%Q) g)
      | Raise e => (g, Raise e)
      end
  end.

(** One dialect's half of a pass: header, matching loop, summary line,
    part-of-speech lines, blank line.  The globals keep what was done
    before an exception. *)
Definition dialect_pass (d : dialect) (similarity_threshold : Q)
    (words : list DictEntry) (g : globals) : globals * result () :=
  let g := write (NewHeader d) g in
  let '(g, l) :=
    foldl (match_entry d similarity_threshold) (g, locals_init) words in
  match true_div (length (words_matched l)) (length words) with
  | Raise e => (g, Raise e)
  | Ok q =>
      let g := write (Summary d (length (words_matched l)) (q * 100)%Q
                        (new_counter l) (similarity_threshold * 100)%Q) g in
      match write_pos_lines d (pos_counter l) (length (words_matched l)) g with
      | (g, Raise e) => (g, Raise e)
      | (g, Ok _) => (write Blank g, Ok ())
      end
  end.

(** The body of [for similarity_threshold in threshholds]. *)
Definition threshold_pass (psm_words nsm_words : list DictEntry)
    (similarity_threshold : Q) (g : globals) : globals * result () :=
  let g := write Rule g in
  match dialect_pass Pite similarity_threshold psm_words g with
  | (g, Raise e) => (g, Raise e)
  | (g, Ok _) => dialect_pass North similarity_threshold nsm_words g
  end.

Fixpoint threshold_loop (psm_words nsm_words : list DictEntry)
    (threshholds : list Q) (g : globals) : globals * result () :=
  match threshholds with
  | [] => (g, Ok ())
  | similarity_threshold :: threshholds' =>
      match threshold_pass psm_words nsm_words similarity_threshold g with
      | (g, Raise e) => (g, Raise e)
      | (g, Ok _) => threshold_loop psm_words nsm_words threshholds' g
      end
  end.

(** The list the script iterates over. *)
Definition threshholds : list Q :=
  [1; 95 # 100; 9 # 10; 8 # 10; 7 # 10; 6 # 10; 5 # 10]%Q.

(** A run of the script body from the state in which both cumulative lists
    have just been created. *)
Definition run (psm_words nsm_words : list DictEntry) (ths : list Q)
  : globals * result () :=
  threshold_loop psm_words nsm_words ths globals_init.

(** The words of the "new match" lines of dialect [d] in a report. *)
Definition new_words (d : dialect) (report : list report_item) : list string :=
  omap (λ x, match x with
             | NewMatch d' w _ _ _ => if decide (d' = d) then Some w else None
             | _ => None
             end) report.

(** *** Vocabulary for the properties of the loop *)

(** The two kinds of change the loop makes to the globals: a line that is
    not a "new match" line is written, or a record that is not yet in the
    cumulative list of its dialect is appended to it and reported. *)
Definition benign (x : report_item) : Prop :=
  match x with
  | NewMatch _ _ _ _ _ => False
  | PosLine _ p _ _ => p ≠ "Proper noun"
  | _ => True
  end.

Inductive step : globals → globals → Prop :=
| step_write x g : benign x → step g (write x g)
| step_new d e g :
    entry_in e (matches_so_far d g) = false →
    pos e ≠ "Proper noun" →
    step g (write (NewMatch d (word e)
                     (default "???" (translations e !! lang_of d)) (pos e)
                     (default "???" (translations e !! "eng")))
              (append_so_far d e g)).

Definition counter_ok (counter : list (string * nat)) : Prop :=
  Forall (λ kv, kv.1 ≠ "Proper noun") counter.

Definition report_inv (g : globals) : Prop :=
  ∀ d, new_words d (f g) = map word (matches_so_far d g)
       ∧ NoDup (map word (matches_so_far d g)).

Definition no_proper_noun (g : globals) : Prop :=
  (∀ d e, e ∈ matches_so_far d g → pos e ≠ "Proper noun")
  ∧ (∀ d w t p eng, NewMatch d w t p eng ∈ f g → p ≠ "Proper noun")
  ∧ (∀ d p n q, PosLine d p n q ∈ f g → p ≠ "Proper noun").

Definition bussa : DictEntry :=
  mkDictEntry "bussa" "Noun" {["swe" := "buss"]}.

(** ** More vocabulary for the matcher *)

Section matching_blocks.
Context {A : Type} `{Countable A}.
Variables (a b : list A).

(** The block [m] is a real match: [a[i+t] == b[j+t]] for every [t] below
    its size. *)
Definition genuine (m : Difflib.Match) : Prop :=
  ∀ t, t < m.2 → Difflib.elt_eq a b (m.1.1 + t) (m.1.2 + t) = true.

(** The table row after the rows up to [i - 1]: the entry at column [j] is
    the length of a real match that ends at row [i - 1] and column [j]. *)
Definition j2len_genuine (i : nat) (j2len : gmap nat nat) : Prop :=
  ∀ j k, j2len !! j = Some k →
    ∃ p q, p + k = i ∧ q + k = j + 1
           ∧ ∀ t, t < k → Difflib.elt_eq a b (p + t) (q + t) = true.
End matching_blocks.

(** The range of both sequences a block occupies. *)
Definition rect_of (m : Difflib.Match) : nat * nat * nat * nat :=
  (m.1.1, m.1.1 + m.2, m.1.2, m.1.2 + m.2).

(** Range [x] ends, in both sequences, where range [y] starts or earlier. *)
Definition before (x y : nat * nat * nat * nat) : Prop :=
  x.1.1.2 ≤ y.1.1.1 ∧ x.2 ≤ y.1.2.

Definition inside (r x : nat * nat * nat * nat) : Prop :=
  r.1.1.1 ≤ x.1.1.1 ∧ x.1.1.2 ≤ r.1.1.2 ∧ r.1.2 ≤ x.1.2 ∧ x.2 ≤ r.2.

(** No two ranges of the list overlap or cross. *)
Fixpoint apart (l : list (nat * nat * nat * nat)) : Prop :=
  match l with
  | [] => True
  | x :: l' => Forall (λ y, before x y ∨ before y x) l' ∧ apart l'
  end.

Definition block_before (x y : Difflib.Match) : Prop :=
  before (rect_of x) (rect_of y).

(** Blocks ordered by their start in the first sequence. *)
Definition start_le (x y : Difflib.Match) : Prop := x.1.1 ≤ y.1.1.

#[global] Instance start_le_dec x y : Decision (start_le x y).
Proof. unfold start_le. apply _. Defined.

#[global] Instance start_le_total : Total start_le.
Proof. intros x y. unfold start_le. lia. Qed.

#[global] Instance start_le_trans : Transitive start_le.
Proof. intros x y z. unfold start_le. lia. Qed.

(** What the queue loop of [get_matching_blocks] keeps true while it runs
    inside the range [box]. *)
Definition loop_inv {A} (a b : list A) `{EqDecision A}
    (box : nat * nat * nat * nat)
    (queue : list (nat * nat * nat * nat)) (blocks : list Difflib.Match)
  : Prop :=
  Forall (genuine a b) blocks
  ∧ Forall (λ m : Difflib.Match, 0 < m.2) blocks
  ∧ Forall (inside box) (queue ++ map rect_of blocks)
  ∧ apart (queue ++ map rect_of blocks)
  ∧ Forall Difflib.range_ok queue.

(** ** [remove_repeats] *)

(** The loop of [remove_repeats]: [item not in new_list] compares the
    elements of [new_list] with [item] by [==], here [eqb]. *)
Fixpoint remove_repeats_loop {A} (eqb : A → A → bool) (new_list input_list : list A)
  : list A :=
  match input_list with
  | [] => new_list
  | item :: input_list' =>
      remove_repeats_loop eqb
        (if existsb (λ x, eqb x item) new_list then new_list
         else new_list ++ [item])
        input_list'
  end.

Definition remove_repeats {A} (eqb : A → A → bool) (input_list : list A) : list A :=
  remove_repeats_loop eqb [] input_list.

(** [==] on strings, and on the tuples of strings [re.findall] returns. *)
Definition py_eq {A} `{EqDecision A} (x y : A) : bool := bool_decide (x = y).

(** ** More vocabulary for the threshold loop *)

(** [counter.get(p, 0)] on the part-of-speech counter. *)
Fixpoint counter_get (counter : list (string * nat)) (p : string) : nat :=
  match counter with
  | [] => 0
  | (q, n) :: counter' => if bool_decide (q = p) then n else counter_get counter' p
  end.

(** The records of [words] that match at [th], in order. *)
Definition matched (d : dialect) (th : Q) (words : list DictEntry) : list DictEntry :=
  filter (λ e, is_match d th e) words.

Definition words_of (d : dialect) (psm_words nsm_words : list DictEntry)
  : list DictEntry :=
  match d with Pite => psm_words | North => nsm_words end.

Definition is_new_match (d : dialect) (x : report_item) : Prop :=
  match x with NewMatch d' _ _ _ _ => d' = d | _ => False end.

(** ** More vocabulary for the flat-text word list *)

(** [s.count(sep)] for a character. *)
Fixpoint count_sep (sep : ascii) (s : string) : nat :=
  match s with
  | "" => 0
  | String c s' => (if decide (c = sep) then 1 else 0) + count_sep sep s'
  end.

(** [sep.join(pieces)] for a character. *)
Fixpoint join (sep : ascii) (pieces : list string) : string :=
  match pieces with
  | [] => ""
  | [s] => s
  | s :: pieces' => s +:+ String sep (join sep pieces')
  end.

(** The content is empty or ends with a line end. *)
Fixpoint terminated (s : string) : bool :=
  match s with
  | "" => true
  | String c "" => bool_decide (c = Py.nl)
  | String _ s' => terminated s'
  end.

(** How [readlines] sees a content: lines closed by a line end, then
    possibly a last line that has none. *)
Inductive lines_shape : string → Prop :=
| shape_nil : lines_shape ""
| shape_line line rest :
    ¬ Py.contains Py.nl line → lines_shape rest →
    lines_shape (line +:+ String Py.nl rest)
| shape_last s : s ≠ "" → ¬ Py.contains Py.nl s → lines_shape s.

(** The record [readWordlistFile] builds from the five fields of a line. *)
Definition entry_of_fields (w p swe nor eng : string) : DictEntry :=
  store_translation "eng" eng
    (store_translation "nor" nor
       (store_translation "swe" swe
          (set_pos p (set_word w DictEntry_new)))).

(** A record whose line is read back as one line of five fields: the
    separator may occur in the last field only. *)
Definition line_ok (e : DictEntry) : Prop :=
  field_ok (word e) ∧ field_ok (pos e)
  ∧ field_ok (translation_or_empty "swe" e)
  ∧ field_ok (translation_or_empty "nor" e)
  ∧ ¬ Py.contains Py.nl (translation_or_empty "eng" e).

#[global] Instance line_ok_dec e : Decision (line_ok e).
Proof. unfold line_ok. apply _. Defined.

(** A line with its five fields. *)
Definition enough_fields (line : string) : Prop :=
  4 ≤ count_sep ";" (Py.drop_last line).

#[global] Instance enough_fields_dec line : Decision (enough_fields line).
Proof. unfold enough_fields. apply _. Defined.

(** A content with its last line closed, as [writeWordlistFile] gives it
    back. *)
Definition closed (content : string) : string :=
  if terminated content then content
  else Py.drop_last content +:+ String Py.nl "".

(** ** More vocabulary for the readers *)

(** The handlers of both readers change the list of records at its end
    only: a record is appended, the last record is replaced by an edited
    one, or the last record is removed. *)
Definition last_edited {A} (edit : A → A → Prop) (l l' : list A) : Prop :=
  l' = l ∨ ∃ l0 x y, l = l0 ++ [x] ∧ l' = l0 ++ [y] ∧ edit x y.

(** The values [normalize_pos] can give. *)
Definition pos_values : list string :=
  ["Proper noun"; "Other"; "Noun"; "Verb"; "Conjunction"; "Adjective";
   "Adverb"; "Numeral"].

(** What [PiteWordlistReader.handle_data] may do to the last record. *)
Definition pite_edit (x y : DictEntry) : Prop :=
  word y = word x
  ∧ (pos y = pos x ∨ pos y ∈ pos_values)
  ∧ ∀ k v, translations y !! k = Some v →
      translations x !! k = Some v
      ∨ (k ∈ ["eng"; "swe"; "nor"] ∧ ¬ Py.contains "(" v).

(** A record as the Pite Saami reader builds it. *)
Definition pite_entry_ok (e : DictEntry) : Prop :=
  word e ≠ ""
  ∧ (pos e = "" ∨ pos e ∈ pos_values)
  ∧ map_Forall (λ k v, k ∈ ["eng"; "swe"; "nor"] ∧ ¬ Py.contains "(" v)
      (translations e).

#[global] Instance pite_entry_ok_dec e : Decision (pite_entry_ok e).
Proof. unfold pite_entry_ok. apply _. Defined.

(** The start tags that open an entry block. *)
Definition opens_entry_block (ev : html_event) : bool :=
  match ev with
  | StartTag tag attrs =>
      bool_decide (Py.lower tag = "p")
      && bool_decide (("class", Some "menu1") ∈ attrs)
  | _ => false
  end.

(** An entry block is open and its second line has not been seen. *)
Definition pending (self : PiteWordlistReader.t) : nat :=
  if PiteWordlistReader.reading_entry self
     && bool_decide (PiteWordlistReader.line_num self < 2)
  then 1 else 0.

(** What [LuleDictReader.handle_data] may do to the last record. *)
Definition lule_edit (x y : DictEntry) : Prop :=
  (word y = word x ∨ ¬ Py.contains " " (word y))
  ∧ pos y = pos x
  ∧ ∀ k v, translations y !! k = Some v →
      translations x !! k = Some v
      ∨ (k = "nor" ∧ ¬ Py.contains "," v ∧ ¬ Py.contains ";" v
         ∧ ¬ Py.contains "(" v).

(** A record as the Lule Saami reader builds it. *)
Definition lule_entry_ok (e : DictEntry) : Prop :=
  ¬ Py.contains " " (word e)
  ∧ pos e = ""
  ∧ map_Forall (λ k v, k = "nor" ∧ ¬ Py.contains "," v
                       ∧ ¬ Py.contains ";" v ∧ ¬ Py.contains "(" v)
      (translations e).

#[global] Instance lule_entry_ok_dec e : Decision (lule_entry_ok e).
Proof. unfold lule_entry_ok. apply _. Defined.

(** The start tags that open a row of the Lule Saami dictionary. *)
Definition opens_row (ev : html_event) : bool :=
  match ev with
  | StartTag tag attrs =>
      bool_decide (tag = "tr") && existsb LuleDictReader.is_row_class attrs
  | _ => false
  end.

(** * Properties *)

(** ** [difflib.SequenceMatcher] *)

Module DifflibFacts.
Import Difflib.

Section bounds.
Context {A : Type} `{Countable A}.
Variables (a b : list A) (b2j : gmap A (list nat)).

Lemma j2lenget_ok alo blo bhi i j2len j :
  j2len_ok alo blo bhi i j2len → alo ≤ i → blo ≤ j →
  j2lenget j2len j + 1 + alo ≤ i + 1 ∧ j2lenget j2len j + 1 + blo ≤ j + 1.
Proof.
  intros Hok Hi Hj. destruct j as [|j]; simpl; [lia|].
  destruct (j2len !! j) as [k|] eqn:E; simpl; [|lia].
  destruct (Hok j k E) as (? & ? & ? & ?). lia.
Qed.

Lemma row_ok alo blo bhi i j2len js newj2len best :
  alo ≤ i → blo ≤ bhi →
  j2len_ok alo blo bhi i j2len →
  j2len_ok alo blo bhi (S i) newj2len →
  best_ok alo blo bhi (S i) best →
  j2len_ok alo blo bhi (S i) (row i blo bhi j2len js newj2len best).1
  ∧ best_ok alo blo bhi (S i) (row i blo bhi j2len js newj2len best).2.
Proof.
  intros Hi Hb Hprev. revert newj2len best.
  induction js as [|j js IH]; intros newj2len best Hnew Hbest; simpl; [done|].
  case_decide as Hlo; [by apply IH|].
  case_decide as Hhi; [done|].
  destruct (j2lenget_ok alo blo bhi i j2len j Hprev) as [Hk1 Hk2]; [lia..|].
  apply IH.
  - intros j' k'. rewrite lookup_insert. case_decide as Hj.
    + intros [= <-]. subst j'. lia.
    + apply Hnew.
  - case_decide; [|done]. unfold best_ok. simpl. lia.
Qed.

Lemma rows_ok alo blo bhi n i j2len best :
  alo ≤ i → blo ≤ bhi →
  j2len_ok alo blo bhi i j2len →
  best_ok alo blo bhi i best →
  best_ok alo blo bhi (i + n) (rows a b2j n i blo bhi j2len best).2.
Proof.
  revert i j2len best. induction n as [|n IH]; intros i j2len best Hi Hb Hj Hbest.
  { simpl. by rewrite Nat.add_0_r. }
  simpl.
  match goal with |- context [row i blo bhi j2len ?js ∅ best] =>
    destruct (row_ok alo blo bhi i j2len js ∅ best) as [H1 H2];
    [done|done|done| | |destruct (row i blo bhi j2len js ∅ best) as [new best']]
  end.
  - intros j k. by rewrite lookup_empty.
  - unfold best_ok in *. lia.
  - replace (i + S n) with (S i + n) by lia. apply IH; [lia|done..].
Qed.

Lemma extend_back_ok alo blo besti bestj bestsize :
  alo ≤ besti → blo ≤ bestj →
  let r := extend_back a b alo blo besti bestj bestsize in
  alo ≤ r.1.1 ∧ blo ≤ r.1.2
  ∧ r.1.1 + r.2 = besti + bestsize ∧ r.1.2 + r.2 = bestj + bestsize.
Proof.
  revert bestj bestsize.
  induction besti as [|i IH]; intros bestj bestsize Hi Hj; simpl; [lia|].
  destruct bestj as [|j]; simpl; [lia|].
  destruct (bool_decide (alo < S i) && bool_decide (blo < S j) && elt_eq a b i j)
    eqn:E; simpl; [|lia].
  apply andb_true_iff in E as [E _]. apply andb_true_iff in E as [E1 E2].
  apply bool_decide_eq_true in E1, E2.
  destruct (IH j (bestsize + 1)) as (? & ? & ? & ?); lia.
Qed.

Lemma extend_fwd_ok n ahi bhi besti bestj bestsize :
  besti + bestsize ≤ ahi → bestj + bestsize ≤ bhi →
  ∃ k, extend_fwd a b n ahi bhi besti bestj bestsize = (besti, bestj, k)
       ∧ bestsize ≤ k ∧ besti + k ≤ ahi ∧ bestj + k ≤ bhi.
Proof.
  revert bestsize. induction n as [|n IH]; intros bestsize Ha Hb; simpl.
  { exists bestsize. auto with lia. }
  destruct (bool_decide (besti + bestsize < ahi)
            && bool_decide (bestj + bestsize < bhi) && _) eqn:E.
  - apply andb_true_iff in E as [E _]. apply andb_true_iff in E as [E1 E2].
    apply bool_decide_eq_true in E1, E2.
    destruct (IH (bestsize + 1)) as (k & -> & ? & ? & ?); [lia..|].
    exists k. auto with lia.
  - exists bestsize. auto with lia.
Qed.

(** The block found lies inside the range searched; in particular no
    index computed on the way is negative. *)
Lemma find_longest_match_bounds alo ahi blo bhi :
  alo ≤ ahi → blo ≤ bhi →
  let m := find_longest_match a b b2j alo ahi blo bhi in
  alo ≤ m.1.1 ∧ m.1.1 + m.2 ≤ ahi ∧ blo ≤ m.1.2 ∧ m.1.2 + m.2 ≤ bhi.
Proof.
  intros Ha Hb. unfold find_longest_match.
  pose proof (rows_ok alo blo bhi (ahi - alo) alo ∅ (alo, blo, 0)) as Hr.
  destruct (rows a b2j (ahi - alo) alo blo bhi ∅ (alo, blo, 0))
    as [j2len [[besti bestj] bestsize]].
  destruct Hr as (H1 & H2 & H3 & H4); [done|done| | |].
  { intros j k. by rewrite lookup_empty. }
  { unfold best_ok. simpl. lia. }
  simpl in *.
  pose proof (extend_back_ok alo blo besti bestj bestsize H1 H3) as He.
  destruct (extend_back a b alo blo besti bestj bestsize) as [[i j] k].
  simpl in He. destruct He as (? & ? & ? & ?).
  destruct (extend_fwd_ok (ahi - (i + k)) ahi bhi i j k) as (k' & -> & ? & ? & ?);
    [lia..|].
  simpl. lia.
Qed.

Lemma total_size_app l1 l2 :
  total_size (l1 ++ l2) = total_size l1 + total_size l2.
Proof.
  induction l1 as [|x l1 IH]; simpl; [done|]. rewrite IH. lia.
Qed.

Lemma sum_list_cons (x : nat) l : sum_list (x :: l) = x + sum_list l.
Proof. reflexivity. Qed.

(** The loop empties the queue within the iterations it is given, and the
    blocks it adds fit in the ranges that were queued. *)
Lemma matching_loop_fuel fuel queue blocks :
  Forall range_ok queue →
  sum_list (range_cost <$> queue) ≤ fuel →
  let r := matching_loop a b b2j fuel queue blocks in
  r.1 = []
  ∧ total_size r.2 ≤ total_size blocks + sum_list (range_room <$> queue).
Proof.
  revert queue blocks.
  induction fuel as [|fuel IH]; intros queue blocks Hq Hf.
  { destruct queue as [|r queue]; simpl in *; [split; [done|lia]|].
    unfold range_cost in Hf. lia. }
  destruct queue as [|[[[alo ahi] blo] bhi] queue]; [simpl; split; [done|lia]|].
  apply Forall_cons in Hq as [[Ha Hb] Hq]. simpl in Ha, Hb.
  rewrite !fmap_cons, !sum_list_cons in *. cbn [matching_loop].
  change (range_cost (alo, ahi, blo, bhi)) with (2 * (ahi - alo) + 1) in Hf.
  change (range_room (alo, ahi, blo, bhi))
    with ((ahi - alo) `min` (bhi - blo)).
  pose proof (find_longest_match_bounds alo ahi blo bhi Ha Hb) as Hm.
  destruct (find_longest_match a b b2j alo ahi blo bhi) as [[i j] k].
  simpl in Hm. destruct Hm as (? & ? & ? & ?).
  case_decide as Hk.
  { destruct (IH queue blocks) as [-> ?]; [done|lia|]. split; [done|lia]. }
  set (q1 := if bool_decide (alo < i) && bool_decide (blo < j)
             then (alo, i, blo, j) :: queue else queue).
  set (q2 := if bool_decide (i + k < ahi) && bool_decide (j + k < bhi)
             then (i + k, ahi, j + k, bhi) :: q1 else q1).
  assert (Forall range_ok q1
          ∧ sum_list (range_cost <$> q1)
            ≤ 2 * (i - alo) + 1 + sum_list (range_cost <$> queue)
          ∧ sum_list (range_room <$> q1)
            ≤ (i - alo) `min` (j - blo) + sum_list (range_room <$> queue))
    as (Hq1 & Hc1 & Hr1).
  { unfold q1. destruct (bool_decide (alo < i) && bool_decide (blo < j)).
    - rewrite !fmap_cons, !sum_list_cons.
      split_and!; [|done..]. apply Forall_cons. split; [|done].
      unfold range_ok. simpl. lia.
    - split_and!; [done|lia..]. }
  assert (Forall range_ok q2
          ∧ sum_list (range_cost <$> q2)
            ≤ 2 * (ahi - (i + k)) + 1 + sum_list (range_cost <$> q1)
          ∧ sum_list (range_room <$> q2)
            ≤ (ahi - (i + k)) `min` (bhi - (j + k))
              + sum_list (range_room <$> q1))
    as (Hq2 & Hc2 & Hr2).
  { unfold q2.
    destruct (bool_decide (i + k < ahi) && bool_decide (j + k < bhi)).
    - rewrite !fmap_cons, !sum_list_cons.
      split_and!; [|done..]. apply Forall_cons. split; [|done].
      unfold range_ok. simpl. lia.
    - split_and!; [done|lia..]. }
  destruct (IH q2 (blocks ++ [(i, j, k)])) as [-> Ht]; [done|lia|].
  split; [done|]. rewrite total_size_app in Ht. simpl in Ht. lia.
Qed.
End bounds.

Section ratio.
Context {A : Type} `{Countable A}.

Lemma total_size_Permutation (l1 l2 : list Match) :
  l1 ≡ₚ l2 → total_size l1 = total_size l2.
Proof. induction 1; simpl; lia. Qed.

Lemma total_size_collapse blocks i1 j1 k1 non_adjacent :
  total_size (collapse blocks i1 j1 k1 non_adjacent)
  = total_size non_adjacent + k1 + total_size blocks.
Proof.
  revert i1 j1 k1 non_adjacent.
  induction blocks as [|[[i2 j2] k2] blocks IH]; intros i1 j1 k1 acc; simpl.
  - case_decide; rewrite ?total_size_app; simpl; lia.
  - destruct (bool_decide (i1 + k1 = i2) && bool_decide (j1 + k1 = j2));
      rewrite IH; [lia|].
    case_decide; rewrite ?total_size_app; simpl; lia.
Qed.

(** The matching blocks are disjoint in both sequences: together they
    are no longer than the shorter one. *)
Lemma matches_le (a b : list A) :
  matches a b ≤ length a `min` length b.
Proof.
  unfold matches, get_matching_blocks.
  pose proof (matching_loop_fuel a b (chain_b b) (2 * length a + 1)
                [(0, length a, 0, length b)] []) as Hl.
  destruct (matching_loop a b (chain_b b) (2 * length a + 1)
              [(0, length a, 0, length b)] []) as [queue blocks].
  destruct Hl as [_ Hl].
  { repeat constructor; simpl; lia. }
  { simpl. unfold range_cost. simpl. lia. }
  fold (total_size (collapse (merge_sort Match_le blocks) 0 0 0 []
                    ++ [(length a, length b, 0)])).
  rewrite total_size_app, total_size_collapse,
    (total_size_Permutation _ _ (merge_sort_Permutation Match_le blocks)).
  simpl in *. unfold range_room in Hl. simpl in Hl. lia.
Qed.

Lemma calculate_ratio_range (m len : nat) :
  2 * m ≤ len → (0 <= calculate_ratio m len)%Q ∧ (calculate_ratio m len <= 1)%Q.
Proof.
  intros Hm. unfold calculate_ratio. case_decide as Hl; [done|].
  unfold Qle. simpl.
  rewrite <-(positive_nat_Z (Pos.of_nat len)), Nat2Pos.id by done. lia.
Qed.

Lemma calculate_ratio_full (n : nat) : (calculate_ratio n (n + n) == 1)%Q.
Proof.
  unfold calculate_ratio. case_decide as Hl; [done|].
  unfold Qeq. simpl.
  rewrite <-(positive_nat_Z (Pos.of_nat (n + n))), Nat2Pos.id by done. lia.
Qed.

Lemma ratio_range (a b : list A) : (0 <= ratio a b)%Q ∧ (ratio a b <= 1)%Q.
Proof.
  apply calculate_ratio_range. pose proof (matches_le a b). lia.
Qed.
End ratio.

Section reflexive.
Context {A : Type} `{Countable A}.
Variables (a : list A) (b2j : gmap A (list nat)).
Hypothesis Hidx : indexes a b2j.

Lemma run_len_le i : run_len a b2j i ≤ i.
Proof. induction i as [|i IH]; simpl; [done|]. destruct (kept_at a b2j i); lia. Qed.

Lemma row_lookup i bhi j2len js new best j :
  (∀ j', j' ∈ js → j' < bhi) →
  (row i 0 bhi j2len js new best).1 !! j
  = if decide (j ∈ js) then Some (j2lenget j2len j + 1) else new !! j.
Proof.
  revert new best. induction js as [|j0 js IH]; intros new best Hjs; cbn [row].
  { rewrite decide_False by apply not_elem_of_nil. done. }
  rewrite decide_False by lia.
  rewrite decide_False by (specialize (Hjs j0 ltac:(left)); lia).
  rewrite IH by (intros; apply Hjs; by right).
  destruct (decide (j ∈ js)) as [Hin|Hin].
  - rewrite decide_True by (by right). done.
  - rewrite lookup_insert. destruct (decide (j0 = j)) as [->|Hne].
    + rewrite decide_True by left. done.
    + rewrite decide_False; [done|]. rewrite elem_of_cons. intros [?|?]; auto.
Qed.

Lemma row_app i j2len l1 l2 new best :
  (∀ j, j ∈ l1 → j < length a) →
  row i 0 (length a) j2len (l1 ++ l2) new best
  = row i 0 (length a) j2len l2 (row i 0 (length a) j2len l1 new best).1
      (row i 0 (length a) j2len l1 new best).2.
Proof.
  revert new best. induction l1 as [|j l1 IH]; intros new best Hl; [done|].
  rewrite <-app_comm_cons. cbn [row].
  destruct (decide (j < 0)); [lia|].
  destruct (decide (length a ≤ j)); [specialize (Hl j ltac:(left)); lia|].
  apply IH. intros. apply Hl. by right.
Qed.

Lemma row_best_keep i blo bhi j2len l new best :
  (∀ j, j ∈ l → j2lenget j2len j + 1 ≤ best.2) →
  (row i blo bhi j2len l new best).2 = best.
Proof.
  revert new. induction l as [|j l IH]; intros new Hl; cbn [row]; [done|].
  case_decide; [apply IH; intros; apply Hl; by right|].
  case_decide; [done|].
  rewrite decide_False by (specialize (Hl j ltac:(left)); lia).
  apply IH. intros. apply Hl. by right.
Qed.

Lemma run_len_S_kept j x js :
  b2j !! x = Some js → a !! j = Some x → run_len a b2j (S j) = S (run_len a b2j j).
Proof.
  intros Hx Hj. simpl. unfold kept_at. rewrite Hj.
  by rewrite bool_decide_eq_true_2.
Qed.

(** One row of the table when [a] is compared with itself: the best
    block stays on the diagonal. *)
Lemma diag_row i j2len best :
  i < length a →
  diag_j2len a b2j i j2len → diag_best a b2j i best →
  let js := match a !! i with
            | Some x => b2j_get b2j x
            | None => []
            end in
  diag_j2len a b2j (S i) (row i 0 (length a) j2len js ∅ best).1
  ∧ diag_best a b2j (S i) (row i 0 (length a) j2len js ∅ best).2.
Proof.
  intros Hi [Hj2 Hji] (Hb1 & Hb2 & Hb3).
  destruct (lookup_lt_is_Some_2 a i Hi) as [x Hx]. rewrite Hx. simpl.
  unfold b2j_get. destruct (b2j !! x) as [js|] eqn:Hjs; simpl.
  2:{ assert (run_len a b2j (S i) = 0) as Hr.
      { simpl. unfold kept_at. rewrite Hx, bool_decide_eq_false_2; [done|].
        rewrite Hjs. by intros [? ?]. }
      split; [split|split_and!]; rewrite ?Hr; try done.
      - intros [|j]; simpl; rewrite ?lookup_empty; simpl; lia.
      - lia.
      - intros i' Hi'. destruct (decide (i' = S i)) as [->|]; [lia|].
        apply Hb3. lia. }
  destruct (Hidx x js Hjs) as [Hsorted Hmem].
  assert (∀ j, j ∈ js → j < length a) as Hlt.
  { intros j Hj. apply Hmem in Hj. by apply lookup_lt_Some in Hj. }
  pose proof (run_len_S_kept i x js Hjs Hx) as Hri.
  assert (∀ j, j ∈ js →
            j2lenget j2len j + 1 ≤ run_len a b2j (S i)
            ∧ j2lenget j2len j + 1 ≤ run_len a b2j (S j)) as Hk.
  { intros j Hj. apply Hmem in Hj.
    rewrite Hri, (run_len_S_kept j x js Hjs Hj).
    destruct (Hj2 j). lia. }
  split.
  - split.
    + intros [|j]; simpl; [lia|].
      rewrite row_lookup, lookup_empty by done.
      case_decide as Hin; simpl; [|lia]. apply Hk in Hin.
      simpl in Hin. simpl. lia.
    + simpl j2lenget. rewrite row_lookup, lookup_empty by done.
      rewrite decide_True by (by apply Hmem). simpl.
      rewrite Hji. unfold kept_at. rewrite Hx, bool_decide_eq_true_2 by eauto.
      lia.
  - assert (i ∈ js) as Hin by (by apply Hmem).
    apply list_elem_of_split in Hin as (l1 & l2 & ->).
    apply StronglySorted_app in Hsorted as (Hlr & _ & Hs2).
    apply StronglySorted_cons in Hs2 as [Hgt _].
    rewrite Forall_forall in Hgt.
    rewrite row_app by (intros; apply Hlt, elem_of_app; auto).
    rewrite (row_best_keep i 0 (length a) j2len l1 ∅ best).
    2:{ intros j Hj. specialize (Hlr j i Hj ltac:(left)).
        destruct (Hk j) as [_ Hkj]; [apply elem_of_app; auto|].
        specialize (Hb3 (S j) ltac:(lia)). lia. }
    cbn [row]. rewrite decide_False by lia.
    rewrite decide_False by lia.
    rewrite row_best_keep.
    2:{ intros j Hj. destruct (Hk j) as [Hkj _].
        { rewrite elem_of_app, elem_of_cons. auto. }
        case_decide; cbn [fst snd]; lia. }
    rewrite Hji. replace (run_len a b2j i + 1) with (run_len a b2j (S i)) by lia.
    pose proof (run_len_le (S i)).
    case_decide as Hlt'; unfold diag_best; cbn [fst snd].
    + split_and!; [done|lia|]. intros i' Hi'.
      destruct (decide (i' = S i)) as [->|]; [lia|].
      specialize (Hb3 i' ltac:(lia)). lia.
    + split_and!; [done|lia|]. intros i' Hi'.
      destruct (decide (i' = S i)) as [->|]; [lia|].
      apply Hb3. lia.
Qed.

Lemma diag_rows n i j2len best :
  i + n ≤ length a →
  diag_j2len a b2j i j2len → diag_best a b2j i best →
  diag_best a b2j (i + n) (rows a b2j n i 0 (length a) j2len best).2.
Proof.
  revert i j2len best. induction n as [|n IH]; intros i j2len best Hn Hj Hb.
  { simpl. by rewrite Nat.add_0_r. }
  simpl.
  pose proof (diag_row i j2len best ltac:(lia) Hj Hb) as Hr. simpl in Hr.
  destruct (row i 0 (length a) j2len _ ∅ best) as [new best'].
  destruct Hr as [Hj' Hb']. replace (i + S n) with (S i + n) by lia.
  apply IH; [lia|done..].
Qed.

Lemma extend_back_diag p s :
  p ≤ length a → extend_back a a 0 0 p p s = (0, 0, p + s).
Proof.
  revert s. induction p as [|p IH]; intros s Hp; simpl; [done|].
  unfold elt_eq. destruct (lookup_lt_is_Some_2 a p ltac:(lia)) as [x ->].
  rewrite bool_decide_eq_true_2 by done. simpl.
  rewrite IH by lia. f_equal. lia.
Qed.

Lemma extend_fwd_diag m k :
  k + m = length a → extend_fwd a a m (length a) (length a) 0 0 k
                     = (0, 0, length a).
Proof.
  revert k. induction m as [|m IH]; intros k Hk; simpl.
  { f_equal. lia. }
  rewrite bool_decide_eq_true_2 by lia. simpl.
  unfold elt_eq. destruct (lookup_lt_is_Some_2 a k ltac:(lia)) as [x ->].
  rewrite bool_decide_eq_true_2 by done. apply IH. lia.
Qed.

(** Compared with itself, a sequence is one block. *)
Lemma find_longest_match_diag :
  find_longest_match a a b2j 0 (length a) 0 (length a) = (0, 0, length a).
Proof.
  unfold find_longest_match.
  pose proof (diag_rows (length a - 0) 0 ∅ (0, 0, 0)) as Hr.
  destruct (rows a b2j (length a - 0) 0 0 (length a) ∅ (0, 0, 0))
    as [j2len [[p q] s]].
  destruct Hr as (Hpq & Hps & _).
  { lia. }
  { split; [|done]. intros [|j]; simpl; rewrite ?lookup_empty; simpl; lia. }
  { split_and!; simpl; [done|lia|]. intros i' Hi'.
    replace i' with 0 by lia. done. }
  simpl in *. subst q.
  rewrite extend_back_diag by lia.
  replace (length a - (0 + (p + s))) with (length a - (p + s)) by lia.
  apply extend_fwd_diag. lia.
Qed.
End reflexive.

Section chain.
Context {A : Type} `{Countable A}.

Lemma indexes_all_snoc (pre : list A) b2j elt :
  indexes_all pre b2j →
  indexes_all (pre ++ [elt])
    (<[elt := b2j_get b2j elt ++ [length pre]]> b2j).
Proof.
  intros Hall x. destruct (Hall x) as [Hs Hm].
  unfold b2j_get at 1 3. rewrite lookup_insert.
  destruct (decide (elt = x)) as [->|Hne]; simpl.
  - split.
    + apply StronglySorted_app_2; [|done|repeat constructor].
      intros j1 j2 Hj1%Hm%lookup_lt_Some ->%list_elem_of_singleton. done.
    + intros j. rewrite elem_of_app, list_elem_of_singleton, Hm.
      destruct (decide (j < length pre)) as [Hlt|Hge].
      * rewrite lookup_app_l by done. split; [intros [?|?]; [done|lia]|auto].
      * rewrite lookup_app_r by lia. split.
        -- intros [Hj%lookup_lt_Some| ->]; [lia|]. by rewrite Nat.sub_diag.
        -- intros Hj. right. apply lookup_lt_Some in Hj. simpl in Hj. lia.
  - fold (b2j_get b2j x). split; [done|]. intros j. rewrite Hm.
    destruct (decide (j < length pre)) as [Hlt|Hge].
    + by rewrite lookup_app_l.
    + rewrite lookup_app_r by lia. split.
      * intros Hj%lookup_lt_Some. lia.
      * destruct (j - length pre) as [|k]; simpl; [congruence|].
        by rewrite lookup_nil.
Qed.

Lemma chain_loop_indexes_all (b pre : list A) b2j :
  indexes_all pre b2j →
  indexes_all (pre ++ b) (chain_loop b (length pre) b2j).
Proof.
  revert pre b2j. induction b as [|elt b IH]; intros pre b2j Hall; simpl.
  { by rewrite app_nil_r. }
  rewrite (cons_middle elt pre b), app_assoc.
  replace (S (length pre)) with (length (pre ++ [elt]))
    by (rewrite length_app; simpl; lia).
  apply IH. by apply indexes_all_snoc.
Qed.

Lemma chain_b_indexes (b : list A) : indexes b (chain_b b).
Proof.
  pose proof (chain_loop_indexes_all b [] ∅) as Hall. simpl in Hall.
  assert (∀ x js, chain_loop b 0 ∅ !! x = Some js →
            StronglySorted lt js ∧ ∀ j, j ∈ js ↔ b !! j = Some x) as Hi.
  { intros x js Hx. destruct Hall with x as [Hs Hm].
    - intros y. unfold b2j_get. rewrite lookup_empty. simpl.
      split; [constructor|]. intros j. rewrite lookup_nil.
      split; [by intros ?%elem_of_nil|done].
    - unfold b2j_get in *. rewrite Hx in *. done. }
  unfold chain_b. case_decide; [|done].
  intros x js [Hx _]%map_lookup_filter_Some. by apply Hi.
Qed.

(** A sequence compared with itself: the only block is the whole
    sequence, also when popular elements were purged from [b2j]. *)
Lemma matches_refl (a : list A) : matches a a = length a.
Proof.
  unfold matches, get_matching_blocks.
  replace (2 * length a + 1) with (S (2 * length a)) by lia.
  cbn [matching_loop].
  rewrite (find_longest_match_diag a (chain_b a) (chain_b_indexes a)).
  case_decide as Hn.
  - rewrite Hn. destruct (2 * 0); reflexivity.
  - rewrite !andb_false_intro1 by (apply bool_decide_eq_false; lia).
    destruct (2 * length a); cbn [matching_loop app];
      change (merge_sort Match_le [(0, 0, length a)]) with [(0, 0, length a)];
      simpl; rewrite decide_False by done; simpl; lia.
Qed.

Lemma ratio_refl (a : list A) : (ratio a a == 1)%Q.
Proof. unfold ratio. rewrite matches_refl. apply calculate_ratio_full. Qed.

(** The iterations [get_matching_blocks] allows its loop are enough: the
    loop stops on the empty queue, as the [while queue] of the library. *)
Lemma get_matching_blocks_complete (a b : list A) :
  (matching_loop a b (chain_b b) (2 * length a + 1)
     [(0, length a, 0, length b)] []).1 = [].
Proof.
  apply matching_loop_fuel.
  - repeat constructor; simpl; lia.
  - simpl. unfold range_cost. simpl. lia.
Qed.
End chain.

(** The examples of the library's documentation. *)
Example find_longest_match_doc :
  find_longest_match (list_ascii_of_string " abcd")
    (list_ascii_of_string "abcd abcd")
    (chain_b (list_ascii_of_string "abcd abcd")) 0 5 0 9
  = (0, 4, 5).
Proof. vm_compute. reflexivity. Qed.

Example get_matching_blocks_doc :
  get_matching_blocks (list_ascii_of_string "abxcd")
    (list_ascii_of_string "abcd")
  = [(0, 0, 2); (3, 2, 2); (5, 4, 0)].
Proof. vm_compute. reflexivity. Qed.

Example ratio_doc :
  (ratio (list_ascii_of_string "abcd") (list_ascii_of_string "bcde")
   == 75 # 100)%Q.
Proof. vm_compute. reflexivity. Qed.
End DifflibFacts.

(** ** [similar] *)

(** C4: [similar] returns exactly 0 when either argument is [None], and so a
    record without a translation into the comparison language is scored 0;
    [similar] is a total function, no call raises. *)
Theorem similar_absent (a b : option string) (e : DictEntry) (lang : string) :
  (a = None ∨ b = None → similar a b = 0%Q)
  ∧ (translations e !! lang = None →
     similar (Some (word e)) (translations e !! lang) = 0%Q).
Proof.
  split.
  - intros [-> | ->]; [done|by destruct a].
  - by intros ->.
Qed.

Lemma similar_absent_witness :
  similar None (Some "buss") = 0%Q
  ∧ similar (Some "bussa")
      (translations (mkDictEntry "bussa" "Noun" ∅) !! "swe") = 0%Q.
Proof.
  split.
  - apply (proj1 (similar_absent None (Some "buss") DictEntry_new "swe")).
    left. reflexivity.
  - apply (proj2 (similar_absent None None (mkDictEntry "bussa" "Noun" ∅) "swe")).
    reflexivity.
Defined.

(** C5 as the code has it: every result of [similar] lies in [[0, 1]], and
    a string compared with itself scores 1 (the empty string included).
    The score does depend on the order of the arguments. *)
Theorem similar_range_reflexive (a b : option string) (s : string) :
  (0 <= similar a b)%Q ∧ (similar a b <= 1)%Q
  ∧ (similar (Some s) (Some s) == 1)%Q.
Proof.
  split_and!.
  - destruct a, b; simpl; try done. apply DifflibFacts.ratio_range.
  - destruct a, b; simpl; try done. apply DifflibFacts.ratio_range.
  - apply DifflibFacts.ratio_refl.
Qed.

(** The pair of the word list: about 0.89, a match at 0.7 but not at 0.95. *)
Example similar_bussa_buss :
  (similar (Some "bussa") (Some "buss") == 8 # 9)%Q.
Proof. vm_compute. reflexivity. Qed.

(** C5 fails as stated: [similar] is not symmetric. *)
Lemma similar_not_symmetric :
  (similar (Some "tide") (Some "diet") == 1 # 4)%Q
  ∧ (similar (Some "diet") (Some "tide") == 1 # 2)%Q
  ∧ ¬ (similar (Some "tide") (Some "diet")
       == similar (Some "diet") (Some "tide"))%Q.
Proof. split_and!; vm_compute; congruence. Qed.

(** ** [DictEntry] *)

(** C9: two [DictEntry] records compare equal exactly when their [word]
    fields are equal; part of speech and translations play no role. *)
Theorem DictEntry_eq_word_only (x y : DictEntry) :
  (DictEntry_eq x y = true ↔ word x = word y)
  ∧ (DictEntry_eq x y = false ↔ word x ≠ word y)
  ∧ DictEntry_eq x (mkDictEntry (word x) (pos y) (translations y)) = true.
Proof.
  unfold DictEntry_eq. split_and!.
  - apply bool_decide_eq_true.
  - apply bool_decide_eq_false.
  - by apply bool_decide_eq_true.
Qed.


(** ** The HTML readers *)

Module PiteFacts.
Import PiteWordlistReader.

Lemma pop_take {A} (l : list A) :
  l ≠ [] → pop l = Ok (take (length l - 1) l).
Proof.
  intros Hl. unfold pop. destruct l as [|x l]; [done|]. f_equal.
  clear Hl. revert x. induction l as [|y l IH]; intros x; [done|].
  change (removelast (x :: y :: l)) with (x :: removelast (y :: l)).
  rewrite IH. simpl. by rewrite Nat.sub_0_r.
Qed.

Lemma normalize_pos_range data :
  normalize_pos data
  ∈ ["Proper noun"; "Other"; "Noun"; "Verb"; "Conjunction"; "Adjective";
     "Adverb"; "Numeral"].
Proof.
  unfold normalize_pos. case_bool_decide; [set_solver|].
  destruct (swedish_parts_of_speech !! _) as [v|] eqn:E; simpl; [|set_solver].
  apply elem_of_list_to_map_2 in E.
  repeat (apply elem_of_cons in E as [E|E]; [injection E as _ ->; set_solver|]).
  by apply elem_of_nil in E.
Qed.

Lemma HTMLParser_feed_idle data :
  no_entry_block data → HTMLParser_feed init data = Ok init.
Proof.
  induction data as [|ev data IH]; intros Hn; [done|].
  assert (handle init ev = Ok init) as Hev.
  { destruct ev as [tag attrs|d|tag]; simpl; [|done|].
    - unfold handle_starttag. f_equal.
      destruct (bool_decide _ && bool_decide _) eqn:E; [|done].
      apply andb_true_iff in E as [E1%bool_decide_eq_true E2%bool_decide_eq_true].
      destruct (Hn tag attrs); [left|done].
    - unfold handle_endtag. by case_bool_decide. }
  simpl. rewrite Hev. simpl. apply IH.
  intros tag attrs Hin. apply Hn. by right.
Qed.
End PiteFacts.

(** C7: [feed] returns what the traversal accumulated without its last
    record: of [n >= 1] accumulated records the first [n - 1], in order.
    On the two-entry fixture these are the two entries that precede the
    trailing one, the parts of speech translated by the Swedish table with
    "Other" where the table has no entry; the normalised part of speech is
    always "Proper noun", "Other" or a value of that table. *)
Theorem feed_discards_last (self self' : PiteWordlistReader.t)
    (data : list html_event) (n : nat) :
  (PiteWordlistReader.HTMLParser_feed self data = Ok self' →
   length (PiteWordlistReader.entries self') = n → 1 ≤ n →
   let es := take (n - 1) (PiteWordlistReader.entries self') in
   PiteWordlistReader.feed self data
   = Ok (PiteWordlistReader.with_entries es self', es)
   ∧ length es = n - 1)
  ∧ (∃ s, PiteWordlistReader.feed PiteWordlistReader.init two_entry_fixture
          = Ok (s, two_entry_expected))
  ∧ (∀ d, PiteWordlistReader.normalize_pos d
          ∈ ["Proper noun"; "Other"; "Noun"; "Verb"; "Conjunction";
             "Adjective"; "Adverb"; "Numeral"]).
Proof.
  split_and!.
  - intros Hf Hn Hge. unfold PiteWordlistReader.feed. rewrite Hf. simpl.
    rewrite PiteFacts.pop_take by (intros E; rewrite E in Hn; simpl in Hn; lia).
    rewrite Hn. simpl. split; [done|]. rewrite length_take. lia.
  - eexists. vm_compute. reflexivity.
  - apply PiteFacts.normalize_pos_range.
Qed.

Lemma feed_discards_last_witness :
  PiteWordlistReader.feed PiteWordlistReader.init two_entry_fixture
  = Ok (PiteWordlistReader.with_entries
          (take (3 - 1) (PiteWordlistReader.entries two_entry_parsed))
          two_entry_parsed,
        take (3 - 1) (PiteWordlistReader.entries two_entry_parsed))
  ∧ length (take (3 - 1) (PiteWordlistReader.entries two_entry_parsed)) = 3 - 1.
Proof.
  apply (proj1 (feed_discards_last PiteWordlistReader.init two_entry_parsed
                  two_entry_fixture 3)).
  - vm_compute. reflexivity.
  - reflexivity.
  - lia.
Defined.

(** C8, as the code behaves: on a document in which no start tag opens an
    entry block nothing is accumulated, and [feed] does not return: the
    final [self.entries.pop()] raises [IndexError]. *)
Theorem feed_raises_without_entry_block (data : list html_event) :
  no_entry_block data →
  PiteWordlistReader.feed PiteWordlistReader.init data = Raise IndexError.
Proof.
  intros Hn. unfold PiteWordlistReader.feed.
  by rewrite PiteFacts.HTMLParser_feed_idle.
Qed.

Lemma feed_raises_without_entry_block_witness :
  PiteWordlistReader.feed PiteWordlistReader.init
    [StartTag "html" []; StartTag "p" []; Data "no word list here";
     EndTag "p"; EndTag "html"]
  = Raise IndexError.
Proof.
  apply feed_raises_without_entry_block.
  intros tag attrs Hin [Htag Hattrs].
  repeat (apply elem_of_cons in Hin as [Hin|Hin];
          [try discriminate Hin; injection Hin as -> ->;
           by apply elem_of_nil in Hattrs|]).
  by apply elem_of_nil in Hin.
Defined.

(** [handle_data] raises as well when the text after a language label
    arrives before any entry was appended. *)
Example handle_data_raises_before_first_entry :
  PiteWordlistReader.HTMLParser_feed PiteWordlistReader.init
    [StartTag "p" [("class", Some "menu1")]; Data "Engl."; EndTag "p";
     StartTag "p" [("class", Some "menu1")]; Data "word"]
  = Raise IndexError.
Proof. vm_compute. reflexivity. Qed.

Module LuleFacts.
Import LuleDictReader.

Lemma update_last_app {A} (f : A → A) (l0 l : list A) :
  l ≠ [] →
  ∃ l', l' ≠ [] ∧ update_last f l = Ok l'
        ∧ update_last f (l0 ++ l) = Ok (l0 ++ l').
Proof.
  intros Hl.
  assert (∃ l', l' ≠ [] ∧ update_last f l = Ok l') as (l' & Hl' & E).
  { induction l as [|x l IH]; [done|]. destruct l as [|y l].
    - by exists [f x].
    - destruct IH as (l' & Hl' & E); [done|]. exists (x :: l').
      split; [done|]. change (update_last f (x :: y :: l))
        with (match update_last f (y :: l) with
              | Ok r => Ok (x :: r) | Raise e => Raise e end).
      by rewrite E. }
  exists l'. split_and!; [done..|].
  induction l0 as [|x l0 IH]; [done|].
  destruct (l0 ++ l) as [|y r] eqn:Er.
  { by destruct l0, l. }
  change (update_last f ((x :: l0) ++ l))
    with (update_last f (x :: (l0 ++ l))). rewrite Er.
  change (update_last f (x :: y :: r))
    with (match update_last f (y :: r) with
          | Ok r => Ok (x :: r) | Raise e => Raise e end).
  by rewrite IH.
Qed.

Lemma handle_starttag_spec (self : t) tag attrs :
  let row := bool_decide (tag = "tr") && existsb is_row_class attrs in
  ∃ self',
    (∀ es, handle_starttag (es, self) tag attrs
           = (if row then es ++ [DictEntry_new] else es, self'))
    ∧ reading_entry self' = row || reading_entry self.
Proof.
  intros row. unfold handle_starttag. fold row.
  destruct self as [r t s]. destruct row; simpl.
  - eexists. split; [intros es; reflexivity|].
    repeat (match goal with
            | |- context [if ?b then _ else _] => destruct b; simpl
            end); done.
  - eexists. split; [intros es; reflexivity|].
    repeat (match goal with
            | |- context [if ?b then _ else _] => destruct b; simpl
            end); done.
Qed.

Ltac sim_same :=
  eexists _, _; split_and!;
  [reflexivity|simpl; intros; try done; try congruence; auto
  |rewrite ?app_nil_r; reflexivity].

Section simulation.
Variable entries0 : cls.
Hypothesis last_word : ∀ e, last entries0 = Some e → word e ≠ "".

(** One handler call on a reader that found [entries0] in the class's
    list does to the list what it does when started from the empty
    list, behind [entries0]. *)
Lemma handle_sim new self ev :
  reading_inv (new, self) →
  ∃ new' self',
    handle (new, self) ev = Ok (new', self')
    ∧ reading_inv (new', self')
    ∧ handle (entries0 ++ new, self) ev = Ok (entries0 ++ new', self').
Proof.
  unfold reading_inv. simpl. intros Hinv.
  destruct ev as [tag attrs|data|tag]; [cbn [handle]|simpl..].
  - destruct (handle_starttag_spec self tag attrs) as (self' & E & Hr).
    rewrite !E. eexists _, self'. split_and!; [done| |].
    + simpl. rewrite Hr. destruct (bool_decide _ && _); simpl; [|done].
      intros _. by destruct new.
    + destruct (bool_decide _ && _); [|done]. by rewrite <-app_assoc.
  - destruct (reading_entry self) eqn:Hr; [|sim_same].
    specialize (Hinv eq_refl).
    destruct (bool_decide (td_num self = 1) && bool_decide (spans_seen self = 1)).
    + destruct (update_last_app
                  (set_word (Py.strip (Py.split0 " " data))) entries0 new Hinv)
        as (new1 & Hn1 & -> & ->). simpl.
      destruct (bool_decide (td_num self = 2) && bool_decide (spans_seen self = 1));
        [|sim_same].
      case_bool_decide; [sim_same|].
      destruct (update_last_app
                  (set_translation "nor"
                     (Py.strip (Py.split0 "(" (Py.split0 ";" (Py.split0 "," data)))))
                  entries0 new1 Hn1) as (new2 & Hn2 & -> & ->). simpl.
      sim_same.
    + simpl.
      destruct (bool_decide (td_num self = 2) && bool_decide (spans_seen self = 1));
        [|sim_same].
      case_bool_decide; [sim_same|].
      destruct (update_last_app
                  (set_translation "nor"
                     (Py.strip (Py.split0 "(" (Py.split0 ";" (Py.split0 "," data)))))
                  entries0 new Hinv) as (new2 & Hn2 & -> & ->). simpl.
      sim_same.
  - case_bool_decide as Htr.
    + assert (tag ≠ "td") as Htd by (subst tag; done).
      rewrite (bool_decide_eq_false_2 _ Htd).
      destruct (decide (new = [])) as [->|Hnew].
      * rewrite app_nil_r. simpl.
        destruct (last entries0) as [e|] eqn:El; [|sim_same].
        rewrite bool_decide_eq_false_2 by (by apply last_word). sim_same.
      * assert (last (entries0 ++ new) = last new) as ->.
        { rewrite last_app. destruct (last new) eqn:El; [done|].
          by apply last_None in El. }
        destruct (last new) as [e|] eqn:El; [|sim_same].
        case_bool_decide; [|sim_same].
        eexists _, _. split_and!; [reflexivity|done|].
        by rewrite removelast_app.
    + case_bool_decide; sim_same.
Qed.

Lemma feed_sim data new self :
  reading_inv (new, self) →
  ∃ new' self',
    feed (new, self) data = Ok (new', self')
    ∧ reading_inv (new', self')
    ∧ feed (entries0 ++ new, self) data = Ok (entries0 ++ new', self').
Proof.
  revert new self. induction data as [|ev data IH]; intros new self Hinv.
  { by eexists _, _. }
  destruct (handle_sim new self ev Hinv) as (new1 & self1 & E1 & Hinv1 & E2).
  destruct (IH new1 self1 Hinv1) as (new2 & self2 & E3 & Hinv2 & E4).
  exists new2, self2. simpl in *. rewrite E1, E2. simpl. done.
Qed.

Lemma read_loop_sim pages new self :
  reading_inv (new, self) →
  ∃ new' self',
    read_loop (new, self) pages = Ok (new', self')
    ∧ reading_inv (new', self')
    ∧ read_loop (entries0 ++ new, self) pages = Ok (entries0 ++ new', self').
Proof.
  revert new self. induction pages as [|page pages IH]; intros new self Hinv.
  { by eexists _, _. }
  destruct (feed_sim page new self Hinv) as (new1 & self1 & E1 & Hinv1 & E2).
  destruct (IH new1 self1 Hinv1) as (new2 & self2 & E3 & Hinv2 & E4).
  exists new2, self2. simpl in *. rewrite E1, E2. simpl. done.
Qed.
End simulation.
End LuleFacts.

(** C10 as the code has it: the records a reader yields are appended to
    whatever the class's list already holds.  When the last record left
    there has a non-empty word, [feed] and [read] of a newly constructed
    reader end with the old records followed by exactly the records the
    same documents yield from an empty list, so [n + m] records. *)
Theorem LuleDictReader_entries_shared (entries0 : LuleDictReader.cls)
    (data : list html_event) (pages : list (list html_event)) :
  (∀ e, last entries0 = Some e → word e ≠ "") →
  (∃ new self',
     LuleDictReader.feed (LuleDictReader.cls_init, LuleDictReader.init) data
     = Ok (new, self')
     ∧ LuleDictReader.feed (entries0, LuleDictReader.init) data
       = Ok (entries0 ++ new, self'))
  ∧ (∃ new self',
       LuleDictReader.read (LuleDictReader.cls_init, LuleDictReader.init) pages
       = Ok ((new, self'), new)
       ∧ LuleDictReader.read (entries0, LuleDictReader.init) pages
         = Ok ((entries0 ++ new, self'), entries0 ++ new)
       ∧ length (entries0 ++ new) = length entries0 + length new).
Proof.
  intros Hlast. split.
  - destruct (LuleFacts.feed_sim entries0 Hlast data [] LuleDictReader.init)
      as (new & self' & E1 & _ & E2); [done|].
    exists new, self'. rewrite app_nil_r in E2. done.
  - destruct (LuleFacts.read_loop_sim entries0 Hlast pages [] LuleDictReader.init)
      as (new & self' & E1 & _ & E2); [done|].
    exists new, self'. rewrite app_nil_r in E2.
    unfold LuleDictReader.read, LuleDictReader.cls_init, LuleDictReader.cls in *.
    rewrite E1, E2. simpl. by rewrite length_app.
Qed.

Lemma LuleDictReader_entries_shared_witness :
  (∃ new self',
     LuleDictReader.feed (LuleDictReader.cls_init, LuleDictReader.init) lule_page
     = Ok (new, self')
     ∧ LuleDictReader.feed ([biila], LuleDictReader.init) lule_page
       = Ok ([biila] ++ new, self'))
  ∧ (∃ new self',
       LuleDictReader.read (LuleDictReader.cls_init, LuleDictReader.init)
         [lule_page]
       = Ok ((new, self'), new)
       ∧ LuleDictReader.read ([biila], LuleDictReader.init) [lule_page]
         = Ok (([biila] ++ new, self'), [biila] ++ new)
       ∧ length ([biila] ++ new) = length [biila] + length new).
Proof.
  apply (LuleDictReader_entries_shared [biila] lule_page [lule_page]).
  intros e He. injection He as <-. discriminate.
Defined.

(** C10 fails as stated: a first reader whose document ends inside a row
    leaves one record with an empty word; a second reader fed a lone
    [</tr>], which yields no row, pops it and returns no record at all,
    not the one record followed by none. *)
Lemma LuleDictReader_second_reader_pops :
  LuleDictReader.read (LuleDictReader.cls_init, LuleDictReader.init)
    [[StartTag "tr" [("class", Some "normalRow")]]]
  = Ok (([DictEntry_new], LuleDictReader.mk true 0 0), [DictEntry_new])
  ∧ LuleDictReader.read (LuleDictReader.cls_init, LuleDictReader.init)
      [[EndTag "tr"]]
    = Ok (([], LuleDictReader.mk false 0 0), [])
  ∧ LuleDictReader.read ([DictEntry_new], LuleDictReader.init) [[EndTag "tr"]]
    = Ok (([], LuleDictReader.mk false 0 0), [])
  ∧ LuleDictReader.read ([DictEntry_new], LuleDictReader.init) [[EndTag "tr"]]
    ≠ Ok (([DictEntry_new] ++ [], LuleDictReader.mk false 0 0),
          [DictEntry_new] ++ []).
Proof. split_and!; [reflexivity..|discriminate]. Qed.

Example lule_page_entries :
  LuleDictReader.read (LuleDictReader.cls_init, LuleDictReader.init) [lule_page]
  = Ok (([mkDictEntry "girjje" "" {["nor" := "bok"]}],
         LuleDictReader.mk false 0 0),
        [mkDictEntry "girjje" "" {["nor" := "bok"]}]).
Proof. vm_compute. reflexivity. Qed.

(** ** The flat-text word list *)

Module CodecFacts.

Lemma append_nil (s : string) : "" +:+ s = s.
Proof. reflexivity. Qed.

Lemma append_cons x (s1 s2 : string) :
  String x s1 +:+ s2 = String x (s1 +:+ s2).
Proof. reflexivity. Qed.

Lemma append_assoc (s1 s2 s3 : string) :
  (s1 +:+ s2) +:+ s3 = s1 +:+ (s2 +:+ s3).
Proof.
  induction s1 as [|x s1 IH]; [done|]. rewrite !append_cons. by f_equal.
Qed.

Lemma contains_String c x s :
  Py.contains c (String x s) ↔ c = x ∨ Py.contains c s.
Proof. unfold Py.contains. simpl. apply elem_of_cons. Qed.

Lemma contains_empty c : ¬ Py.contains c "".
Proof. apply not_elem_of_nil. Qed.

Lemma contains_app c s1 s2 :
  Py.contains c (s1 +:+ s2) ↔ Py.contains c s1 ∨ Py.contains c s2.
Proof.
  induction s1 as [|x s1 IH].
  - rewrite append_nil. pose proof (contains_empty c). tauto.
  - rewrite append_cons, !contains_String, IH. tauto.
Qed.

Lemma readlines_line s rest :
  ¬ Py.contains Py.nl s →
  Py.readlines (s +:+ String Py.nl rest)
  = (s +:+ String Py.nl "") :: Py.readlines rest.
Proof.
  induction s as [|x s IH]; intros Hs.
  - reflexivity.
  - rewrite contains_String in Hs. rewrite !append_cons.
    change (Py.readlines (String x (s +:+ String Py.nl rest)))
      with (if decide (x = Py.nl)
            then String x "" :: Py.readlines (s +:+ String Py.nl rest)
            else match Py.readlines (s +:+ String Py.nl rest) with
                 | h :: t => String x h :: t
                 | [] => [String x ""]
                 end).
    rewrite decide_False by (intros ->; tauto).
    rewrite IH by tauto. done.
Qed.

Lemma drop_last_snoc s c : Py.drop_last (s +:+ String c "") = s.
Proof.
  induction s as [|x s IH]; [done|]. rewrite append_cons.
  change (Py.drop_last (String x (s +:+ String c "")))
    with (match s +:+ String c "" with
          | "" => ""
          | _ => String x (Py.drop_last (s +:+ String c ""))
          end).
  rewrite IH. by destruct s.
Qed.

Lemma split_max_0 sep s : Py.split_max sep 0 s = [s].
Proof. by destruct s. Qed.

Lemma split_max_field sep n s rest :
  ¬ Py.contains sep s →
  Py.split_max sep (S n) (s +:+ String sep rest)
  = s :: Py.split_max sep n rest.
Proof.
  induction s as [|x s IH]; intros Hs.
  - rewrite append_nil.
    change (Py.split_max sep (S n) (String sep rest))
      with (if decide (sep = sep) then "" :: Py.split_max sep n rest
            else match Py.split_max sep (S n) rest with
                 | h :: t => String sep h :: t
                 | [] => [String sep ""]
                 end).
    by rewrite decide_True.
  - rewrite contains_String in Hs. rewrite append_cons.
    change (Py.split_max sep (S n) (String x (s +:+ String sep rest)))
      with (if decide (x = sep)
            then "" :: Py.split_max sep n (s +:+ String sep rest)
            else match Py.split_max sep (S n) (s +:+ String sep rest) with
                 | h :: t => String x h :: t
                 | [] => [String x ""]
                 end).
    rewrite decide_False by (intros ->; tauto).
    rewrite IH by tauto. done.
Qed.

(** The line of an entry, cut into its five fields again. *)
Lemma read_line_format_entry e :
  field_ok (word e) → field_ok (pos e) →
  field_ok (translation_or_empty "swe" e) →
  field_ok (translation_or_empty "nor" e) →
  read_line (format_entry e)
  = Ok (store_translation "eng" (translation_or_empty "eng" e)
          (store_translation "nor" (translation_or_empty "nor" e)
             (store_translation "swe" (translation_or_empty "swe" e)
                (set_pos (pos e) (set_word (word e) DictEntry_new))))).
Proof.
  intros [Hw _] [Hp _] [Hs _] [Hn _]. unfold read_line, format_entry.
  rewrite <-!append_assoc, drop_last_snoc, !append_assoc.
  repeat match goal with
         | |- context [";" +:+ ?s] => change (";" +:+ s) with (String ";" s)
         end.
  rewrite !split_max_field, split_max_0 by done. done.
Qed.

Lemma translation_or_empty_ok lang e :
  entry_ok e → field_ok (translation_or_empty lang e).
Proof.
  intros (_ & _ & Ht). unfold translation_or_empty.
  destruct (translations e !! lang) as [v|] eqn:E; simpl; [eauto|].
  split; apply contains_empty.
Qed.

Lemma lookup_store_translation lang s e k :
  translations (store_translation lang s e) !! k
  = if decide (k = lang ∧ s ≠ "") then Some s else translations e !! k.
Proof.
  unfold store_translation. case_bool_decide as Hs.
  - rewrite decide_False by tauto. done.
  - simpl. rewrite lookup_insert.
    repeat case_decide; try done; destruct_and?; subst; tauto.
Qed.

Lemma stored_decoded e :
  store_translation "eng" (translation_or_empty "eng" e)
    (store_translation "nor" (translation_or_empty "nor" e)
       (store_translation "swe" (translation_or_empty "swe" e)
          (set_pos (pos e) (set_word (word e) DictEntry_new))))
  = decoded e.
Proof.
  assert (∀ lang s x, word (store_translation lang s x) = word x) as Hw.
  { intros. unfold store_translation. by case_bool_decide. }
  assert (∀ lang s x, pos (store_translation lang s x) = pos x) as Hp.
  { intros. unfold store_translation. by case_bool_decide. }
  match goal with |- ?l = _ =>
    assert (word l = word e) as Ew by (by rewrite !Hw);
    assert (pos l = pos e) as Ep by (by rewrite !Hp);
    assert (translations l = filter kept (translations e)) as Et;
    [|destruct l; simpl in *; unfold decoded; congruence]
  end.
  apply map_eq. intros k. rewrite !lookup_store_translation. simpl.
  rewrite lookup_empty. unfold translation_or_empty.
  destruct (translations e !! k) as [v|] eqn:Ek.
  - destruct (decide (kept (k, v))) as [Hk|Hk].
    + rewrite (map_lookup_filter_Some_2 _ _ k v Ek Hk).
      destruct Hk as [Hk Hv]. simpl in *.
      repeat (apply elem_of_cons in Hk as [->|Hk]);
        [..|by apply elem_of_nil in Hk];
        rewrite Ek; simpl; repeat case_decide; naive_solver.
    + rewrite map_lookup_filter_None_2 by naive_solver.
      unfold kept in Hk. simpl in Hk.
      repeat case_decide; try done;
        destruct_and?; subst k; rewrite Ek in *; simpl in *;
        exfalso; apply Hk; set_solver.
  - rewrite map_lookup_filter_None_2 by (left; done).
    repeat case_decide; try done;
      destruct_and?; subst k; rewrite Ek in *; simpl in *; done.
Qed.

Lemma decoded_id e :
  (∀ lang v, translations e !! lang = Some v → kept (lang, v)) →
  decoded e = e.
Proof.
  intros Hk. destruct e as [w p t]. unfold decoded. simpl in *. f_equal.
  apply map_eq. intros k. destruct (t !! k) as [v|] eqn:E.
  - apply map_lookup_filter_Some_2; auto.
  - apply map_lookup_filter_None_2. by left.
Qed.

Lemma read_lines_write word_list acc :
  Forall entry_ok word_list →
  read_lines (Py.readlines (writeWordlistFile word_list)) acc
  = Ok (acc ++ map decoded word_list).
Proof.
  intros Hok. revert acc.
  induction Hok as [|e word_list He Hok IH]; intros acc; simpl.
  { by rewrite app_nil_r. }
  assert (∃ body, ¬ Py.contains Py.nl body
                  ∧ format_entry e = body +:+ String Py.nl "")
    as (body & Hbody & Ebody).
  { eexists. split; [|unfold format_entry; rewrite <-!append_assoc; done].
    pose proof (translation_or_empty_ok "swe" e He) as [_ ?].
    pose proof (translation_or_empty_ok "nor" e He) as [_ ?].
    pose proof (translation_or_empty_ok "eng" e He) as [_ ?].
    destruct He as ([_ ?] & [_ ?] & _).
    assert (¬ Py.contains Py.nl ";") as Hsemi.
    { intros Hc%contains_String. destruct Hc as [Hc|Hc%elem_of_nil]; done. }
    rewrite !contains_app. tauto. }
  rewrite Ebody at 1.
  rewrite append_assoc, append_cons, append_nil, readlines_line by done.
  cbn [read_lines].
  rewrite bool_decide_eq_false_2 by (by destruct body).
  rewrite <-Ebody, read_line_format_entry, stored_decoded;
    [|by destruct He as (? & ? & ?)..|by apply translation_or_empty_ok
     |by apply translation_or_empty_ok].
  simpl. rewrite IH, <-app_assoc. done.
Qed.
End CodecFacts.

(** C1 as the code has it: when no field holds the separator or a line end,
    reading back what was written gives, record by record and in order, the
    same word, the same part of speech and the translations of the three
    languages of the format whose value is not empty: an empty or missing
    translation leaves its key absent, other keys are not written.  Records
    whose translations are all of that kind are read back unchanged. *)
Theorem wordlist_round_trip (word_list : list DictEntry) :
  Forall entry_ok word_list →
  readWordlistFile (writeWordlistFile word_list) = Ok (map decoded word_list)
  ∧ (Forall (λ e, map_Forall (λ lang v, kept (lang, v)) (translations e))
       word_list →
     readWordlistFile (writeWordlistFile word_list) = Ok word_list).
Proof.
  intros Hok. unfold readWordlistFile.
  rewrite CodecFacts.read_lines_write by done. simpl. split; [done|].
  intros Hk. f_equal. clear Hok.
  induction Hk as [|e l He Hk IH]; simpl; [done|].
  by rewrite CodecFacts.decoded_id, IH.
Qed.

Lemma wordlist_round_trip_witness :
  readWordlistFile (writeWordlistFile [bussa_full; ahkka_partial])
  = Ok (map decoded [bussa_full; ahkka_partial]).
Proof.
  apply (wordlist_round_trip [bussa_full; ahkka_partial]).
  apply (bool_decide_unpack _). vm_compute. exact I.
Defined.

(** C1 fails as stated.  None of these records has a [";"] in a field.  A
    word with a line end is written as two lines, and reading the first
    raises [IndexError]; a translation recorded as the empty string, and a
    translation into a language the format has no column for, are not read
    back. *)
Lemma wordlist_round_trip_fails :
  readWordlistFile
    (writeWordlistFile [mkDictEntry (String "a" (String Py.nl "b")) "Noun" ∅])
  = Raise IndexError
  ∧ readWordlistFile
      (writeWordlistFile [mkDictEntry "ahkka" "Noun" {["swe" := ""]}])
    = Ok [mkDictEntry "ahkka" "Noun" ∅]
  ∧ readWordlistFile
      (writeWordlistFile [mkDictEntry "ahkka" "Noun" {["swe" := ""]}])
    ≠ Ok [mkDictEntry "ahkka" "Noun" {["swe" := ""]}]
  ∧ readWordlistFile
      (writeWordlistFile [mkDictEntry "ahkka" "Noun" {["fin" := "akka"]}])
    = Ok [mkDictEntry "ahkka" "Noun" ∅].
Proof.
  split_and!; [vm_compute; reflexivity..| |vm_compute; reflexivity].
  intros E. vm_compute in E. discriminate E.
Qed.

(** ** The threshold loop *)

(** *** Facts about the threshold loop *)

Lemma matches_so_far_write d x g :
  matches_so_far d (write x g) = matches_so_far d g.
Proof. by destruct d. Qed.

Lemma f_write x g : f (write x g) = f g ++ [x].
Proof. done. Qed.

Lemma f_append_so_far d e g : f (append_so_far d e g) = f g.
Proof. by destruct d. Qed.

Lemma matches_so_far_append d d' e g :
  matches_so_far d' (append_so_far d e g)
  = if decide (d = d') then matches_so_far d' g ++ [e] else matches_so_far d' g.
Proof. by destruct d, d'. Qed.

Lemma new_words_app d r1 r2 :
  new_words d (r1 ++ r2) = new_words d r1 ++ new_words d r2.
Proof. unfold new_words. apply omap_app. Qed.

Lemma entry_in_false e l :
  entry_in e l = false → word e ∉ map word l.
Proof.
  unfold entry_in. induction l as [|x l IH]; simpl.
  - intros _. apply not_elem_of_nil.
  - intros [Hx Hl]%orb_false_iff. unfold DictEntry_eq in Hx.
    apply bool_decide_eq_false in Hx. rewrite not_elem_of_cons. auto.
Qed.

(** The effect of one loop body, by cases. *)
Lemma match_entry_cases d th g l e :
  match_entry d th (g, l) e = (g, l) ∨
  (is_match d th e = true ∧ entry_in e (matches_so_far d g) = true ∧
   match_entry d th (g, l) e
   = (g, {| pos_counter := count_pos (pos e) (pos_counter l);
            words_matched := words_matched l ++ [matched_item d e];
            new_counter := new_counter l |})) ∨
  (is_match d th e = true ∧ entry_in e (matches_so_far d g) = false ∧
   match_entry d th (g, l) e
   = (write (NewMatch d (word e)
               (default "???" (translations e !! lang_of d)) (pos e)
               (default "???" (translations e !! "eng")))
        (append_so_far d e g),
      {| pos_counter := count_pos (pos e) (pos_counter l);
         words_matched := words_matched l ++ [matched_item d e];
         new_counter := new_counter l + 1 |})).
Proof.
  unfold match_entry. destruct (is_match d th e); [|by left].
  destruct (entry_in e (matches_so_far d g)); simpl; [right; left|right; right]; done.
Qed.

Lemma is_match_pos d th e : is_match d th e = true → pos e ≠ "Proper noun".
Proof.
  unfold is_match. intros [_ Hp]%andb_true_iff.
  by apply negb_true_iff, bool_decide_eq_false in Hp.
Qed.

Lemma match_entry_steps d th g l e :
  rtc step g (match_entry d th (g, l) e).1.
Proof.
  destruct (match_entry_cases d th g l e) as [-> | [(_ & _ & ->) | (Hm & Hin & ->)]];
    simpl; [done..|].
  apply rtc_once, step_new; [done|]. by eapply is_match_pos.
Qed.

Lemma foldl_match_entry_steps d th words g l :
  rtc step g (foldl (match_entry d th) (g, l) words).1.
Proof.
  revert g l. induction words as [|e words IH]; intros g l; cbn [foldl]; [done|].
  destruct (match_entry d th (g, l) e) as [g1 l1] eqn:E.
  etrans; [|apply IH].
  change g1 with (g1, l1).1. rewrite <-E. apply match_entry_steps.
Qed.

Lemma count_pos_ok p counter :
  p ≠ "Proper noun" → counter_ok counter → counter_ok (count_pos p counter).
Proof.
  intros Hp. unfold counter_ok.
  induction 1 as [|[q n] counter Hq Hc IH]; simpl.
  - by repeat constructor.
  - case_bool_decide; constructor; auto.
Qed.

Lemma match_entry_counter_ok d th g l e :
  counter_ok (pos_counter l) →
  counter_ok (pos_counter (match_entry d th (g, l) e).2).
Proof.
  intros Hl.
  destruct (match_entry_cases d th g l e) as [-> | [(Hm & _ & ->) | (Hm & _ & ->)]];
    simpl; [done|..]; apply count_pos_ok; eauto using is_match_pos.
Qed.

Lemma foldl_match_entry_counter_ok d th words g l :
  counter_ok (pos_counter l) →
  counter_ok (pos_counter (foldl (match_entry d th) (g, l) words).2).
Proof.
  revert g l. induction words as [|e words IH]; intros g l Hl; cbn [foldl]; [done|].
  destruct (match_entry d th (g, l) e) as [g1 l1] eqn:E.
  apply IH. change l1 with (g1, l1).2. rewrite <-E.
  by apply match_entry_counter_ok.
Qed.

Lemma write_pos_lines_steps d counter matched g :
  counter_ok counter → rtc step g (write_pos_lines d counter matched g).1.
Proof.
  intros Hc. revert g. induction Hc as [|[p n] counter Hp Hc IH]; intros g; simpl; [done|].
  destruct (true_div n matched); simpl; [|done].
  eapply rtc_l; [|apply IH]. by apply step_write.
Qed.

Lemma dialect_pass_steps d th words g :
  rtc step g (dialect_pass d th words g).1.
Proof.
  unfold dialect_pass.
  pose proof (foldl_match_entry_steps d th words (write (NewHeader d) g) locals_init) as Hf.
  pose proof (foldl_match_entry_counter_ok d th words (write (NewHeader d) g) locals_init) as Hc.
  destruct (foldl _ _ words) as [g1 l1]. simpl in *.
  assert (rtc step g g1) as Hg.
  { eapply rtc_l; [|exact Hf]. by apply step_write. }
  destruct (true_div _ (length words)); simpl; [|done].
  match goal with |- context [write_pos_lines ?d ?c ?m ?g] =>
    pose proof (write_pos_lines_steps d c m g (Hc ltac:(constructor))) as Hw;
    destruct (write_pos_lines d c m g) as [g2 [[]|?]] end; simpl in *.
  - etrans; [exact Hg|].
    eapply rtc_l; [|eapply rtc_r; [exact Hw|by apply step_write]].
    by apply step_write.
  - etrans; [exact Hg|]. eapply rtc_l; [|exact Hw]. by apply step_write.
Qed.

Lemma threshold_pass_steps psm nsm th g :
  rtc step g (threshold_pass psm nsm th g).1.
Proof.
  unfold threshold_pass.
  pose proof (dialect_pass_steps Pite th psm (write Rule g)) as H1.
  destruct (dialect_pass Pite th psm (write Rule g)) as [g1 [[]|?]]; simpl in *.
  - eapply rtc_l; [by apply (step_write Rule)|]. etrans; [exact H1|].
    apply dialect_pass_steps.
  - eapply rtc_l; [by apply (step_write Rule)|]. done.
Qed.

Lemma threshold_loop_steps psm nsm ths g :
  rtc step g (threshold_loop psm nsm ths g).1.
Proof.
  revert g. induction ths as [|th ths IH]; intros g; simpl; [done|].
  pose proof (threshold_pass_steps psm nsm th g) as H1.
  destruct (threshold_pass psm nsm th g) as [g1 [[]|?]]; simpl in *; [|done].
  etrans; [exact H1|]. apply IH.
Qed.

(** What a sequence of such changes preserves. *)
Lemma steps_prefix d g g' :
  rtc step g g' → matches_so_far d g `prefix_of` matches_so_far d g'.
Proof.
  induction 1 as [|g g1 g2 Hs _ IH]; [done|].
  etrans; [|exact IH]. destruct Hs as [x g _|d0 e g _ _].
  - by rewrite matches_so_far_write.
  - rewrite matches_so_far_write, matches_so_far_append.
    case_decide; [apply prefix_app_r|]; done.
Qed.

Lemma step_report_inv g g' : step g g' → report_inv g → report_inv g'.
Proof.
  intros Hs Hg d. destruct (Hg d) as [Hw Hn].
  destruct Hs as [x g Hx|d0 e g Hin _].
  - rewrite matches_so_far_write, f_write, new_words_app, Hw.
    split; [|done]. destruct x; simpl in *; try done; by rewrite app_nil_r.
  - rewrite matches_so_far_write, matches_so_far_append, f_write,
      f_append_so_far, new_words_app, Hw. simpl.
    destruct (decide (d0 = d)) as [->|Hd]; simpl.
    + rewrite map_app. simpl. split; [done|].
      apply NoDup_app. split_and!; [done| |apply NoDup_singleton].
      intros w Hw1 ->%list_elem_of_singleton.
      by apply entry_in_false in Hin.
    + by rewrite app_nil_r.
Qed.

Lemma steps_report_inv g g' : rtc step g g' → report_inv g → report_inv g'.
Proof. induction 1; eauto using step_report_inv. Qed.

Lemma report_inv_init : report_inv globals_init.
Proof. intros d. destruct d; simpl; split; constructor. Qed.

Lemma step_no_proper_noun g g' :
  step g g' → no_proper_noun g → no_proper_noun g'.
Proof.
  intros Hs (H1 & H2 & H3). destruct Hs as [x g Hx|d0 e g _ Hp].
  - split_and!.
    + intros d e. rewrite matches_so_far_write. apply H1.
    + intros d w t p eng. rewrite f_write, elem_of_app, list_elem_of_singleton.
      intros [?|Heq]; [eauto|]. by subst x.
    + intros d p n q. rewrite f_write, elem_of_app, list_elem_of_singleton.
      intros [?|Heq]; [eauto|]. by subst x.
  - split_and!.
    + intros d e'. rewrite matches_so_far_write, matches_so_far_append.
      case_decide; [|by apply H1].
      rewrite elem_of_app, list_elem_of_singleton. intros [?| ->]; eauto.
    + intros d w t p eng. rewrite f_write, f_append_so_far, elem_of_app,
        list_elem_of_singleton.
      intros [?|Heq]; [eauto|]. by inversion Heq; subst.
    + intros d p n q. rewrite f_write, f_append_so_far, elem_of_app,
        list_elem_of_singleton.
      intros [?|Heq]; [eauto|done].
Qed.

Lemma steps_no_proper_noun g g' :
  rtc step g g' → no_proper_noun g → no_proper_noun g'.
Proof. induction 1; eauto using step_no_proper_noun. Qed.

Lemma no_proper_noun_init : no_proper_noun globals_init.
Proof.
  split_and!; [intros [] ?|intros ?????|intros ????]; simpl;
    by intros ?%elem_of_nil.
Qed.

(** The loop over the records of one dialect. *)
Lemma foldl_match_entry_locals d th words g l :
  let r := foldl (match_entry d th) (g, l) words in
  words_matched r.2
  = words_matched l ++ map (matched_item d) (filter (λ e, is_match d th e) words)
  ∧ new_counter r.2 + length (new_words d (f g))
    = new_counter l + length (new_words d (f r.1))
  ∧ new_counter r.2 + length (matches_so_far d g)
    = new_counter l + length (matches_so_far d r.1)
  ∧ ((pos_counter l ≠ [] → words_matched l ≠ []) →
     pos_counter r.2 ≠ [] → words_matched r.2 ≠ []).
Proof.
  revert g l. induction words as [|e words IH]; intros g l; cbn [foldl].
  { simpl. rewrite app_nil_r. done. }
  destruct (is_match d th e) eqn:Hm.
  2:{ rewrite filter_cons_False by (intros ?%Is_true_true; congruence).
      replace (match_entry d th (g, l) e) with (g, l); [apply IH|].
      unfold match_entry. by rewrite Hm. }
  rewrite filter_cons_True by (by apply Is_true_true).
  destruct (match_entry_cases d th g l e) as [E | [(_ & Hin & E) | (_ & Hin & E)]].
  - exfalso. unfold match_entry in E. rewrite Hm in E.
    apply (f_equal (λ r, length (words_matched r.2))) in E.
    destruct (negb _); simpl in E; rewrite length_app in E; simpl in E; lia.
  - rewrite E.
    specialize (IH g {| pos_counter := count_pos (pos e) (pos_counter l);
                        words_matched := words_matched l ++ [matched_item d e];
                        new_counter := new_counter l |}).
    simpl in IH. destruct IH as (IH1 & IH2 & IH3 & IH4).
    split_and!; [by rewrite IH1, <-app_assoc|done|done|].
    intros _. apply IH4. intros _. by destruct (words_matched l).
  - rewrite E.
    match type of E with _ = (?g1, ?l1) => specialize (IH g1 l1) end.
    cbv zeta in IH. cbn [new_counter words_matched pos_counter] in IH.
    destruct IH as (IH1 & IH2 & IH3 & IH4).
    split_and!; [by rewrite IH1, <-app_assoc| | |].
    + rewrite f_write, f_append_so_far, new_words_app, length_app in IH2.
      simpl in IH2. rewrite decide_True in IH2 by done. simpl in IH2. lia.
    + rewrite matches_so_far_write, matches_so_far_append,
        decide_True, length_app in IH3 by done. simpl in IH3. lia.
    + intros _. apply IH4. intros _. by destruct (words_matched l).
Qed.

Lemma foldl_match_entry_none d th words g l :
  filter (λ e, is_match d th e) words = [] →
  foldl (match_entry d th) (g, l) words = (g, l).
Proof.
  induction words as [|e words IH]; [done|]. rewrite filter_cons.
  case_decide as Hm; [done|]. intros Hf. cbn [foldl].
  unfold match_entry at 2. destruct (is_match d th e); [by destruct Hm|].
  by apply IH.
Qed.

Lemma true_div_ok x y : y ≠ 0 → true_div x y = Ok (Z.of_nat x # Pos.of_nat y)%Q.
Proof. intros Hy. unfold true_div. by rewrite bool_decide_eq_false_2. Qed.

Lemma write_pos_lines_ok d counter matched g :
  (counter ≠ [] → matched ≠ 0) → (write_pos_lines d counter matched g).2 = Ok ().
Proof.
  revert g. induction counter as [|[p n] counter IH]; intros g Hm; simpl; [done|].
  rewrite true_div_ok by auto. apply IH. auto.
Qed.

Lemma dialect_pass_ok d th words g :
  words ≠ [] → (dialect_pass d th words g).2 = Ok ().
Proof.
  intros Hw. unfold dialect_pass.
  pose proof (foldl_match_entry_locals d th words (write (NewHeader d) g) locals_init)
    as (_ & _ & _ & Hc).
  destruct (foldl _ _ words) as [g1 l1]. simpl in Hc.
  rewrite true_div_ok by (by destruct words).
  match goal with |- context [write_pos_lines ?d ?c ?m ?g] =>
    pose proof (write_pos_lines_ok d c m g) as Hp;
    destruct (write_pos_lines d c m g) as [g2 r] end.
  simpl in Hp. rewrite Hp; [done|].
  intros Hne Hl. apply length_zero_iff_nil in Hl. by apply Hc.
Qed.

Lemma dialect_pass_empty d th g :
  (dialect_pass d th [] g).2 = Raise ZeroDivisionError.
Proof. done. Qed.

Lemma threshold_loop_ok psm nsm ths g :
  psm ≠ [] → nsm ≠ [] → (threshold_loop psm nsm ths g).2 = Ok ().
Proof.
  intros Hp Hn. revert g. induction ths as [|th ths IH]; intros g; simpl; [done|].
  unfold threshold_pass.
  pose proof (dialect_pass_ok Pite th psm (write Rule g) Hp) as H1.
  destruct (dialect_pass Pite th psm (write Rule g)) as [g1 r1]. simpl in H1. subst r1.
  pose proof (dialect_pass_ok North th nsm g1 Hn) as H2.
  destruct (dialect_pass North th nsm g1) as [g2 r2]. simpl in H2. subst r2.
  apply IH.
Qed.

Lemma dialect_pass_no_match d th words g :
  words ≠ [] → filter (λ e, is_match d th e) words = [] →
  ∃ q, (q == 0)%Q ∧
    dialect_pass d th words g
    = (write Blank
         (write (Summary d 0 q 0 (th * 100)%Q) (write (NewHeader d) g)),
       Ok ()).
Proof.
  intros Hw Hf. unfold dialect_pass.
  rewrite foldl_match_entry_none by done. simpl.
  rewrite true_div_ok by (by destruct words). simpl.
  eexists; split; [|done]. done.
Qed.

Lemma filter_eq_not_elem_of {A} `{EqDecision A} (x : A) (l : list A) :
  x ∉ l → filter (λ w, w = x) l = [].
Proof.
  induction l as [|w l IH]; [done|]. rewrite not_elem_of_cons. intros [Hx Hl].
  rewrite filter_cons_False by congruence. auto.
Qed.

Lemma NoDup_filter_eq_length {A} `{EqDecision A} (x : A) (l : list A) :
  NoDup l → length (filter (λ w, w = x) l) ≤ 1.
Proof.
  induction 1 as [|w l Hw Hn IH]; simpl; [lia|].
  rewrite filter_cons. case_decide as Hx; [|done].
  subst w. rewrite filter_eq_not_elem_of by done. simpl. lia.
Qed.

(** C2: within a run each cumulative list only grows (the list before a pass
    is a prefix of the list after it, and likewise over the whole loop), a
    record is reported as new at most once over all thresholds of the run
    (no two "new match" lines of a dialect carry the same word), and the
    new counter of a loop counts exactly the lines that loop wrote. *)
Theorem matches_so_far_monotone (d : dialect) (psm nsm : list DictEntry)
    (ths : list Q) (th : Q) (g : globals) (r : DictEntry) :
  matches_so_far d g `prefix_of` matches_so_far d (threshold_pass psm nsm th g).1
  ∧ length (matches_so_far d g)
    ≤ length (matches_so_far d (threshold_pass psm nsm th g).1)
  ∧ matches_so_far d g `prefix_of` matches_so_far d (threshold_loop psm nsm ths g).1
  ∧ length (filter (λ w, w = word r) (new_words d (f (run psm nsm ths).1))) ≤ 1
  ∧ (∀ words l,
       let s := foldl (match_entry d th) (g, l) words in
       new_counter s.2 + length (new_words d (f g))
       = new_counter l + length (new_words d (f s.1))).
Proof.
  pose proof (steps_prefix d _ _ (threshold_pass_steps psm nsm th g)) as Hp.
  split_and!.
  - exact Hp.
  - by apply prefix_length.
  - apply steps_prefix, threshold_loop_steps.
  - destruct (steps_report_inv _ _ (threshold_loop_steps psm nsm ths globals_init)
                report_inv_init d) as [Hw Hn].
    unfold run. rewrite Hw. by apply NoDup_filter_eq_length.
  - intros words l. apply foldl_match_entry_locals.
Qed.

(** C6: a record whose part of speech is "Proper noun" is never matched, at
    any threshold: the loop body leaves every variable as it was, the
    matched list holds exactly the other records that reach the threshold,
    and after a run neither the cumulative list, nor a "new match" line, nor
    a part-of-speech line carries "Proper noun". *)
Theorem proper_noun_never_matched (d : dialect) (th : Q) (g : globals)
    (l : locals) (e : DictEntry) (words psm nsm : list DictEntry)
    (ths : list Q) :
  (pos e = "Proper noun" → match_entry d th (g, l) e = (g, l))
  ∧ words_matched (foldl (match_entry d th) (g, locals_init) words).2
    = map (matched_item d)
        (filter (λ x, pos x ≠ "Proper noun")
           (filter (λ x, Qle_bool th (similar (Some (word x))
                                       (translations x !! lang_of d)))
              words))
  ∧ (∀ x, x ∈ matches_so_far d (run psm nsm ths).1 → pos x ≠ "Proper noun")
  ∧ (∀ w t p eng, NewMatch d w t p eng ∈ f (run psm nsm ths).1 →
       p ≠ "Proper noun")
  ∧ (∀ p n q, PosLine d p n q ∈ f (run psm nsm ths).1 → p ≠ "Proper noun").
Proof.
  destruct (steps_no_proper_noun _ _
              (threshold_loop_steps psm nsm ths globals_init)
              no_proper_noun_init) as (H1 & H2 & H3).
  split_and!; [| |by apply H1|by apply H2|by apply H3].
  - intros Hp. unfold match_entry, is_match.
    rewrite Hp. simpl. by rewrite andb_false_r.
  - destruct (foldl_match_entry_locals d th words g locals_init) as (-> & _).
    simpl. f_equal. rewrite list_filter_filter. apply list_filter_iff.
    intros x. unfold is_match.
    rewrite andb_True, negb_True, bool_decide_spec. tauto.
Qed.

Lemma proper_noun_never_matched_witness :
  match_entry Pite 0 (globals_init, locals_init)
    (mkDictEntry "Anna" "Proper noun" {["swe" := "Anna"]})
  = (globals_init, locals_init).
Proof.
  apply (proj1 (proper_noun_never_matched Pite 0 globals_init locals_init
                  (mkDictEntry "Anna" "Proper noun" {["swe" := "Anna"]})
                  [] [] [] [])).
  reflexivity.
Defined.

(** C3 as the code has it: when both word lists are non-empty no division
    faults, at any threshold; with no match at a threshold the summary
    reports a percentage equal to 0 and no part-of-speech percentage is
    computed, the tally being empty.  An empty word list makes the summary's
    division raise [ZeroDivisionError]. *)
Theorem percentages_defined (d : dialect) (psm nsm words : list DictEntry)
    (ths : list Q) (th : Q) (g : globals) :
  (psm ≠ [] → nsm ≠ [] → (threshold_loop psm nsm ths g).2 = Ok ())
  ∧ (words ≠ [] → filter (λ e, is_match d th e) words = [] →
     ∃ q, (q == 0)%Q ∧
       dialect_pass d th words g
       = (write Blank
            (write (Summary d 0 q 0 (th * 100)%Q) (write (NewHeader d) g)),
          Ok ()))
  ∧ (dialect_pass d th [] g).2 = Raise ZeroDivisionError.
Proof.
  split_and!.
  - apply threshold_loop_ok.
  - apply dialect_pass_no_match.
  - apply dialect_pass_empty.
Qed.

Lemma percentages_defined_witness :
  (threshold_loop [bussa] [bussa] threshholds globals_init).2 = Ok ()
  ∧ ∃ q, (q == 0)%Q ∧
      dialect_pass Pite 1 [bussa] globals_init
      = (write Blank
           (write (Summary Pite 0 q 0 (1 * 100)%Q)
              (write (NewHeader Pite) globals_init)),
         Ok ()).
Proof.
  split.
  - apply (proj1 (percentages_defined Pite [bussa] [bussa] [bussa]
                    threshholds 1 globals_init)); discriminate.
  - apply (proj1 (proj2 (percentages_defined Pite [bussa] [bussa] [bussa]
                           threshholds 1 globals_init))).
    + discriminate.
    + vm_compute. reflexivity.
Defined.

(** C3 fails as stated: with an empty Pite Saami list the first pass raises
    [ZeroDivisionError]. *)
Lemma percentages_fault_on_empty :
  (run [] [bussa] threshholds).2 = Raise ZeroDivisionError.
Proof. vm_compute. reflexivity. Qed.

(** * Further properties of the code *)

Module BlockFacts.
Import Difflib.

Section genuine_blocks.
Context {A : Type} `{Countable A}.
Variables (a b : list A) (b2j : gmap A (list nat)).
Hypothesis Hidx : indexes b b2j.

Lemma elt_eq_spec i j :
  elt_eq a b i j = true ↔ ∃ x, a !! i = Some x ∧ b !! j = Some x.
Proof.
  unfold elt_eq. destruct (a !! i) as [x|], (b !! j) as [y|]; simpl.
  - rewrite bool_decide_eq_true. split; [intros ->; eauto|].
    intros (z & [= ->] & [= ->]). done.
  - split; [done|]. intros (z & _ & ?). done.
  - split; [done|]. intros (z & ? & _). done.
  - split; [done|]. intros (z & ? & _). done.
Qed.

Lemma j2lenget_genuine i j2len j :
  j2len_genuine a b i j2len → elt_eq a b i j = true →
  ∃ p q, p + (j2lenget j2len j + 1) = S i ∧ q + (j2lenget j2len j + 1) = j + 1
         ∧ ∀ t, t < j2lenget j2len j + 1 → elt_eq a b (p + t) (q + t) = true.
Proof.
  intros Hg Hij. destruct j as [|j]; simpl.
  { exists i, 0. split_and!; [lia..|]. intros t Ht.
    replace t with 0 by lia. by rewrite !Nat.add_0_r. }
  destruct (j2len !! j) as [k|] eqn:E; simpl.
  - destruct (Hg j k E) as (p & q & Hp & Hq & Hm). exists p, q.
    split_and!; [lia..|]. intros t Ht.
    destruct (decide (t < k)) as [?|?]; [by apply Hm|].
    replace t with k by lia. replace (p + k) with i by lia.
    replace (q + k) with (S j) by lia. done.
  - exists i, (S j). split_and!; [lia..|]. intros t Ht.
    replace t with 0 by lia. by rewrite !Nat.add_0_r.
Qed.

Lemma row_genuine i blo bhi j2len js newj2len best :
  (∀ j, j ∈ js → elt_eq a b i j = true) →
  j2len_genuine a b i j2len →
  j2len_genuine a b (S i) newj2len → genuine a b best →
  j2len_genuine a b (S i) (row i blo bhi j2len js newj2len best).1
  ∧ genuine a b (row i blo bhi j2len js newj2len best).2.
Proof.
  intros Hjs Hprev. revert newj2len best.
  induction js as [|j js IH]; intros newj2len best Hnew Hbest; cbn [row]; [done|].
  assert (∀ j', j' ∈ js → elt_eq a b i j' = true) as Hjs'.
  { intros. apply Hjs. by right. }
  case_decide; [by apply IH|]. case_decide; [done|].
  destruct (j2lenget_genuine i j2len j Hprev) as (p & q & Hp & Hq & Hm).
  { apply Hjs. left. }
  apply IH; [done| |].
  - intros j' k'. rewrite lookup_insert. case_decide as Hj.
    + intros [= <-]. subst j'. exists p, q. done.
    + apply Hnew.
  - case_decide; [|done]. intros t Ht. cbn [fst snd] in *.
    replace (i + 1 - (j2lenget j2len j + 1)) with p by lia.
    replace (j + 1 - (j2lenget j2len j + 1)) with q by lia. by apply Hm.
Qed.

Lemma rows_genuine n i blo bhi j2len best :
  j2len_genuine a b i j2len → genuine a b best →
  genuine a b (rows a b2j n i blo bhi j2len best).2.
Proof.
  revert i j2len best. induction n as [|n IH]; intros i j2len best Hj Hb; [done|].
  cbn [rows].
  match goal with |- context [row i blo bhi j2len ?js ∅ best] =>
    destruct (row_genuine i blo bhi j2len js ∅ best) as [H1 H2];
    [|done| |done|destruct (row i blo bhi j2len js ∅ best) as [new best']]
  end.
  - destruct (a !! i) as [x|] eqn:Hx; [|by intros ? ?%elem_of_nil].
    unfold b2j_get. destruct (b2j !! x) as [js|] eqn:Hjs; simpl;
      [|by intros ? ?%elem_of_nil].
    intros j Hj'. apply elt_eq_spec. exists x. split; [done|].
    by apply (Hidx x js Hjs).
  - intros j k. by rewrite lookup_empty.
  - by apply IH.
Qed.

Lemma extend_back_genuine alo blo besti bestj bestsize :
  genuine a b (besti, bestj, bestsize) →
  genuine a b (extend_back a b alo blo besti bestj bestsize).
Proof.
  revert bestj bestsize.
  induction besti as [|i IH]; intros bestj bestsize Hg; simpl; [done|].
  destruct bestj as [|j]; [done|].
  destruct (bool_decide (alo < S i) && bool_decide (blo < S j) && elt_eq a b i j)
    eqn:E; [|done].
  apply andb_true_iff in E as [_ E]. apply IH.
  intros [|t] Ht; cbn [fst snd] in *.
  - by rewrite !Nat.add_0_r.
  - replace (i + S t) with (S i + t) by lia.
    replace (j + S t) with (S j + t) by lia. apply Hg. simpl. lia.
Qed.

Lemma extend_fwd_genuine n ahi bhi besti bestj bestsize :
  genuine a b (besti, bestj, bestsize) →
  genuine a b (extend_fwd a b n ahi bhi besti bestj bestsize).
Proof.
  revert bestsize. induction n as [|n IH]; intros bestsize Hg; simpl; [done|].
  destruct (bool_decide (besti + bestsize < ahi)
            && bool_decide (bestj + bestsize < bhi) && _) eqn:E; [|done].
  apply andb_true_iff in E as [_ E]. apply IH.
  intros t Ht. cbn [fst snd] in *.
  destruct (decide (t < bestsize)) as [?|?]; [by apply Hg|].
  by replace t with bestsize by lia.
Qed.

(** The block [find_longest_match] returns is a real match. *)
Lemma find_longest_match_genuine alo ahi blo bhi :
  genuine a b (find_longest_match a b b2j alo ahi blo bhi).
Proof.
  unfold find_longest_match.
  pose proof (rows_genuine (ahi - alo) alo blo bhi ∅ (alo, blo, 0)) as Hr.
  destruct (rows a b2j (ahi - alo) alo blo bhi ∅ (alo, blo, 0))
    as [j2len [[besti bestj] bestsize]].
  pose proof (extend_back_genuine alo blo besti bestj bestsize) as He.
  destruct (extend_back a b alo blo besti bestj bestsize) as [[i j] k].
  apply extend_fwd_genuine, He, Hr.
  - intros j' k'. by rewrite lookup_empty.
  - intros t Ht. simpl in Ht. lia.
Qed.
End genuine_blocks.
End BlockFacts.

Module ChainFacts.
Import Difflib BlockFacts.

Lemma apart_Permutation l1 l2 : l1 ≡ₚ l2 → apart l1 → apart l2.
Proof.
  induction 1 as [|x l1 l2 Hp IH|x y l|l1 l2 l3 _ IH1 _ IH2]; simpl; [done|..].
  - intros [Hx Hl]. split; [by rewrite <-Hp|auto].
  - intros [[Hxy Hy]%Forall_cons [Hx Hl]].
    split_and!; [apply Forall_cons; split; [tauto|done]|done|done].
  - auto.
Qed.

Lemma apart_inherit r x rest :
  inside r x →
  Forall (λ y, before r y ∨ before y r) rest →
  Forall (λ y, before x y ∨ before y x) rest.
Proof.
  intros Hin HF. eapply Forall_impl; [exact HF|].
  unfold before, inside in *. intros y. simpl. lia.
Qed.

Lemma inside_trans box r x : inside box r → inside r x → inside box x.
Proof. unfold inside. lia. Qed.

Section loop.
Context {A : Type} `{Countable A}.
Variables (a b : list A) (b2j : gmap A (list nat)).
Hypothesis Hidx : indexes b b2j.

(** One pass of the queue loop: the range popped is replaced by the block
    found in it and the two ranges on either side of the block. *)
Lemma matching_loop_inv box fuel queue blocks :
  loop_inv a b box queue blocks →
  loop_inv a b box (matching_loop a b b2j fuel queue blocks).1
    (matching_loop a b b2j fuel queue blocks).2.
Proof.
  revert queue blocks. induction fuel as [|fuel IH]; intros queue blocks Hinv.
  { by destruct queue. }
  destruct queue as [|[[[alo ahi] blo] bhi] queue]; [done|].
  cbn [matching_loop].
  destruct Hinv as (Hg & Hk & Hin & Hap & Hq).
  apply Forall_cons in Hq as [[Ha Hb] Hq]. cbn [fst snd] in Ha, Hb.
  rewrite <-app_comm_cons in Hin, Hap.
  apply Forall_cons in Hin as [Hr Hin]. destruct Hap as [Hsep Hap].
  pose proof (DifflibFacts.find_longest_match_bounds a b b2j alo ahi blo bhi Ha Hb)
    as Hm.
  pose proof (find_longest_match_genuine a b b2j Hidx alo ahi blo bhi) as Hgm.
  destruct (find_longest_match a b b2j alo ahi blo bhi) as [[i j] k].
  cbn [fst snd] in Hm. destruct Hm as (? & ? & ? & ?).
  case_decide as Hk0.
  { apply IH. split_and!; done. }
  apply IH. clear IH.
  set (rb := rect_of (i, j, k)).
  set (rest := queue ++ map rect_of blocks) in *.
  assert (inside (alo, ahi, blo, bhi) rb) as Hrb.
  { unfold inside, rb, rect_of. simpl. lia. }
  set (q1 := if bool_decide (alo < i) && bool_decide (blo < j)
             then (alo, i, blo, j) :: queue else queue).
  set (q2 := if bool_decide (i + k < ahi) && bool_decide (j + k < bhi)
             then (i + k, ahi, j + k, bhi) :: q1 else q1).
  assert (∃ extra,
            q2 = extra ++ queue
            ∧ Forall range_ok extra
            ∧ Forall (inside (alo, ahi, blo, bhi)) extra
            ∧ Forall (λ y, before rb y ∨ before y rb) extra
            ∧ apart extra) as (extra & -> & Hok & Hine & Hsb & Hape).
  { unfold q2, q1.
    destruct (bool_decide (i + k < ahi) && bool_decide (j + k < bhi)),
      (bool_decide (alo < i) && bool_decide (blo < j)).
    - exists [(i + k, ahi, j + k, bhi); (alo, i, blo, j)].
      split; [done|].
      split_and!; repeat constructor;
        unfold range_ok, inside, before, rb, rect_of; simpl; lia.
    - exists [(i + k, ahi, j + k, bhi)]. split; [done|].
      split_and!; repeat constructor;
        unfold range_ok, inside, before, rb, rect_of; simpl; lia.
    - exists [(alo, i, blo, j)]. split; [done|].
      split_and!; repeat constructor;
        unfold range_ok, inside, before, rb, rect_of; simpl; lia.
    - exists []. split; [done|]. split_and!; constructor. }
  assert ((extra ++ queue) ++ map rect_of (blocks ++ [(i, j, k)])
          ≡ₚ rb :: extra ++ rest) as Hperm.
  { rewrite map_app. simpl. fold rb. unfold rest.
    rewrite !app_assoc, <-Permutation_cons_append. by rewrite <-!app_assoc. }
  split_and!.
  - apply Forall_app. split; [done|]. by repeat constructor.
  - apply Forall_app. split; [done|]. repeat constructor. simpl. lia.
  - rewrite Hperm. apply Forall_cons. split; [by eapply inside_trans|].
    apply Forall_app. split; [|done].
    eapply Forall_impl; [exact Hine|]. intros y. by apply inside_trans.
  - eapply apart_Permutation; [symmetry; exact Hperm|]. simpl. split.
    + apply Forall_app. split; [done|]. by eapply apart_inherit.
    + clear Hperm Hsb. induction Hine as [|x extra Hx Hine IHe]; [done|].
      apply Forall_cons in Hok as [_ Hok]. destruct Hape as [Hxe Hape].
      simpl. split; [|by apply IHe].
      apply Forall_app. split; [done|]. by eapply apart_inherit.
  - apply Forall_app. split; done.
Qed.
End loop.

(** Blocks in a chain inside [[lo_a, la) x [lo_b, lb)] are together no longer
    than either side. *)
Lemma chain_bound la lb (blocks : list Match) lo_a lo_b :
  StronglySorted block_before blocks →
  Forall (λ m, inside (lo_a, la, lo_b, lb) (rect_of m)) blocks →
  lo_a ≤ la → lo_b ≤ lb →
  total_size blocks + lo_a ≤ la ∧ total_size blocks + lo_b ≤ lb.
Proof.
  intros Hs. revert lo_a lo_b.
  induction Hs as [|[[i j] k] blocks Hs IH Hx]; intros lo_a lo_b Hin Ha Hb.
  { simpl. lia. }
  apply Forall_cons in Hin as [Hx1 Hin].
  unfold inside, rect_of in Hx1. simpl in Hx1.
  destruct (IH (i + k) (j + k)) as [IH1 IH2]; [|lia..|simpl; lia].
  rewrite Forall_forall in Hin, Hx. apply Forall_forall. intros y Hy.
  specialize (Hin y Hy). specialize (Hx y Hy).
  unfold block_before, before, inside, rect_of in *. simpl in *. lia.
Qed.

Section tight.
Context {A : Type} `{EqDecision A}.
Variables (a b : list A).

(** A chain of real matches that fills both sequences matches them
    position by position. *)
Lemma chain_tight n (blocks : list Match) lo :
  StronglySorted block_before blocks →
  Forall (genuine a b) blocks →
  Forall (λ m, inside (lo, n, lo, n) (rect_of m)) blocks →
  total_size blocks + lo = n →
  ∀ p, lo ≤ p < n → elt_eq a b p p = true.
Proof.
  intros Hs. revert lo.
  induction Hs as [|[[i j] k] blocks Hs IH Hx]; intros lo Hg Hin Ht p Hp.
  { simpl in Ht. lia. }
  apply Forall_cons in Hg as [Hg1 Hg]. apply Forall_cons in Hin as [Hx1 Hin].
  unfold inside, rect_of in Hx1. simpl in Hx1, Ht.
  assert (Forall (λ m, inside (i + k, n, j + k, n) (rect_of m)) blocks) as Hin'.
  { rewrite Forall_forall in Hin, Hx. apply Forall_forall. intros y Hy.
    specialize (Hin y Hy). specialize (Hx y Hy).
    unfold block_before, before, inside, rect_of in *. simpl in *. lia. }
  destruct (chain_bound n n blocks (i + k) (j + k) Hs Hin') as [B1 B2]; [lia..|].
  assert (i = lo) as -> by lia. assert (j = lo) as -> by lia.
  destruct (decide (p < lo + k)) as [Hlt|Hge].
  - specialize (Hg1 (p - lo) ltac:(simpl; lia)). simpl in Hg1.
    by replace (lo + (p - lo)) with p in Hg1 by lia.
  - apply (IH (lo + k)); [done|done|lia|lia].
Qed.
End tight.


(** Blocks that are pairwise apart, put in the order of their starts, form
    a chain. *)
Lemma apart_sorted (blocks : list Match) :
  Forall (λ m : Match, 0 < m.2) blocks →
  apart (map rect_of blocks) →
  StronglySorted start_le blocks →
  StronglySorted block_before blocks.
Proof.
  intros Hk Hap Hs. induction Hs as [|x blocks Hs IH Hx]; [constructor|].
  apply Forall_cons in Hk as [Hkx Hk]. simpl in Hap. destruct Hap as [Hsep Hap].
  constructor; [by apply IH|].
  rewrite Forall_forall in Hx, Hk. apply Forall_forall. intros y Hy.
  rewrite Forall_forall in Hsep. specialize (Hsep (rect_of y)).
  destruct Hsep as [?|Hyx]; [by apply list_elem_of_fmap_2|done|].
  specialize (Hx y Hy). specialize (Hk y Hy).
  unfold block_before, before, rect_of, start_le in *. simpl in *. lia.
Qed.
End ChainFacts.

Module MatchFacts.
Import Difflib BlockFacts ChainFacts.

Section blocks.
Context {A : Type} `{Countable A}.

(** The blocks the queue loop of [get_matching_blocks a b] collects. *)
Lemma loop_blocks_spec (a b : list A) :
  let r := matching_loop a b (chain_b b) (2 * length a + 1)
             [(0, length a, 0, length b)] [] in
  r.1 = []
  ∧ matches a b = total_size r.2
  ∧ loop_inv a b (0, length a, 0, length b) [] r.2.
Proof.
  intros r.
  pose proof (DifflibFacts.get_matching_blocks_complete a b) as Hq. fold r in Hq.
  pose proof (matching_loop_inv a b (chain_b b) (DifflibFacts.chain_b_indexes b)
                (0, length a, 0, length b) (2 * length a + 1)
                [(0, length a, 0, length b)] []) as Hinv.
  fold r in Hinv. split_and!; [done| |].
  - unfold matches, get_matching_blocks. fold r. destruct r as [q blocks].
    fold (total_size (collapse (merge_sort Match_le blocks) 0 0 0 []
                      ++ [(length a, length b, 0)])).
    rewrite DifflibFacts.total_size_app, DifflibFacts.total_size_collapse,
      (DifflibFacts.total_size_Permutation _ _
         (merge_sort_Permutation Match_le blocks)).
    simpl. lia.
  - rewrite Hq in Hinv. apply Hinv.
    split_and!; repeat constructor; unfold inside, range_ok; simpl; lia.
Qed.

Lemma collapse_genuine (a b : list A) blocks i1 j1 k1 non_adjacent :
  Forall (genuine a b) blocks → genuine a b (i1, j1, k1) →
  Forall (genuine a b) non_adjacent →
  Forall (genuine a b) (collapse blocks i1 j1 k1 non_adjacent).
Proof.
  revert i1 j1 k1 non_adjacent.
  induction blocks as [|[[i2 j2] k2] blocks IH]; intros i1 j1 k1 acc Hb Hp Hacc;
    cbn [collapse].
  { case_decide; [done|]. apply Forall_app. split; [done|].
    apply Forall_cons. split; [done|constructor]. }
  apply Forall_cons in Hb as [H2 Hb].
  destruct (bool_decide (i1 + k1 = i2) && bool_decide (j1 + k1 = j2)) eqn:E.
  - apply andb_true_iff in E as [E1%bool_decide_eq_true E2%bool_decide_eq_true].
    apply IH; [done| |done]. intros t Ht. cbn [fst snd] in *.
    destruct (decide (t < k1)) as [?|?]; [by apply Hp|].
    specialize (H2 (t - k1) ltac:(simpl; lia)). cbn [fst snd] in H2.
    replace (i1 + t) with (i2 + (t - k1)) by lia.
    by replace (j1 + t) with (j2 + (t - k1)) by lia.
  - apply IH; [done..|]. destruct (decide (k1 = 0)); [done|].
    apply Forall_app. split; [done|]. apply Forall_cons. split; [done|constructor].
Qed.

Lemma get_matching_blocks_genuine (a b : list A) :
  Forall (genuine a b) (get_matching_blocks a b).
Proof.
  destruct (loop_blocks_spec a b) as (_ & _ & Hg & _).
  unfold get_matching_blocks.
  destruct (matching_loop a b (chain_b b) (2 * length a + 1)
              [(0, length a, 0, length b)] []) as [q blocks].
  simpl in Hg. apply Forall_app. split.
  - apply collapse_genuine; [|intros t Ht; simpl in Ht; lia|constructor].
    by rewrite merge_sort_Permutation.
  - repeat constructor. intros t Ht. simpl in Ht. lia.
Qed.

Lemma elt_eq_diag_eq (a b : list A) :
  length a = length b →
  (∀ p, p < length a → elt_eq a b p p = true) → a = b.
Proof.
  intros Hl Hp. apply list_eq. intros i.
  destruct (decide (i < length a)) as [Hi|Hi].
  - specialize (Hp i Hi). apply elt_eq_spec in Hp as (x & -> & ->). done.
  - rewrite !lookup_ge_None_2 by lia. done.
Qed.

(** When the blocks fill both sequences, the sequences are equal. *)
Lemma matches_full_eq (a b : list A) :
  matches a b = length a → length a = length b → a = b.
Proof.
  intros Hm Hl. destruct (loop_blocks_spec a b) as (_ & Ht & Hg & Hk & Hin & Hap & _).
  destruct (matching_loop a b (chain_b b) (2 * length a + 1)
              [(0, length a, 0, length b)] []) as [q blocks].
  simpl in *. rewrite <-Hl in Hin.
  set (sorted := merge_sort start_le blocks).
  assert (sorted ≡ₚ blocks) as Hperm by apply merge_sort_Permutation.
  apply elt_eq_diag_eq; [done|]. intros p Hp.
  apply (chain_tight a b (length a) sorted 0).
  - apply apart_sorted.
    + by rewrite Hperm.
    + eapply apart_Permutation; [|exact Hap]. by rewrite Hperm.
    + apply StronglySorted_merge_sort; apply _.
  - by rewrite Hperm.
  - rewrite Hperm. apply Forall_forall. intros m Hmem.
    rewrite Forall_forall in Hin. apply Hin. by apply list_elem_of_fmap_2.
  - rewrite (DifflibFacts.total_size_Permutation _ _ Hperm). lia.
  - lia.
Qed.

Lemma calculate_ratio_one (m len : nat) :
  len ≠ 0 → (calculate_ratio m len == 1)%Q → 2 * m = len.
Proof.
  intros Hl. unfold calculate_ratio. rewrite decide_False by done.
  unfold Qeq. simpl.
  rewrite <-(positive_nat_Z (Pos.of_nat len)), Nat2Pos.id by done. lia.
Qed.

Lemma ratio_one_iff (a b : list A) : (ratio a b == 1)%Q ↔ a = b.
Proof.
  split; [|intros ->; apply DifflibFacts.ratio_refl].
  intros Hr. unfold ratio in Hr.
  destruct (decide (length a + length b = 0)) as [H0|H0].
  { destruct a, b; simpl in H0; try lia. done. }
  apply calculate_ratio_one in Hr; [|done].
  pose proof (DifflibFacts.matches_le a b).
  apply matches_full_eq; lia.
Qed.
End blocks.

Section disjoint.
Context {A : Type} `{Countable A}.
Variables (a b : list A).
Hypothesis Hdisj : ∀ x, x ∈ a → x ∉ b.

Lemma elt_eq_disjoint i j : elt_eq a b i j = false.
Proof.
  destruct (elt_eq a b i j) eqn:E; [|done].
  apply elt_eq_spec in E as (x & Ha & Hb).
  destruct (Hdisj x); by eapply list_elem_of_lookup_2.
Qed.

Lemma rows_disjoint n i blo bhi j2len best :
  (rows a (chain_b b) n i blo bhi j2len best).2 = best.
Proof.
  revert i j2len. induction n as [|n IH]; intros i j2len; [done|].
  cbn [rows].
  assert (match a !! i with
          | Some x => b2j_get (chain_b b) x
          | None => []
          end = []) as ->.
  { destruct (a !! i) as [x|] eqn:Hx; [|done]. unfold b2j_get.
    destruct (chain_b b !! x) as [js|] eqn:Hjs; [|done]. simpl.
    destruct js as [|j js]; [done|].
    destruct (DifflibFacts.chain_b_indexes b x _ Hjs) as [_ Hm].
    destruct (Hdisj x); [by eapply list_elem_of_lookup_2|].
    eapply list_elem_of_lookup_2, Hm. left. }
  cbn [row]. apply IH.
Qed.

Lemma find_longest_match_disjoint alo ahi blo bhi :
  find_longest_match a b (chain_b b) alo ahi blo bhi = (alo, blo, 0).
Proof.
  unfold find_longest_match.
  pose proof (rows_disjoint (ahi - alo) alo blo bhi ∅ (alo, blo, 0)) as Hr.
  destruct (rows a (chain_b b) (ahi - alo) alo blo bhi ∅ (alo, blo, 0))
    as [j2len best]. simpl in Hr. subst best.
  assert (extend_back a b alo blo alo blo 0 = (alo, blo, 0)) as ->.
  { destruct alo as [|i]; [done|]. destruct blo as [|j]; [done|]. simpl.
    by rewrite bool_decide_eq_false_2 by lia. }
  destruct (ahi - (alo + 0)); simpl; [done|].
  by rewrite elt_eq_disjoint, andb_false_r.
Qed.

Lemma matches_disjoint : matches a b = 0.
Proof.
  unfold matches, get_matching_blocks.
  replace (2 * length a + 1) with (S (2 * length a)) by lia.
  cbn [matching_loop]. rewrite find_longest_match_disjoint.
  rewrite decide_True by done. by destruct (2 * length a).
Qed.

Lemma ratio_disjoint : a ++ b ≠ [] → (ratio a b == 0)%Q.
Proof.
  intros Hne. unfold ratio, calculate_ratio. rewrite matches_disjoint.
  rewrite decide_False; [done|]. intros H0.
  destruct a, b; simpl in *; try lia. done.
Qed.
End disjoint.
End MatchFacts.

Module RepeatFacts.
Section lawful.
Context {A : Type} `{EqDecision A}.

Lemma existsb_py_eq (item : A) new_list :
  existsb (λ x, py_eq x item) new_list = true ↔ item ∈ new_list.
Proof.
  induction new_list as [|x l IH]; simpl.
  - split; [done|by intros ?%elem_of_nil].
  - rewrite orb_true_iff, IH, elem_of_cons. unfold py_eq.
    rewrite bool_decide_eq_true. split; intros [->|?]; auto.
Qed.

Lemma loop_step (item : A) new_list input_list :
  remove_repeats_loop py_eq new_list (item :: input_list)
  = remove_repeats_loop py_eq
      (if decide (item ∈ new_list) then new_list else new_list ++ [item])
      input_list.
Proof.
  cbn [remove_repeats_loop]. f_equal.
  destruct (existsb _ new_list) eqn:E.
  - apply existsb_py_eq in E. by rewrite decide_True.
  - rewrite decide_False; [done|]. intros Hin%existsb_py_eq. congruence.
Qed.

Lemma loop_NoDup (new_list input_list : list A) :
  NoDup new_list → NoDup (remove_repeats_loop py_eq new_list input_list).
Proof.
  revert new_list. induction input_list as [|item l IH]; intros acc Hacc; [done|].
  rewrite loop_step. apply IH. case_decide; [done|].
  apply NoDup_app. split_and!; [done| |apply NoDup_singleton].
  intros x Hx ->%list_elem_of_singleton. done.
Qed.

Lemma loop_elem_of (new_list input_list : list A) x :
  x ∈ remove_repeats_loop py_eq new_list input_list
  ↔ x ∈ new_list ∨ x ∈ input_list.
Proof.
  revert new_list. induction input_list as [|item l IH]; intros acc.
  - simpl. rewrite elem_of_nil. tauto.
  - rewrite loop_step, IH, elem_of_cons. case_decide.
    + intuition (subst; auto).
    + rewrite elem_of_app, list_elem_of_singleton. tauto.
Qed.

Lemma loop_sublist (new_list input_list : list A) :
  ∃ k, remove_repeats_loop py_eq new_list input_list = new_list ++ k
       ∧ k `sublist_of` input_list.
Proof.
  revert new_list. induction input_list as [|item l IH]; intros acc.
  - exists []. by rewrite app_nil_r.
  - rewrite loop_step. case_decide.
    + destruct (IH acc) as (k & -> & Hk). exists k. split; [done|].
      by apply sublist_cons.
    + destruct (IH (acc ++ [item])) as (k & -> & Hk). exists (item :: k).
      rewrite <-app_assoc. split; [done|]. by apply sublist_skip.
Qed.

Lemma loop_first (x : A) new_list input_list :
  remove_repeats_loop py_eq (x :: new_list) input_list
  = x :: remove_repeats_loop py_eq new_list (filter (λ y, y ≠ x) input_list).
Proof.
  revert new_list. induction input_list as [|item l IH]; intros acc; [done|].
  rewrite loop_step, filter_cons. destruct (decide (item ≠ x)) as [Hne|Heq].
  - rewrite loop_step.
    destruct (decide (item ∈ x :: acc)) as [Hin|Hin].
    + rewrite decide_True; [apply IH|].
      apply elem_of_cons in Hin as [?|?]; done.
    + rewrite decide_False; [apply (IH (acc ++ [item]))|].
      intros ?. apply Hin. by right.
  - apply dec_stable in Heq. subst item.
    rewrite decide_True by left. apply IH.
Qed.

Lemma loop_NoDup_id (new_list input_list : list A) :
  NoDup (new_list ++ input_list) →
  remove_repeats_loop py_eq new_list input_list = new_list ++ input_list.
Proof.
  revert new_list. induction input_list as [|item l IH]; intros acc Hnd.
  { by rewrite app_nil_r. }
  rewrite loop_step.
  apply NoDup_app in Hnd as Hnd'. destruct Hnd' as (_ & Hdis & _).
  rewrite decide_False by (intros Hin; apply (Hdis item Hin); left).
  rewrite IH, <-app_assoc; [done|]. by rewrite <-app_assoc.
Qed.
End lawful.
End RepeatFacts.

(** X1: [remove_repeats] on values compared structurally (strings, tuples of
    strings) returns a list without repeats that has exactly the elements
    of the input and keeps them in the order of the input. *)
Theorem remove_repeats_no_repeats {A} `{EqDecision A} (input_list : list A) :
  NoDup (remove_repeats py_eq input_list)
  ∧ (∀ x, x ∈ remove_repeats py_eq input_list ↔ x ∈ input_list)
  ∧ remove_repeats py_eq input_list `sublist_of` input_list.
Proof.
  unfold remove_repeats. split_and!.
  - apply RepeatFacts.loop_NoDup. constructor.
  - intros x. rewrite RepeatFacts.loop_elem_of, elem_of_nil. tauto.
  - destruct (RepeatFacts.loop_sublist [] input_list) as (k & -> & Hk). done.
Qed.

(** X2: [remove_repeats] keeps the first occurrence of each value: the head
    of the input stays in front and its later copies are dropped.  A list
    without repeats is returned unchanged, so applying [remove_repeats]
    twice is the same as applying it once. *)
Theorem remove_repeats_first_occurrence {A} `{EqDecision A}
    (x : A) (input_list : list A) :
  remove_repeats py_eq (x :: input_list)
  = x :: remove_repeats py_eq (filter (λ y, y ≠ x) input_list)
  ∧ (NoDup input_list → remove_repeats py_eq input_list = input_list)
  ∧ remove_repeats py_eq (remove_repeats py_eq input_list)
    = remove_repeats py_eq input_list.
Proof.
  assert (∀ l : list A, NoDup l → remove_repeats py_eq l = l) as Hid.
  { intros l Hl. unfold remove_repeats. by rewrite RepeatFacts.loop_NoDup_id. }
  split_and!; [|by apply Hid|].
  - unfold remove_repeats.
    change (remove_repeats_loop py_eq [] (x :: input_list))
      with (remove_repeats_loop py_eq [x] input_list).
    apply RepeatFacts.loop_first.
  - apply Hid. unfold remove_repeats. apply RepeatFacts.loop_NoDup. constructor.
Qed.

Lemma remove_repeats_first_occurrence_witness :
  remove_repeats py_eq [("a", 1); ("b", 2); ("c", 3)]
  = [("a", 1); ("b", 2); ("c", 3)].
Proof.
  apply (remove_repeats_first_occurrence ("a", 1) [("a", 1); ("b", 2); ("c", 3)]).
  apply (bool_decide_unpack _). vm_compute. exact I.
Defined.

(** The example of the order-preserving removal. *)
Example remove_repeats_example :
  remove_repeats py_eq [("a", 1); ("b", 2); ("a", 1); ("c", 3)]
  = [("a", 1); ("b", 2); ("c", 3)].
Proof. vm_compute. reflexivity. Qed.

Module LoopFacts.

Lemma is_match_mono d th1 th2 e :
  (th1 <= th2)%Q → is_match d th2 e = true → is_match d th1 e = true.
Proof.
  intros Hle. unfold is_match. rewrite !andb_true_iff, !Qle_bool_iff.
  intros [H2 ?]. split; [|done]. by eapply Qle_trans.
Qed.

Lemma filter_sublist_impl {A} (P Q : A → Prop)
    `{∀ x, Decision (P x)} `{∀ x, Decision (Q x)} (l : list A) :
  (∀ x, P x → Q x) → filter P l `sublist_of` filter Q l.
Proof.
  intros HPQ. induction l as [|x l IH]; [done|]. rewrite !filter_cons.
  destruct (decide (P x)) as [HP|HP].
  - rewrite decide_True by auto. by apply sublist_skip.
  - case_decide; [by apply sublist_cons|done].
Qed.

Lemma matched_cons d th e words :
  matched d th (e :: words)
  = if is_match d th e then e :: matched d th words else matched d th words.
Proof.
  unfold matched. rewrite filter_cons.
  destruct (is_match d th e) eqn:E.
  - rewrite decide_True; [done|]. by apply Is_true_true.
  - rewrite decide_False; [done|]. intros ?%Is_true_true. congruence.
Qed.

Lemma entry_in_sym e l :
  existsb (λ x, DictEntry_eq x e) l = entry_in e l.
Proof.
  unfold entry_in. induction l as [|x l IH]; simpl; [done|]. rewrite IH. f_equal.
  unfold DictEntry_eq. apply bool_decide_ext. split; congruence.
Qed.

Lemma match_entry_no_match d th g l e :
  is_match d th e = false → match_entry d th (g, l) e = (g, l).
Proof. intros E. unfold match_entry. by rewrite E. Qed.

Lemma match_entry_match d th g l e :
  is_match d th e = true →
  match_entry d th (g, l) e
  = (if entry_in e (matches_so_far d g) then g
     else write (NewMatch d (word e)
                   (default "???" (translations e !! lang_of d)) (pos e)
                   (default "???" (translations e !! "eng")))
            (append_so_far d e g),
     {| pos_counter := count_pos (pos e) (pos_counter l);
        words_matched := words_matched l ++ [matched_item d e];
        new_counter := if entry_in e (matches_so_far d g)
                       then new_counter l else new_counter l + 1 |}).
Proof.
  intros E. unfold match_entry. rewrite E.
  by destruct (entry_in e (matches_so_far d g)).
Qed.

(** The matching loop of one dialect, as a fold over the records that
    match: the cumulative list is extended as [remove_repeats] would, the
    other dialect's list is left alone, the counter is fed the parts of
    speech, and only "new match" lines are written, as many as the new
    counter says. *)
Lemma foldl_match_entry_spec d th words g l :
  let r := foldl (match_entry d th) (g, l) words in
  matches_so_far d r.1
  = remove_repeats_loop DictEntry_eq (matches_so_far d g) (matched d th words)
  ∧ (∀ d', d' ≠ d → matches_so_far d' r.1 = matches_so_far d' g)
  ∧ pos_counter r.2
    = foldl (λ c e, count_pos (pos e) c) (pos_counter l) (matched d th words)
  ∧ ∃ lines, f r.1 = f g ++ lines ∧ Forall (is_new_match d) lines
             ∧ new_counter r.2 = new_counter l + length lines.
Proof.
  revert g l. induction words as [|e words IH]; intros g l; cbn [foldl].
  { simpl. split_and!; [done..|]. exists []. rewrite app_nil_r. auto. }
  rewrite matched_cons. destruct (is_match d th e) eqn:E.
  2:{ rewrite match_entry_no_match by done. apply IH. }
  rewrite match_entry_match by done. cbn [remove_repeats_loop foldl].
  rewrite entry_in_sym.
  destruct (entry_in e (matches_so_far d g)) eqn:Hin.
  - specialize (IH g {| pos_counter := count_pos (pos e) (pos_counter l);
                        words_matched := words_matched l ++ [matched_item d e];
                        new_counter := new_counter l |}). apply IH.
  - match goal with |- context [foldl (match_entry d th) (?g1, ?l1) words] =>
      specialize (IH g1 l1) end.
    cbv zeta in IH. cbn [pos_counter new_counter] in IH.
    destruct IH as (IH1 & IH2 & IH3 & lines & IH4 & IH5 & IH6).
    rewrite matches_so_far_write, matches_so_far_append, decide_True in IH1 by done.
    split_and!; [done| |done|].
    + intros d' Hd. rewrite IH2, matches_so_far_write, matches_so_far_append by done.
      by rewrite decide_False.
    + eexists (_ :: lines). rewrite IH4, f_write, f_append_so_far, <-app_assoc.
      split_and!; [done| |simpl; lia]. by constructor.
Qed.

Lemma loop_app {A} (eqb : A → A → bool) acc l1 l2 :
  remove_repeats_loop eqb acc (l1 ++ l2)
  = remove_repeats_loop eqb (remove_repeats_loop eqb acc l1) l2.
Proof. revert acc. induction l1 as [|x l1 IH]; intros acc; simpl; [done|]. apply IH. Qed.

Lemma loop_words acc l w :
  w ∈ map word (remove_repeats_loop DictEntry_eq acc l)
  ↔ w ∈ map word acc ∨ w ∈ map word l.
Proof.
  revert acc. induction l as [|e l IH]; intros acc; cbn [remove_repeats_loop].
  { simpl. rewrite elem_of_nil. tauto. }
  rewrite IH, entry_in_sym. simpl. rewrite elem_of_cons.
  destruct (entry_in e acc) eqn:E.
  - assert (word e ∈ map word acc) as He.
    { unfold entry_in in E. apply existsb_exists in E as (x & Hx & Hw).
      apply bool_decide_eq_true in Hw. rewrite Hw.
      apply list_elem_of_fmap_2, list_elem_of_In, Hx. }
    intuition (subst; auto).
  - rewrite map_app, elem_of_app. simpl. rewrite list_elem_of_singleton. tauto.
Qed.

Lemma matches_so_far_writes d counter m g :
  matches_so_far d (write_pos_lines d counter m g).1 = matches_so_far d g
  ∧ ∀ d', matches_so_far d' (write_pos_lines d counter m g).1 = matches_so_far d' g.
Proof.
  assert (∀ d', matches_so_far d' (write_pos_lines d counter m g).1
                = matches_so_far d' g) as Hd; [|by split].
  revert g. induction counter as [|[p n] counter IH]; intros g d'; simpl; [done|].
  destruct (true_div n m); simpl; [|done]. by rewrite IH, matches_so_far_write.
Qed.

(** A pass of one dialect changes the cumulative lists the way its
    matching loop does, whatever happens to the divisions after it. *)
Lemma dialect_pass_so_far d th words g :
  matches_so_far d (dialect_pass d th words g).1
  = remove_repeats_loop DictEntry_eq (matches_so_far d g) (matched d th words)
  ∧ ∀ d', d' ≠ d → matches_so_far d' (dialect_pass d th words g).1
                   = matches_so_far d' g.
Proof.
  unfold dialect_pass.
  pose proof (foldl_match_entry_spec d th words (write (NewHeader d) g) locals_init)
    as (H1 & H2 & _).
  destruct (foldl _ _ words) as [g1 l1]. cbn [fst snd] in *.
  assert (∀ d', matches_so_far d'
                  (match true_div (length (words_matched l1)) (length words) with
                   | Ok q =>
                       let g0 := write (Summary d (length (words_matched l1))
                                          (q * 100)%Q (new_counter l1)
                                          (th * 100)%Q) g1 in
                       match write_pos_lines d (pos_counter l1)
                               (length (words_matched l1)) g0 with
                       | (g2, Ok _) => (write Blank g2, Ok ())
                       | (g2, Raise e) => (g2, Raise e)
                       end
                   | Raise e => (g1, Raise e)
                   end).1 = matches_so_far d' g1) as Hsame.
  { intros d'. destruct (true_div _ (length words)); [|done]. cbv zeta.
    match goal with |- context [write_pos_lines ?d ?c ?m ?g0] =>
      pose proof (proj2 (matches_so_far_writes d c m g0) d') as Hw;
      destruct (write_pos_lines d c m g0) as [g2 [[]|?]] end;
      cbn [fst] in *; by rewrite ?matches_so_far_write, Hw, ?matches_so_far_write. }
  split.
  - by rewrite Hsame, H1, matches_so_far_write.
  - intros d' Hd. by rewrite Hsame, H2, matches_so_far_write.
Qed.

Lemma threshold_pass_so_far d psm nsm th g :
  (threshold_pass psm nsm th g).2 = Ok () →
  matches_so_far d (threshold_pass psm nsm th g).1
  = remove_repeats_loop DictEntry_eq (matches_so_far d g)
      (matched d th (words_of d psm nsm)).
Proof.
  unfold threshold_pass.
  pose proof (dialect_pass_so_far Pite th psm (write Rule g)) as [P1 P2].
  destruct (dialect_pass Pite th psm (write Rule g)) as [g1 [[]|?]];
    cbn [fst snd] in *; [|done].
  pose proof (dialect_pass_so_far North th nsm g1) as [N1 N2].
  intros _. destruct d; cbn [words_of].
  - by rewrite N2, P1, matches_so_far_write.
  - by rewrite N1, P2, matches_so_far_write.
Qed.

Lemma threshold_loop_so_far d psm nsm ths g :
  (threshold_loop psm nsm ths g).2 = Ok () →
  matches_so_far d (threshold_loop psm nsm ths g).1
  = remove_repeats_loop DictEntry_eq (matches_so_far d g)
      (concat (map (λ th, matched d th (words_of d psm nsm)) ths)).
Proof.
  revert g. induction ths as [|th ths IH]; intros g; [done|].
  cbn [threshold_loop map concat].
  pose proof (threshold_pass_so_far d psm nsm th g) as Hp.
  destruct (threshold_pass psm nsm th g) as [g1 [[]|?]]; cbn [fst snd] in *; [|done].
  intros Hok. rewrite IH, Hp, loop_app by done. done.
Qed.
End LoopFacts.

Module TallyFacts.

Lemma counter_get_count_pos p counter q :
  counter_get (count_pos p counter) q
  = counter_get counter q + (if decide (p = q) then 1 else 0).
Proof.
  induction counter as [|[q0 n] counter IH]; simpl.
  - case_bool_decide; case_decide; done.
  - case_bool_decide as Hp; simpl.
    + subst q0. case_bool_decide; case_decide; congruence || lia.
    + rewrite IH. case_bool_decide; case_decide; congruence || lia.
Qed.

Lemma count_pos_keys p counter :
  (count_pos p counter).*1
  = if decide (p ∈ counter.*1) then counter.*1 else counter.*1 ++ [p].
Proof.
  induction counter as [|[q0 n] counter IH]; [done|].
  cbn [count_pos]. case_bool_decide as Hp; rewrite !fmap_cons; cbn [fst].
  - subst q0. rewrite decide_True by left. done.
  - rewrite IH. destruct (decide (p ∈ counter.*1)) as [Hin|Hin].
    + rewrite decide_True by (by right). done.
    + rewrite decide_False; [done|]. rewrite elem_of_cons. tauto.
Qed.

Lemma count_pos_sum p counter :
  sum_list (count_pos p counter).*2 = S (sum_list counter.*2).
Proof.
  induction counter as [|[q0 n] counter IH]; [done|].
  cbn [count_pos]. case_bool_decide; rewrite !fmap_cons; cbn [snd sum_list_with];
    [|rewrite IH]; simpl; lia.
Qed.

Lemma count_pos_positive p counter :
  Forall (λ pn, 0 < pn.2) counter → Forall (λ pn, 0 < pn.2) (count_pos p counter).
Proof.
  induction 1 as [|[q0 n] counter Hn Hc IH]; simpl.
  - repeat constructor.
  - case_bool_decide; constructor; simpl in *; auto with lia.
Qed.

(** The counter after the parts of speech of [l] were counted. *)
Lemma tally_spec counter (l : list DictEntry) :
  let r := foldl (λ c e, count_pos (pos e) c) counter l in
  (∀ p, counter_get r p
        = counter_get counter p + length (filter (λ e, pos e = p) l))
  ∧ r.*1 = remove_repeats_loop py_eq counter.*1 (map pos l)
  ∧ sum_list r.*2 = sum_list counter.*2 + length l
  ∧ (Forall (λ pn, 0 < pn.2) counter → Forall (λ pn, 0 < pn.2) r).
Proof.
  revert counter. induction l as [|e l IH]; intros counter; cbn [foldl].
  { cbn [length filter map remove_repeats_loop].
    split_and!; [intros; simpl; lia|done|lia|done]. }
  destruct (IH (count_pos (pos e) counter)) as (IH1 & IH2 & IH3 & IH4).
  split_and!.
  - intros p. rewrite IH1, counter_get_count_pos, filter_cons.
    destruct (decide (pos e = p)); cbn [length]; lia.
  - rewrite IH2, count_pos_keys. cbn [map]. by rewrite RepeatFacts.loop_step.
  - rewrite IH3, count_pos_sum. cbn [length]. lia.
  - intros Hc. by apply IH4, count_pos_positive.
Qed.

Lemma counter_get_le counter p :
  counter_get counter p ≤ sum_list counter.*2.
Proof.
  induction counter as [|[q n] counter IH]; [done|].
  rewrite fmap_cons, DifflibFacts.sum_list_cons. cbn [counter_get snd].
  case_bool_decide; lia.
Qed.

Lemma counter_get_elem_of (counter : list (string * nat)) p n :
  (p, n) ∈ counter → n ≤ sum_list counter.*2.
Proof.
  induction counter as [|[q k] counter IH]; [by intros ?%elem_of_nil|].
  rewrite fmap_cons, DifflibFacts.sum_list_cons. cbn [snd].
  intros [[= -> ->]|Hin]%elem_of_cons; [lia|].
  specialize (IH Hin). lia.
Qed.

Lemma write_pos_lines_f d counter m g :
  (counter ≠ [] → m ≠ 0) →
  f (write_pos_lines d counter m g).1
  = f g ++ map (λ pn, PosLine d pn.1 pn.2
                        ((Z.of_nat pn.2 # Pos.of_nat m) * 100)%Q) counter.
Proof.
  revert g. induction counter as [|[p n] counter IH]; intros g Hm; simpl.
  { by rewrite app_nil_r. }
  rewrite true_div_ok by auto.
  rewrite IH by auto. rewrite f_write, <-app_assoc. done.
Qed.

Lemma percent_range (m n : nat) :
  m ≤ n → n ≠ 0 →
  (0 <= (Z.of_nat m # Pos.of_nat n) * 100)%Q
  ∧ ((Z.of_nat m # Pos.of_nat n) * 100 <= 100)%Q.
Proof.
  intros Hm Hn. unfold Qle, Qmult. simpl.
  rewrite Pos2Z.inj_mul, <-(positive_nat_Z (Pos.of_nat n)), Nat2Pos.id by done.
  lia.
Qed.
End TallyFacts.

(** ** The similarity score *)

Lemma list_ascii_of_string_inj (s t : string) :
  list_ascii_of_string s = list_ascii_of_string t → s = t.
Proof.
  intros E. rewrite <-(string_of_list_ascii_of_string s),
    <-(string_of_list_ascii_of_string t). by rewrite E.
Qed.

(** The score of the character lists of two strings. *)
Lemma ratio_one_strings (a b : string) :
  (Difflib.ratio (list_ascii_of_string a) (list_ascii_of_string b) == 1)%Q
  ↔ a = b.
Proof.
  rewrite MatchFacts.ratio_one_iff. split.
  - apply list_ascii_of_string_inj.
  - by intros ->.
Qed.

(** X3: the score of two strings equals 1 exactly when the strings are
    identical: no two different strings score 1. *)
Theorem similar_one_iff (a b : string) :
  (similar (Some a) (Some b) == 1)%Q ↔ a = b.
Proof.
  unfold similar. rewrite MatchFacts.ratio_one_iff. split.
  - intros E. rewrite <-(string_of_list_ascii_of_string a),
      <-(string_of_list_ascii_of_string b). by rewrite E.
  - by intros ->.
Qed.

(** X4: two strings that have no character in common, not both empty,
    score 0. *)
Theorem similar_no_common_character (a b : string) :
  Forall (λ c, c ∉ list_ascii_of_string b) (list_ascii_of_string a) →
  a ≠ "" ∨ b ≠ "" →
  (similar (Some a) (Some b) == 0)%Q.
Proof.
  intros Hd Hne. unfold similar. apply MatchFacts.ratio_disjoint.
  - intros x Hx. by apply (proj1 (Forall_forall _ _) Hd).
  - intros [Ha Hb]%app_eq_nil. destruct Hne as [Hne|Hne]; apply Hne.
    + by apply list_ascii_of_string_inj.
    + by apply list_ascii_of_string_inj.
Qed.

Lemma similar_no_common_character_witness :
  (similar (Some "gallo") (Some "sten") == 0)%Q.
Proof.
  apply (similar_no_common_character "gallo" "sten").
  - apply (bool_decide_unpack _). vm_compute. exact I.
  - left. discriminate.
Defined.

(** ** The matching loops *)

(** X5: at the threshold 1.0 a record matches exactly when it has a
    translation in the comparison language that is spelled as the word
    itself, and is no proper noun. *)
Theorem is_match_exact (d : dialect) (e : DictEntry) :
  is_match d 1 e = true
  ↔ translations e !! lang_of d = Some (word e) ∧ pos e ≠ "Proper noun".
Proof.
  unfold is_match.
  rewrite andb_true_iff, negb_true_iff, bool_decide_eq_false, Qle_bool_iff.
  split; intros [Hs Hp]; split; try done.
  - destruct (translations e !! lang_of d) as [t|] eqn:Et.
    + f_equal. symmetry. apply ratio_one_strings.
      apply Qle_antisym; [|done].
      apply (DifflibFacts.ratio_range
               (list_ascii_of_string (word e)) (list_ascii_of_string t)).
    + simpl in Hs. by apply Qle_bool_iff in Hs.
  - rewrite Hs. apply Qle_lteq. right. symmetry. by apply ratio_one_strings.
Qed.

(** X6: lowering the threshold never loses a match: the records matched
    at a threshold are among those matched at any lower threshold, in the
    same order, so the matched count of a pass does not decrease from one
    pass to the next when the thresholds decrease. *)
Theorem matched_antitone (d : dialect) (th1 th2 : Q) (words : list DictEntry)
    (g1 g2 : globals) :
  (th1 <= th2)%Q →
  matched d th2 words `sublist_of` matched d th1 words
  ∧ length (words_matched (foldl (match_entry d th2) (g2, locals_init) words).2)
    ≤ length (words_matched (foldl (match_entry d th1) (g1, locals_init) words).2).
Proof.
  intros Hth.
  assert (matched d th2 words `sublist_of` matched d th1 words) as Hs.
  { apply LoopFacts.filter_sublist_impl. intros x Hx.
    apply Is_true_true. eapply LoopFacts.is_match_mono; [done|].
    by apply Is_true_true. }
  split; [done|].
  destruct (foldl_match_entry_locals d th2 words g2 locals_init) as (-> & _).
  destruct (foldl_match_entry_locals d th1 words g1 locals_init) as (-> & _).
  cbn [words_matched locals_init app]. rewrite !length_map.
  by apply sublist_length.
Qed.

Lemma matched_antitone_witness :
  matched Pite 1 [bussa] `sublist_of` matched Pite (8 # 10) [bussa].
Proof.
  apply (matched_antitone Pite (8 # 10) 1 [bussa] globals_init globals_init).
  vm_compute. discriminate.
Defined.

(** X7: after a run that completed, the cumulative list of a dialect is
    the concatenation, over the thresholds in order, of the records
    matched at each threshold, with the records whose word was already
    seen removed; the "new match" lines of the report carry exactly the
    words of that list, in that order. *)
Theorem run_matches_so_far (d : dialect) (psm nsm : list DictEntry)
    (ths : list Q) :
  (run psm nsm ths).2 = Ok () →
  matches_so_far d (run psm nsm ths).1
  = remove_repeats DictEntry_eq
      (concat (map (λ th, matched d th (words_of d psm nsm)) ths))
  ∧ new_words d (f (run psm nsm ths).1)
    = map word
        (remove_repeats DictEntry_eq
           (concat (map (λ th, matched d th (words_of d psm nsm)) ths))).
Proof.
  intros Hok. unfold run in *.
  pose proof (LoopFacts.threshold_loop_so_far d psm nsm ths globals_init Hok) as E.
  destruct (steps_report_inv _ _ (threshold_loop_steps psm nsm ths globals_init)
              report_inv_init d) as [Hw _].
  rewrite Hw, E. by destruct d.
Qed.

Lemma run_matches_so_far_witness :
  matches_so_far Pite (run [bussa] [bussa] threshholds).1
  = remove_repeats DictEntry_eq
      (concat (map (λ th, matched Pite th (words_of Pite [bussa] [bussa]))
                 threshholds)).
Proof.
  apply (run_matches_so_far Pite [bussa] [bussa] threshholds).
  vm_compute. reflexivity.
Defined.

(** X8: no match is lost: a record of a word list that matches at one of
    the thresholds of a completed run has its word on exactly one "new
    match" line of its dialect. *)
Theorem matched_reported_once (d : dialect) (psm nsm : list DictEntry)
    (ths : list Q) (th : Q) (e : DictEntry) :
  (run psm nsm ths).2 = Ok () →
  th ∈ ths → e ∈ words_of d psm nsm → is_match d th e = true →
  length (filter (λ w, w = word e) (new_words d (f (run psm nsm ths).1))) = 1.
Proof.
  intros Hok Hth He Hm. unfold run in *.
  destruct (steps_report_inv _ _ (threshold_loop_steps psm nsm ths globals_init)
              report_inv_init d) as [Hw Hn].
  rewrite Hw.
  pose proof (NoDup_filter_eq_length (word e) _ Hn) as Hle.
  assert (word e ∈ map word (matches_so_far d (threshold_loop psm nsm ths globals_init).1))
    as Hin.
  { rewrite (LoopFacts.threshold_loop_so_far d psm nsm ths globals_init Hok).
    apply LoopFacts.loop_words. right.
    apply (list_elem_of_fmap_2 word).
    apply list_elem_of_In, in_concat.
    exists (matched d th (words_of d psm nsm)). split.
    - apply list_elem_of_In.
      by apply (list_elem_of_fmap_2 (λ th, matched d th (words_of d psm nsm))).
    - apply list_elem_of_In, list_elem_of_filter.
      split; [by apply Is_true_true|done]. }
  destruct (filter (λ w, w = word e) _) as [|w l] eqn:Ef.
  - exfalso. eapply (elem_of_nil (word e)). rewrite <-Ef.
    by apply list_elem_of_filter.
  - simpl in *. lia.
Qed.

Lemma matched_reported_once_witness :
  length (filter (λ w, w = word bussa)
            (new_words Pite (f (run [bussa] [bussa] threshholds).1))) = 1.
Proof.
  apply (matched_reported_once Pite [bussa] [bussa] threshholds (8 # 10) bussa).
  - vm_compute. reflexivity.
  - unfold threshholds. do 3 right. left.
  - apply (bool_decide_unpack _). vm_compute. exact I.
  - vm_compute. reflexivity.
Defined.

(** X9: the part-of-speech tally of a matching loop lists the parts of
    speech of the matched records once each, in the order of their first
    match; the count of a part of speech is the number of matched records
    that carry it, and the counts add up to the matched count. *)
Theorem pos_counter_tally (d : dialect) (th : Q) (words : list DictEntry)
    (g : globals) :
  let l := (foldl (match_entry d th) (g, locals_init) words).2 in
  (pos_counter l).*1 = remove_repeats py_eq (map pos (matched d th words))
  ∧ (∀ p, counter_get (pos_counter l) p
          = length (filter (λ e, pos e = p) (matched d th words)))
  ∧ sum_list (pos_counter l).*2 = length (words_matched l)
  ∧ Forall (λ pn, 0 < pn.2) (pos_counter l).
Proof.
  intros l. subst l.
  destruct (LoopFacts.foldl_match_entry_spec d th words g locals_init)
    as (_ & _ & -> & _).
  destruct (foldl_match_entry_locals d th words g locals_init) as (-> & _).
  destruct (TallyFacts.tally_spec [] (matched d th words)) as (H1 & H2 & H3 & H4).
  cbn [pos_counter words_matched locals_init app]. split_and!.
  - exact H2.
  - intros p. by rewrite H1.
  - rewrite H3, length_map. done.
  - apply H4. constructor.
Qed.

Lemma pass_matched_le d th (words : list DictEntry) :
  length (matched d th words) ≤ length words.
Proof. apply length_filter. Qed.

(** X10: the report of one dialect's half of a pass over a non-empty word
    list: the header, the "new match" lines of this dialect, the summary,
    one line per tallied part of speech, a blank line.  The summary
    carries the matched count, the number of "new match" lines and the
    threshold as a percentage; every percentage of the block lies between
    0 and 100. *)
Theorem dialect_pass_report (d : dialect) (th : Q) (words : list DictEntry)
    (g : globals) :
  words ≠ [] →
  let m := length (matched d th words) in
  let counter := foldl (λ c e, count_pos (pos e) c) [] (matched d th words) in
  let percent (n k : nat) := ((Z.of_nat n # Pos.of_nat k) * 100)%Q in
  ∃ lines,
    f (dialect_pass d th words g).1
    = f g ++ NewHeader d :: lines
        ++ Summary d m (percent m (length words)) (length lines) (th * 100)%Q
        :: map (λ pn, PosLine d pn.1 pn.2 (percent pn.2 m)) counter
        ++ [Blank]
    ∧ Forall (is_new_match d) lines
    ∧ (0 <= percent m (length words))%Q ∧ (percent m (length words) <= 100)%Q
    ∧ Forall (λ pn, (0 <= percent pn.2 m)%Q ∧ (percent pn.2 m <= 100)%Q) counter.
Proof.
  intros Hne m counter percent.
  assert (length words ≠ 0) as Hlen by (by destruct words).
  unfold dialect_pass. cbv zeta.
  pose proof (LoopFacts.foldl_match_entry_spec d th words
                (write (NewHeader d) g) locals_init) as (_ & _ & Hc & lines & Hf & Hl & Hn).
  pose proof (foldl_match_entry_locals d th words (write (NewHeader d) g)
                locals_init) as (Hw & _).
  destruct (foldl (match_entry d th) (write (NewHeader d) g, locals_init) words)
    as [g1 l1].
  cbn [fst snd] in *. cbn [words_matched pos_counter new_counter locals_init app] in *.
  assert (length (words_matched l1) = m) as Em.
  { rewrite Hw, length_map. done. }
  rewrite Em. rewrite true_div_ok by done.
  destruct (TallyFacts.tally_spec [] (matched d th words)) as (_ & _ & Hsum & Hpos).
  fold counter in Hsum, Hpos. rewrite Hc. fold counter.
  assert (counter ≠ [] → m ≠ 0) as Hm.
  { intros Hcn Hm0. unfold m in Hm0. rewrite Hm0 in Hsum.
    specialize (Hpos ltac:(constructor)).
    destruct counter as [|[p n] counter']; [done|].
    apply Forall_cons in Hpos as [Hp _]. rewrite fmap_cons in Hsum.
    rewrite DifflibFacts.sum_list_cons in Hsum. simpl in *. lia. }
  pose proof (TallyFacts.write_pos_lines_f d counter m
    (write (Summary d m ((Z.of_nat m # Pos.of_nat (length words)) * 100)
              (new_counter l1) (th * 100)) g1) Hm) as Hpl.
  pose proof (write_pos_lines_ok d counter m
    (write (Summary d m ((Z.of_nat m # Pos.of_nat (length words)) * 100)
              (new_counter l1) (th * 100)) g1) Hm) as Hok.
  destruct (write_pos_lines d counter m _) as [g2 r2]. simpl in Hok, Hpl.
  subst r2. exists lines. cbn [fst]. split_and!.
  - rewrite f_write, Hpl, Hf, f_write, Hn. unfold percent.
    rewrite <-!app_assoc. reflexivity.
  - done.
  - apply TallyFacts.percent_range; [apply pass_matched_le|done].
  - apply TallyFacts.percent_range; [apply pass_matched_le|done].
  - apply Forall_forall. intros [p n] Hin. cbn [snd].
    apply TallyFacts.percent_range.
    + pose proof (TallyFacts.counter_get_elem_of counter p n Hin) as Hle.
      rewrite Hsum in Hle. simpl in Hle. unfold m. lia.
    + apply Hm. intros ->. by apply elem_of_nil in Hin.
Qed.

Lemma dialect_pass_report_witness :
  ∃ lines,
    f (dialect_pass Pite (8 # 10) [bussa] globals_init).1
    = f globals_init ++ NewHeader Pite :: lines
        ++ Summary Pite 1 ((Z.of_nat 1 # Pos.of_nat 1) * 100)%Q
             (length lines) ((8 # 10) * 100)%Q
        :: [PosLine Pite "Noun" 1 ((Z.of_nat 1 # Pos.of_nat 1) * 100)%Q]
        ++ [Blank].
Proof.
  destruct (dialect_pass_report Pite (8 # 10) [bussa] globals_init)
    as (lines & Hf & _); [discriminate|].
  exists lines. exact Hf.
Defined.

Module LineFacts.
Import CodecFacts.

Lemma append_empty_r (s : string) : s +:+ "" = s.
Proof. induction s as [|c s IH]; [done|]. by rewrite append_cons, IH. Qed.

Lemma readlines_cons c s :
  Py.readlines (String c s)
  = if decide (c = Py.nl) then String c "" :: Py.readlines s
    else match Py.readlines s with
         | h :: t => String c h :: t
         | [] => [String c ""]
         end.
Proof. reflexivity. Qed.


Lemma readlines_last s :
  s ≠ "" → ¬ Py.contains Py.nl s → Py.readlines s = [s].
Proof.
  induction s as [|c s IH]; [done|]. intros _ Hc.
  rewrite contains_String in Hc. rewrite readlines_cons.
  rewrite decide_False by (intros ->; apply Hc; by left).
  destruct s as [|c' s]; [done|]. rewrite IH; [done|done|tauto].
Qed.

Lemma lines_shape_all s : lines_shape s.
Proof.
  induction s as [|c s IH]; [constructor|].
  destruct (decide (c = Py.nl)) as [->|Hc].
  - apply (shape_line "" s); [apply contains_empty|done].
  - inversion IH as [E|line rest Hl Hr E|s' Hs Hn E].
    + apply shape_last; [done|]. rewrite contains_String.
      pose proof (contains_empty Py.nl). intros [?|?]; by subst.
    + apply (shape_line (String c line) rest); [|done].
      rewrite contains_String. intros [?|?]; by subst.
    + apply shape_last; [done|]. rewrite contains_String.
      intros [?|?]; by subst.
Qed.

Lemma split_max_cons sep n c s :
  Py.split_max sep (S n) (String c s)
  = if decide (c = sep) then "" :: Py.split_max sep n s
    else match Py.split_max sep (S n) s with
         | h :: t => String c h :: t
         | [] => [String c ""]
         end.
Proof. reflexivity. Qed.

Lemma split_max_length sep n s :
  length (Py.split_max sep n s) = S (n `min` count_sep sep s).
Proof.
  revert n. induction s as [|c s IH]; intros n.
  { simpl. f_equal. lia. }
  destruct n as [|n]; [done|].
  rewrite split_max_cons. cbn [count_sep]. case_decide.
  - cbn [length]. rewrite IH. lia.
  - specialize (IH (S n)).
    destruct (Py.split_max sep (S n) s) as [|h t]; [done|].
    cbn [length] in *. rewrite IH. lia.
Qed.

Lemma join_cons sep s h t :
  join sep (s :: h :: t) = s +:+ String sep (join sep (h :: t)).
Proof. reflexivity. Qed.

Lemma split_max_join sep n s : join sep (Py.split_max sep n s) = s.
Proof.
  revert n. induction s as [|c s IH]; intros n; [done|].
  destruct n as [|n]; [done|].
  rewrite split_max_cons. case_decide as Hc.
  - specialize (IH n). pose proof (split_max_length sep n s) as Hl.
    destruct (Py.split_max sep n s) as [|h t]; [done|].
    rewrite join_cons, IH, append_nil. by subst.
  - specialize (IH (S n)). pose proof (split_max_length sep (S n) s) as Hl.
    destruct (Py.split_max sep (S n) s) as [|h [|h' t]]; [done|..].
    + simpl in *. by subst.
    + rewrite join_cons in *. rewrite append_cons. by rewrite IH.
Qed.

(** The pieces before the last possible cut hold no separator. *)
Lemma split_max_fields sep n s i p :
  i < n → Py.split_max sep n s !! i = Some p → ¬ Py.contains sep p.
Proof.
  revert n i p. induction s as [|c s IH]; intros n i p Hi Hp.
  { destruct i; [|done]. simpl in Hp. injection Hp as <-. apply contains_empty. }
  destruct n as [|n]; [lia|].
  rewrite split_max_cons in Hp. case_decide as Hc.
  - destruct i as [|i]; simpl in Hp.
    + injection Hp as <-. apply contains_empty.
    + apply (IH n i); [lia|done].
  - pose proof (IH (S n)) as IH'.
    destruct (Py.split_max sep (S n) s) as [|h t].
    + destruct i; [|done]. simpl in Hp. injection Hp as <-.
      rewrite contains_String. pose proof (contains_empty sep).
      intros [?|?]; by subst.
    + destruct i as [|i]; simpl in Hp.
      * injection Hp as <-. rewrite contains_String.
        intros [?|Hh]; [by subst|]. by apply (IH' 0 h).
      * apply (IH' (S i) p); [lia|done].
Qed.

Lemma contains_join c sep pieces p :
  p ∈ pieces → Py.contains c p → Py.contains c (join sep pieces).
Proof.
  induction pieces as [|s [|h t] IH]; intros Hp Hc.
  - by apply elem_of_nil in Hp.
  - apply list_elem_of_singleton in Hp. by subst.
  - rewrite join_cons, contains_app, contains_String.
    apply elem_of_cons in Hp as [->|Hp]; [by left|]. right. right. by apply IH.
Qed.

Lemma contains_drop_last c s :
  Py.contains c (Py.drop_last s) → Py.contains c s.
Proof.
  induction s as [|x s IH]; [done|].
  destruct s as [|y s].
  - simpl. by intros ?%contains_empty.
  - change (Py.drop_last (String x (String y s)))
      with (String x (Py.drop_last (String y s))).
    rewrite !(contains_String c x). tauto.
Qed.

(** *** One line *)

Lemma word_entry_of_fields w p swe nor eng :
  word (entry_of_fields w p swe nor eng) = w.
Proof.
  unfold entry_of_fields, store_translation. by repeat case_bool_decide.
Qed.

Lemma pos_entry_of_fields w p swe nor eng :
  pos (entry_of_fields w p swe nor eng) = p.
Proof.
  unfold entry_of_fields, store_translation. by repeat case_bool_decide.
Qed.

Lemma lookup_entry_of_fields w p swe nor eng k :
  translations (entry_of_fields w p swe nor eng) !! k
  = if decide (k = "eng" ∧ eng ≠ "") then Some eng
    else if decide (k = "nor" ∧ nor ≠ "") then Some nor
    else if decide (k = "swe" ∧ swe ≠ "") then Some swe
    else None.
Proof.
  unfold entry_of_fields. rewrite !lookup_store_translation. simpl.
  by rewrite lookup_empty.
Qed.

Lemma translations_entry_of_fields w p swe nor eng :
  translation_or_empty "swe" (entry_of_fields w p swe nor eng) = swe
  ∧ translation_or_empty "nor" (entry_of_fields w p swe nor eng) = nor
  ∧ translation_or_empty "eng" (entry_of_fields w p swe nor eng) = eng.
Proof.
  unfold translation_or_empty. rewrite !lookup_entry_of_fields.
  split_and!; repeat case_decide; destruct_and?; simplify_eq; simpl;
    try done;
    match goal with
    | |- "" = ?x =>
        destruct (decide (x = "")) as [->|?]; [done|exfalso; naive_solver]
    end.
Qed.

Lemma kept_entry_of_fields w p swe nor eng :
  map_Forall (λ lang v, kept (lang, v))
    (translations (entry_of_fields w p swe nor eng)).
Proof.
  intros k v. rewrite lookup_entry_of_fields. unfold kept. simpl.
  repeat case_decide; intros [= <-]; destruct_and?; subst; set_solver.
Qed.

Lemma format_entry_of_fields w p swe nor eng :
  format_entry (entry_of_fields w p swe nor eng)
  = join ";" [w; p; swe; nor; eng] +:+ String Py.nl "".
Proof.
  unfold format_entry.
  destruct (translations_entry_of_fields w p swe nor eng) as (-> & -> & ->).
  rewrite word_entry_of_fields, pos_entry_of_fields.
  rewrite !join_cons. cbn [join].
  repeat (rewrite append_assoc || rewrite append_cons || rewrite append_nil).
  done.
Qed.

(** What reading one line gives. *)
Lemma read_line_cases line :
  (enough_fields line
   ∧ ∃ w p swe nor eng,
       Py.split_max ";" 4 (Py.drop_last line) = [w; p; swe; nor; eng]
       ∧ read_line line = Ok (entry_of_fields w p swe nor eng))
  ∨ (¬ enough_fields line ∧ read_line line = Raise IndexError).
Proof.
  unfold enough_fields, read_line.
  pose proof (split_max_length ";" 4 (Py.drop_last line)) as Hl.
  destruct (Py.split_max ";" 4 (Py.drop_last line))
    as [|w [|p [|swe [|nor [|eng rest]]]]];
    cbn [length] in Hl; try (right; split; [lia|done]).
  left. split; [lia|]. destruct rest; [|cbn [length] in Hl; lia].
  by exists w, p, swe, nor, eng.
Qed.

Lemma read_line_format line e :
  read_line line = Ok e →
  format_entry e = Py.drop_last line +:+ String Py.nl "".
Proof.
  intros He.
  destruct (read_line_cases line) as [(_ & w & p & swe & nor & eng & Hs & E)|[_ E]];
    [|congruence].
  rewrite He in E. injection E as ->.
  rewrite format_entry_of_fields, <-Hs. by rewrite split_max_join.
Qed.

Lemma read_line_line_ok line e :
  ¬ Py.contains Py.nl (Py.drop_last line) →
  read_line line = Ok e →
  line_ok e ∧ map_Forall (λ lang v, kept (lang, v)) (translations e).
Proof.
  intros Hnl He.
  destruct (read_line_cases line) as [(_ & w & p & swe & nor & eng & Hs & E)|[_ E]];
    [|congruence].
  rewrite He in E. injection E as ->. split; [|apply kept_entry_of_fields].
  assert (∀ x, x ∈ [w; p; swe; nor; eng] → ¬ Py.contains Py.nl x) as Hn.
  { intros x Hx Hc. apply Hnl.
    rewrite <-(split_max_join ";" 4 (Py.drop_last line)), Hs.
    by apply (contains_join _ _ _ x). }
  assert (∀ i x, i < 4 → [w; p; swe; nor; eng] !! i = Some x → field_ok x) as Hf.
  { intros i x Hi Hx. split.
    - apply (split_max_fields ";" 4 (Py.drop_last line) i); [done|].
      by rewrite Hs.
    - apply Hn. by apply list_elem_of_lookup_2 in Hx. }
  unfold line_ok.
  destruct (translations_entry_of_fields w p swe nor eng) as (-> & -> & ->).
  rewrite word_entry_of_fields, pos_entry_of_fields.
  split_and!.
  - apply (Hf 0); [lia|done].
  - apply (Hf 1); [lia|done].
  - apply (Hf 2); [lia|done].
  - apply (Hf 3); [lia|done].
  - apply Hn. set_solver.
Qed.

(** *** The lines of a file *)

Lemma read_lines_acc lines acc :
  read_lines lines acc
  = match read_lines lines [] with
    | Ok l => Ok (acc ++ l)
    | Raise e => Raise e
    end.
Proof.
  revert acc. induction lines as [|line lines IH]; intros acc.
  { simpl. by rewrite app_nil_r. }
  cbn [read_lines]. case_bool_decide; [apply IH|].
  destruct (read_line line) as [e|x]; simpl; [|done].
  rewrite (IH (acc ++ [e])), (IH [e]).
  destruct (read_lines lines []); [|done]. by rewrite <-app_assoc.
Qed.

Lemma read_lines_cons line lines :
  line ≠ "" →
  read_lines (line :: lines) []
  = match read_line line with
    | Ok e => match read_lines lines [] with
              | Ok l => Ok (e :: l)
              | Raise x => Raise x
              end
    | Raise x => Raise x
    end.
Proof.
  intros Hl. cbn [read_lines]. rewrite bool_decide_eq_false_2 by done.
  destruct (read_line line) as [e|x]; simpl; [|done].
  by rewrite read_lines_acc.
Qed.


(** *** Reading, then writing *)

Lemma terminated_cons c s : s ≠ "" → terminated (String c s) = terminated s.
Proof. by destruct s. Qed.

Lemma drop_last_cons c s :
  s ≠ "" → Py.drop_last (String c s) = String c (Py.drop_last s).
Proof. by destruct s. Qed.

Lemma terminated_app s rest :
  rest ≠ "" → terminated (s +:+ rest) = terminated rest.
Proof.
  intros Hr. induction s as [|c s IH]; [done|].
  rewrite append_cons, terminated_cons; [done|]. by destruct s, rest.
Qed.

Lemma drop_last_app s rest :
  rest ≠ "" → Py.drop_last (s +:+ rest) = s +:+ Py.drop_last rest.
Proof.
  intros Hr. induction s as [|c s IH]; [done|].
  rewrite !append_cons, drop_last_cons, IH; [done|]. by destruct s, rest.
Qed.

Lemma terminated_last s :
  s ≠ "" → ¬ Py.contains Py.nl s → terminated s = false.
Proof.
  induction s as [|c s IH]; [done|]. intros _ Hc.
  rewrite contains_String in Hc. destruct s as [|c' s].
  - simpl. apply bool_decide_eq_false_2. intros ->. apply Hc. by left.
  - rewrite terminated_cons by done. apply IH; [done|tauto].
Qed.

Lemma closed_line line rest :
  closed (line +:+ String Py.nl rest) = line +:+ String Py.nl (closed rest).
Proof.
  unfold closed. destruct (decide (rest = "")) as [->|Hr].
  - change (terminated "") with true. cbn iota.
    replace (terminated (line +:+ String Py.nl "")) with true; [done|].
    clear. induction line as [|c line IH]; [done|].
    rewrite append_cons, terminated_cons; [done|]. by destruct line.
  - change (line +:+ String Py.nl rest)
      with (line +:+ (String Py.nl "" +:+ rest)).
    rewrite <-append_assoc, terminated_app by done.
    destruct (terminated rest); [by rewrite append_assoc|].
    rewrite drop_last_app by done. rewrite !append_assoc. done.
Qed.

Lemma read_lines_shape content :
  lines_shape content → ∀ l,
  read_lines (Py.readlines content) [] = Ok l →
  writeWordlistFile l = closed content
  ∧ Forall (λ e, line_ok e
                 ∧ map_Forall (λ lang v, kept (lang, v)) (translations e)) l.
Proof.
  induction 1 as [|line rest Hline Hrest IH|s Hs Hn]; intros l Hl.
  - simpl in Hl. injection Hl as <-. by split.
  - rewrite readlines_line in Hl by done.
    rewrite read_lines_cons in Hl by (by destruct line).
    destruct (read_line (line +:+ String Py.nl "")) as [e|] eqn:Ee; [|done].
    destruct (read_lines (Py.readlines rest) []) as [l'|] eqn:El; [|done].
    injection Hl as <-. destruct (IH l' eq_refl) as [IH1 IH2].
    split.
    + cbn [writeWordlistFile].
      rewrite (read_line_format _ _ Ee), drop_last_snoc, IH1, closed_line.
      by rewrite append_assoc.
    + constructor; [|done].
      apply (read_line_line_ok (line +:+ String Py.nl "")); [|done].
      by rewrite drop_last_snoc.
  - rewrite readlines_last in Hl by done.
    rewrite read_lines_cons in Hl by done.
    destruct (read_line s) as [e|] eqn:Ee; [|done].
    cbn [read_lines] in Hl. injection Hl as <-. split.
    + cbn [writeWordlistFile]. rewrite (read_line_format _ _ Ee).
      unfold closed. rewrite terminated_last by done.
      apply append_empty_r.
    + constructor; [|done]. apply (read_line_line_ok s); [|done].
      intros Hc. by apply Hn, contains_drop_last.
Qed.

(** *** Writing, then reading, with the separator in the last field *)

Lemma translation_or_empty_decoded lang e :
  lang ∈ ["swe"; "nor"; "eng"] →
  translation_or_empty lang (decoded e) = translation_or_empty lang e.
Proof.
  intros Hl. unfold translation_or_empty, decoded. simpl.
  destruct (translations e !! lang) as [v|] eqn:E.
  - destruct (decide (v = "")) as [->|Hv].
    + rewrite map_lookup_filter_None_2; [done|]. right. intros v' E' [_ Hk].
      simpl in *. congruence.
    + by rewrite (map_lookup_filter_Some_2 _ _ lang v E).
  - rewrite map_lookup_filter_None_2; [done|]. by left.
Qed.

Lemma format_entry_decoded e : format_entry (decoded e) = format_entry e.
Proof.
  unfold format_entry.
  rewrite !translation_or_empty_decoded by set_solver. done.
Qed.

Lemma read_lines_write_line_ok word_list :
  Forall line_ok word_list →
  read_lines (Py.readlines (writeWordlistFile word_list)) []
  = Ok (map decoded word_list).
Proof.
  induction 1 as [|e word_list He Hok IH]; [done|].
  cbn [writeWordlistFile].
  assert (∃ body, ¬ Py.contains Py.nl body
                  ∧ format_entry e = body +:+ String Py.nl "")
    as (body & Hbody & Ebody).
  { eexists. split; [|unfold format_entry; rewrite <-!append_assoc; done].
    destruct He as ([_ ?] & [_ ?] & [_ ?] & [_ ?] & ?).
    assert (¬ Py.contains Py.nl ";") as Hsemi.
    { intros Hc%contains_String. destruct Hc as [Hc|Hc%elem_of_nil]; done. }
    rewrite !contains_app. tauto. }
  rewrite Ebody at 1.
  rewrite append_assoc, append_cons, append_nil, readlines_line by done.
  rewrite read_lines_cons by (by destruct body).
  destruct He as (? & ? & ? & ? & ?).
  rewrite <-Ebody, read_line_format_entry, stored_decoded by done.
  by rewrite IH.
Qed.
End LineFacts.


(** X12: the separator may occur in the English field, and a translation
    into a language the format has no column for is not constrained: when
    the word, the part of speech and the Swedish and Norwegian fields of
    every record hold no separator and no line end, and the English field
    no line end, the file written is read back as the decoded records.
    Writing the decoded records gives the same file. *)
Theorem wordlist_round_trip_last_field (word_list : list DictEntry) :
  Forall line_ok word_list →
  readWordlistFile (writeWordlistFile word_list) = Ok (map decoded word_list)
  ∧ writeWordlistFile (map decoded word_list) = writeWordlistFile word_list.
Proof.
  intros Hok. split.
  - by apply LineFacts.read_lines_write_line_ok.
  - clear Hok. induction word_list as [|e l IH]; [done|].
    cbn [map writeWordlistFile]. by rewrite LineFacts.format_entry_decoded, IH.
Qed.

Lemma wordlist_round_trip_last_field_witness :
  readWordlistFile
    (writeWordlistFile
       [mkDictEntry "girjje" "Noun"
          {["eng" := "book; letter"; "fin" := "kirja;"]}])
  = Ok (map decoded
          [mkDictEntry "girjje" "Noun"
             {["eng" := "book; letter"; "fin" := "kirja;"]}]).
Proof.
  apply (wordlist_round_trip_last_field
           [mkDictEntry "girjje" "Noun"
              {["eng" := "book; letter"; "fin" := "kirja;"]}]).
  apply (bool_decide_unpack _). vm_compute. exact I.
Defined.

(** X13: a file that [readWordlistFile] reads is written back unchanged
    by [writeWordlistFile] when it is empty or ends with a line end;
    otherwise the last character of the file is lost and a line end is
    written in its place.  The records read are read back unchanged from
    the file written. *)
Theorem read_then_write (content : string) (word_list : list DictEntry) :
  readWordlistFile content = Ok word_list →
  writeWordlistFile word_list
  = (if terminated content then content
     else Py.drop_last content +:+ String Py.nl "")
  ∧ readWordlistFile (writeWordlistFile word_list) = Ok word_list.
Proof.
  intros Hr.
  destruct (LineFacts.read_lines_shape content
              (LineFacts.lines_shape_all content) word_list Hr) as [Hw Hok].
  split; [exact Hw|].
  unfold readWordlistFile.
  rewrite LineFacts.read_lines_write_line_ok.
  - f_equal. clear Hw Hr. induction Hok as [|e l [_ He] _ IH]; [done|].
    cbn [map]. rewrite IH. f_equal. apply CodecFacts.decoded_id.
    intros lang v. apply He.
  - eapply Forall_impl; [exact Hok|]. by intros e [? _].
Qed.

Lemma read_then_write_witness :
  writeWordlistFile [mkDictEntry "bussa" "Noun" {["swe" := "buss"; "eng" := "bu"]}]
  = "bussa;Noun;buss;;bu" +:+ String Py.nl "".
Proof.
  apply (read_then_write "bussa;Noun;buss;;bus"
           [mkDictEntry "bussa" "Noun" {["swe" := "buss"; "eng" := "bu"]}]).
  vm_compute. reflexivity.
Defined.

Module ReaderFacts.
Import CodecFacts LineFacts.

(** *** Stripping and cutting keep no character that was not there *)

Lemma contains_lstrip_by c p s :
  Py.contains c (Py.lstrip_by p s) → Py.contains c s.
Proof.
  induction s as [|x s IH]; [done|]. cbn [Py.lstrip_by].
  destruct (p x); [|done]. rewrite contains_String. auto.
Qed.

Lemma rstrip_by_cons p x s :
  Py.rstrip_by p (String x s)
  = match Py.rstrip_by p s with
    | "" => if p x then "" else String x ""
    | r => String x r
    end.
Proof. reflexivity. Qed.

Lemma contains_rstrip_by c p s :
  Py.contains c (Py.rstrip_by p s) → Py.contains c s.
Proof.
  induction s as [|x s IH]; [done|]. rewrite rstrip_by_cons.
  destruct (Py.rstrip_by p s) as [|y r] eqn:E.
  - destruct (p x); [by intros ?%contains_empty|].
    rewrite !contains_String. intros [?|?%contains_empty]; [by left|done].
  - rewrite !(contains_String c x). intros [?|Hc]; [by left|right; by apply IH].
Qed.

Lemma contains_strip c s : Py.contains c (Py.strip s) → Py.contains c s.
Proof.
  unfold Py.strip. intros Hc. by apply contains_rstrip_by, contains_lstrip_by in Hc.
Qed.

Lemma contains_split0 c sep s :
  Py.contains c (Py.split0 sep s) → c ≠ sep ∧ Py.contains c s.
Proof.
  unfold Py.split0, Py.split.
  pose proof (split_max_join sep (String.length s) s) as Hj.
  pose proof (split_max_fields sep (String.length s) s 0) as Hf.
  destruct (Py.split_max sep (String.length s) s) as [|h t] eqn:E; simpl.
  { by intros ?%contains_empty. }
  intros Hc. split.
  - intros ->. destruct s as [|x s].
    + simpl in E. injection E as <- <-. by apply contains_empty in Hc.
    + apply (Hf h); [simpl; lia|done|done].
  - rewrite <-Hj. apply (contains_join _ _ _ h); [by left|done].
Qed.

(** *** [update_last] *)

Ltac if_in H :=
  match type of H with
  | context [if bool_decide ?P then _ else _] =>
      destruct (decide P);
      [rewrite (bool_decide_eq_true_2 P) in H by done
      |rewrite (bool_decide_eq_false_2 P) in H by done]
  end.

Lemma update_last_cons {A} (f : A → A) x y l :
  update_last f (x :: y :: l)
  = match update_last f (y :: l) with
    | Ok r => Ok (x :: r)
    | Raise e => Raise e
    end.
Proof. reflexivity. Qed.

Lemma update_last_snoc {A} (f : A → A) l0 x :
  update_last f (l0 ++ [x]) = Ok (l0 ++ [f x]).
Proof.
  induction l0 as [|a l0 IH]; [done|].
  change ((a :: l0) ++ [x]) with (a :: (l0 ++ [x])).
  destruct (l0 ++ [x]) as [|y r] eqn:E; [by destruct l0|].
  by rewrite update_last_cons, IH.
Qed.

Lemma update_last_inv {A} (f : A → A) l l' :
  update_last f l = Ok l' → ∃ l0 x, l = l0 ++ [x] ∧ l' = l0 ++ [f x].
Proof.
  destruct l as [|x l _] using rev_ind; [done|].
  rewrite update_last_snoc. intros [= <-]. by exists l, x.
Qed.


Lemma update_last_ok {A} (f : A → A) l :
  l ≠ [] → ∃ l', update_last f l = Ok l' ∧ l' ≠ [].
Proof.
  destruct l as [|x l _] using rev_ind; [done|]. intros _.
  rewrite update_last_snoc. eexists. split; [done|]. by destruct l.
Qed.

Lemma pop_snoc {A} (l : list A) x : pop (l ++ [x]) = Ok l.
Proof.
  unfold pop. destruct (l ++ [x]) eqn:E; [by destruct l|].
  rewrite <-E. by rewrite removelast_last.
Qed.

Section last_edited.
Context {A : Type} (edit : A → A → Prop).
Hypothesis edit_refl : ∀ x, edit x x.
Hypothesis edit_trans : ∀ x y z, edit x y → edit y z → edit x z.

Lemma last_edited_refl l : last_edited edit l l.
Proof. by left. Qed.

Lemma last_edited_trans l1 l2 l3 :
  last_edited edit l1 l2 → last_edited edit l2 l3 → last_edited edit l1 l3.
Proof.
  intros [->|(l0 & x & y & -> & -> & Hxy)]; [done|].
  intros [->|(l0' & y' & z & E & -> & Hyz)].
  - right. by exists l0, x, y.
  - apply app_inj_tail in E as [<- <-]. right. exists l0, x, z. eauto.
Qed.

Lemma last_edited_update f l l' :
  (∀ x, edit x (f x)) → update_last f l = Ok l' → last_edited edit l l'.
Proof.
  intros Hf (l0 & x & -> & ->)%update_last_inv. right. by exists l0, x, (f x).
Qed.

Lemma last_edited_length l l' : last_edited edit l l' → length l' = length l.
Proof.
  intros [->|(l0 & x & y & -> & -> & _)]; [done|].
  by rewrite !length_app.
Qed.

Lemma last_edited_removelast l l' :
  last_edited edit l l' → removelast l `prefix_of` l'.
Proof.
  intros [->|(l0 & x & y & -> & -> & _)].
  - destruct l as [|x l _] using rev_ind; [done|].
    rewrite removelast_last. by apply prefix_app_r.
  - rewrite removelast_last. by apply prefix_app_r.
Qed.

Lemma last_edited_Forall (P : A → Prop) l l' :
  (∀ x y, edit x y → P x → P y) →
  last_edited edit l l' → Forall P l → Forall P l'.
Proof.
  intros HP [->|(l0 & x & y & -> & -> & Hxy)]; [done|].
  rewrite !Forall_app, !Forall_singleton. intros [? ?]. eauto.
Qed.

Lemma last_edited_snoc l y l' :
  last_edited edit (l ++ [y]) l' → ∃ z, l' = l ++ [z] ∧ edit y z.
Proof.
  intros [->|(l0 & x & z & E & -> & Hxz)]; [by exists y|].
  apply app_inj_tail in E as [<- <-]. by exists z.
Qed.
End last_edited.

(** *** The Pite Saami reader *)

Lemma pite_edit_refl x : pite_edit x x.
Proof. split_and!; [done|by left|]. intros k v ?. by left. Qed.

Lemma pite_edit_trans x y z : pite_edit x y → pite_edit y z → pite_edit x z.
Proof.
  intros (Hw1 & Hp1 & Ht1) (Hw2 & Hp2 & Ht2). split_and!.
  - congruence.
  - destruct Hp2 as [->|?]; [done|by right].
  - intros k v [Hy|?]%Ht2; [by apply Ht1|by right].
Qed.

Lemma pite_edit_set_pos d x :
  pite_edit x (set_pos (PiteWordlistReader.normalize_pos d) x).
Proof.
  split_and!; [done| |by left]. right. apply PiteFacts.normalize_pos_range.
Qed.

Lemma pite_edit_set_translation k v x :
  k ∈ ["eng"; "swe"; "nor"] → ¬ Py.contains "(" v →
  pite_edit x (set_translation k v x).
Proof.
  intros Hk Hv. split_and!; [done|by left|]. intros k' v'. simpl.
  rewrite lookup_insert_Some. intros [[<- <-]|[_ ?]]; [by right|by left].
Qed.

Lemma no_paren_strip_split0 s :
  ¬ Py.contains "(" (Py.strip (Py.split0 "(" s)).
Proof. intros Hc%contains_strip%contains_split0. by destruct Hc. Qed.

Lemma pite_entry_ok_edit x y : pite_edit x y → pite_entry_ok x → pite_entry_ok y.
Proof.
  intros (Hw & Hp & Ht) (Hw' & Hp' & Ht'). split_and!.
  - congruence.
  - destruct Hp as [->|?]; [done|by right].
  - intros k v [Hx|?]%Ht; [by apply (Ht' k v)|done].
Qed.

Import PiteWordlistReader.

(** One call of [handle_data]: the flags, the line counter and the list. *)
Lemma pite_handle_data_spec self data self' :
  handle_data self data = Ok self' →
  reading_entry self' = reading_entry self
  ∧ line_num self ≤ line_num self'
  ∧ (last_edited pite_edit (entries self) (entries self')
     ∨ (reading_entry self = true ∧ line_num self = 1 ∧ line_num self' = 2
        ∧ Py.strip data ≠ ""
        ∧ ∃ y, entries self' = entries self ++ [y]
               ∧ pite_edit (set_word (Py.strip data) DictEntry_new) y)).
Proof.
  unfold handle_data. destruct (reading_entry self) eqn:Hr.
  2:{ intros [= <-]. rewrite Hr. split_and!; [done..|left; by left]. }
  case_bool_decide as Hblank.
  { intros [= <-]. rewrite Hr. split_and!; [done..|left; by left]. }
  cbv zeta.
  match goal with |- mbind _ ?X = _ → _ => destruct X as [es1|] eqn:E1 end;
    [|done].
  cbn [mbind result_bind].
  match goal with |- mbind _ ?X = _ → _ => destruct X as [es2|] eqn:E2 end;
    [|done].
  cbn [mbind result_bind].
  match goal with |- mbind _ ?X = _ → _ => destruct X as [es3|] eqn:E3 end;
    [|done].
  cbn [mbind result_bind]. intros [= <-].
  cbn [reading_entry line_num entries].
  assert (last_edited pite_edit es1 es2) as H12.
  { if_in E2.
    - eapply last_edited_update; [|exact E2]. intros x.
      apply pite_edit_set_translation; [set_solver|apply no_paren_strip_split0].
    - injection E2 as <-. by left. }
  assert (last_edited pite_edit es2 es3) as H23.
  { if_in E3; [|if_in E3].
    - eapply last_edited_update; [|exact E3]. intros x.
      apply pite_edit_set_translation; [set_solver|apply no_paren_strip_split0].
    - eapply last_edited_update; [|exact E3]. intros x.
      apply pite_edit_set_translation; [set_solver|apply no_paren_strip_split0].
    - injection E3 as <-. by left. }
  pose proof (last_edited_trans _ pite_edit_trans _ _ _ H12 H23) as H13.
  split_and!; [done|lia|].
  if_in E1; [|if_in E1].
  - right. injection E1 as <-.
    apply (last_edited_snoc _ pite_edit_refl) in H13 as (y & -> & Hy).
    split_and!; [done|lia|lia|done|]. by exists y.
  - left. eapply last_edited_trans; [apply pite_edit_trans| |exact H13].
    eapply last_edited_update; [|exact E1]. apply pite_edit_set_pos.
  - left. injection E1 as <-. done.
Qed.


(** One handler call. *)
Lemma pite_handle_spec self ev self' :
  handle self ev = Ok self' →
  length (entries self') + pending self'
  ≤ length (entries self) + pending self
    + (if opens_entry_block ev then 1 else 0)
  ∧ (last_edited pite_edit (entries self) (entries self')
     ∨ ∃ y, entries self' = entries self ++ [y] ∧ pite_entry_ok y).
Proof.
  destruct ev as [tag attrs|data|tag]; cbn [handle opens_entry_block].
  - intros [= <-]. unfold handle_starttag, pending.
    destruct (bool_decide _ && bool_decide _); cbn [entries reading_entry line_num].
    + split; [|left; by left].
      destruct (reading_entry self); simpl; case_bool_decide; simpl; lia.
    + split; [lia|left; by left].
  - intros (Hr & Hn & Hcase)%pite_handle_data_spec. unfold pending. rewrite Hr.
    destruct Hcase as [He|(Hr' & Hn1 & Hn2 & Hs & y & -> & Hy)].
    + split; [|by left].
      rewrite (last_edited_length _ _ _ He).
      destruct (reading_entry self); simpl; [|lia].
      repeat case_bool_decide; simpl; lia.
    + split.
      * rewrite length_app, Hr', Hn1, Hn2. simpl. lia.
      * right. exists y. split; [done|].
        apply (pite_entry_ok_edit _ _ Hy). split_and!; [done|by left|].
        intros k v. simpl. by rewrite lookup_empty.
  - intros [= <-]. unfold handle_endtag, pending.
    case_bool_decide; cbn [entries reading_entry line_num].
    + split; [simpl; lia|left; by left].
    + split; [lia|left; by left].
Qed.

Lemma HTMLParser_feed_spec data : ∀ self self',
  HTMLParser_feed self data = Ok self' →
  length (entries self') + pending self'
  ≤ length (entries self) + pending self
    + length (filter (λ ev, opens_entry_block ev) data)
  ∧ (Forall pite_entry_ok (entries self) → Forall pite_entry_ok (entries self'))
  ∧ removelast (entries self) `prefix_of` entries self'
  ∧ length (entries self) ≤ length (entries self').
Proof.
  induction data as [|ev data IH]; intros self self'.
  { intros [= <-]. split_and!; [simpl; lia|done| |done].
    destruct (entries self) as [|x l _] using rev_ind; [done|].
    rewrite removelast_last. by apply prefix_app_r. }
  cbn [HTMLParser_feed]. destruct (handle self ev) as [self1|] eqn:E1; [|done].
  cbn [mbind result_bind]. intros E2.
  destruct (pite_handle_spec _ _ _ E1) as (Hc1 & Hcase).
  destruct (IH _ _ E2) as (Hc2 & Hok2 & Hp2 & Hl2).
  assert (length (filter (λ ev, opens_entry_block ev) (ev :: data))
          = (if opens_entry_block ev then 1 else 0)
            + length (filter (λ ev, opens_entry_block ev) data)) as ->.
  { rewrite filter_cons. by destruct (opens_entry_block ev). }
  assert (removelast (entries self) `prefix_of` removelast (entries self1)
          ∧ length (entries self) ≤ length (entries self1)
          ∧ (Forall pite_entry_ok (entries self) →
             Forall pite_entry_ok (entries self1))) as (Hp1 & Hl1 & Hok1).
  { destruct Hcase as [He|(y & -> & Hy)].
    - split_and!.
      + destruct He as [->|(l0 & x & y & -> & -> & _)]; [done|].
        by rewrite !removelast_last.
      + by rewrite (last_edited_length _ _ _ He).
      + apply (last_edited_Forall pite_edit); [|done].
        intros x y. apply pite_entry_ok_edit.
    - split_and!.
      + rewrite removelast_last.
        destruct (entries self) as [|x l _] using rev_ind; [done|].
        rewrite removelast_last. by apply prefix_app_r.
      + rewrite length_app. lia.
      + intros HF. apply Forall_app. split; [done|]. by apply Forall_singleton. }
  split_and!; [lia|auto| |lia].
  etrans; [exact Hp1|exact Hp2].
Qed.



Lemma pending_init : pending init = 0.
Proof. reflexivity. Qed.
End ReaderFacts.

(** X14: every record [PiteWordlistReader.feed] returns, on any document,
    has a non-empty word, a part of speech that is empty or one of the
    eight normalised values, and translations only under the keys "eng",
    "swe" and "nor", none of which holds an opening parenthesis. *)
Theorem PiteWordlistReader_entries_ok (data : list html_event)
    (self' : PiteWordlistReader.t) (es : list DictEntry) :
  PiteWordlistReader.feed PiteWordlistReader.init data = Ok (self', es) →
  Forall pite_entry_ok es.
Proof.
  unfold PiteWordlistReader.feed.
  destruct (PiteWordlistReader.HTMLParser_feed _ data) as [s|] eqn:E; [|done].
  cbn [mbind result_bind].
  destruct (ReaderFacts.HTMLParser_feed_spec _ _ _ E) as (_ & Hok & _).
  specialize (Hok ltac:(constructor)).
  destruct (PiteWordlistReader.entries s) as [|x l _] using rev_ind; [done|].
  rewrite ReaderFacts.pop_snoc. cbn [mbind result_bind]. intros [= _ <-].
  by apply Forall_app in Hok as [? _].
Qed.

Lemma PiteWordlistReader_entries_ok_witness :
  Forall pite_entry_ok two_entry_expected.
Proof.
  apply (PiteWordlistReader_entries_ok two_entry_fixture
           (PiteWordlistReader.with_entries two_entry_expected two_entry_parsed)).
  vm_compute. reflexivity.
Defined.

(** X15: the Pite Saami reader appends at most one record per start tag
    that opens an entry block, so [feed] returns fewer records than the
    document has such start tags. *)
Theorem PiteWordlistReader_one_entry_per_block (data : list html_event)
    (self' : PiteWordlistReader.t) (es : list DictEntry) :
  PiteWordlistReader.feed PiteWordlistReader.init data = Ok (self', es) →
  length es < length (filter (λ ev, opens_entry_block ev) data).
Proof.
  unfold PiteWordlistReader.feed.
  destruct (PiteWordlistReader.HTMLParser_feed _ data) as [s|] eqn:E; [|done].
  cbn [mbind result_bind].
  destruct (ReaderFacts.HTMLParser_feed_spec _ _ _ E) as (Hc & _).
  rewrite ReaderFacts.pending_init in Hc. cbn [PiteWordlistReader.entries
    PiteWordlistReader.init length] in Hc.
  destruct (PiteWordlistReader.entries s) as [|x l _] using rev_ind; [done|].
  rewrite ReaderFacts.pop_snoc. cbn [mbind result_bind]. intros [= _ <-].
  rewrite length_app in Hc. simpl in Hc. lia.
Qed.

Lemma PiteWordlistReader_one_entry_per_block_witness :
  length two_entry_expected
  < length (filter (λ ev, opens_entry_block ev) two_entry_fixture).
Proof.
  apply (PiteWordlistReader_one_entry_per_block two_entry_fixture
           (PiteWordlistReader.with_entries two_entry_expected two_entry_parsed)).
  vm_compute. reflexivity.
Defined.





Module LuleReaderFacts.
Import CodecFacts LineFacts ReaderFacts LuleDictReader.

Lemma lule_edit_refl x : lule_edit x x.
Proof. split_and!; [by left|done|]. intros k v ?. by left. Qed.

Lemma lule_edit_trans x y z : lule_edit x y → lule_edit y z → lule_edit x z.
Proof.
  intros (Hw1 & Hp1 & Ht1) (Hw2 & Hp2 & Ht2). split_and!.
  - destruct Hw2 as [Hw2|?]; [|by right]. rewrite Hw2.
    destruct Hw1 as [?|?]; [by left|by right].
  - congruence.
  - intros k v [Hy|?]%Ht2; [by apply Ht1|by right].
Qed.

Lemma lule_edit_set_word data x :
  lule_edit x (set_word (Py.strip (Py.split0 " " data)) x).
Proof.
  split_and!; [|done|by left]. right. simpl.
  intros Hc%contains_strip%contains_split0. by destruct Hc.
Qed.

Lemma lule_edit_set_translation data x :
  lule_edit x
    (set_translation "nor"
       (Py.strip (Py.split0 "(" (Py.split0 ";" (Py.split0 "," data)))) x).
Proof.
  split_and!; [by left|done|]. intros k v. simpl.
  rewrite lookup_insert_Some. intros [[<- <-]|[_ ?]]; [right|by left].
  split_and!; [done|..].
  - intros [_ [_ Hc%contains_split0]%contains_split0]%contains_strip%contains_split0.
    by destruct Hc.
  - intros [_ Hc%contains_split0]%contains_strip%contains_split0.
    by destruct Hc.
  - intros Hc%contains_strip%contains_split0. by destruct Hc.
Qed.

Lemma lule_entry_ok_edit x y : lule_edit x y → lule_entry_ok x → lule_entry_ok y.
Proof.
  intros (Hw & Hp & Ht) (Hw' & Hp' & Ht'). split_and!.
  - destruct Hw as [->|?]; done.
  - congruence.
  - intros k v [Hx|?]%Ht; [by apply (Ht' k v)|done].
Qed.

Lemma lule_entry_ok_new : lule_entry_ok DictEntry_new.
Proof.
  split_and!; [apply contains_empty|done|]. intros k v. simpl.
  by rewrite lookup_empty.
Qed.

Lemma lule_handle_data_spec es self data es' self' :
  handle_data (es, self) data = Ok (es', self') →
  last_edited lule_edit es es'.
Proof.
  unfold handle_data. cbv beta iota zeta.
  destruct (reading_entry self); [|intros [= <- _]; by left].
  match goal with |- mbind _ ?X = _ → _ => destruct X as [es1|] eqn:E1 end;
    [|done].
  cbn [mbind result_bind].
  assert (last_edited lule_edit es es1) as H1.
  { destruct (bool_decide (td_num self = 1) && bool_decide (spans_seen self = 1)).
    - eapply last_edited_update; [|exact E1]. apply lule_edit_set_word.
    - injection E1 as <-. by left. }
  destruct (bool_decide (td_num self = 2) && bool_decide (spans_seen self = 1));
    [|by intros [= <- _]].
  destruct (bool_decide (data = "1")); [by intros [= <- _]|].
  destruct (update_last _ es1) as [es2|] eqn:E2; [|done].
  cbn [mbind result_bind]. intros [= <- _].
  eapply last_edited_trans; [apply lule_edit_trans|exact H1|].
  eapply last_edited_update; [|exact E2]. apply lule_edit_set_translation.
Qed.

Lemma lule_handle_spec es self ev es' self' :
  handle (es, self) ev = Ok (es', self') →
  (opens_row ev = true ∧ es' = es ++ [DictEntry_new])
  ∨ es' = removelast es
  ∨ last_edited lule_edit es es'.
Proof.
  destruct ev as [tag attrs|data|tag]; cbn [handle opens_row].
  - destruct (LuleFacts.handle_starttag_spec self tag attrs) as (s & E & _).
    intros H. rewrite E in H. simplify_eq.
    destruct (bool_decide _ && _); [by left|right; right; by left].
  - intros H%lule_handle_data_spec. by right; right.
  - unfold handle_endtag.
    destruct (bool_decide (tag = "tr")); cbv beta iota zeta;
      destruct (bool_decide (tag = "td")); intros [= <- _];
      try (right; right; by left);
      (destruct (last es) as [e|]; [|right; right; by left]);
      (destruct (bool_decide (word e = ""));
         [right; by left|right; right; by left]).
Qed.

Lemma Forall_removelast {A} (P : A → Prop) l :
  Forall P l → Forall P (removelast l).
Proof.
  destruct l as [|x l _] using rev_ind; [done|].
  rewrite removelast_last. by intros [? _]%Forall_app.
Qed.

Lemma length_removelast_le {A} (l : list A) : length (removelast l) ≤ length l.
Proof.
  destruct l as [|x l _] using rev_ind; [done|].
  rewrite removelast_last, length_app. lia.
Qed.

Lemma lule_feed_spec data : ∀ st st',
  feed st data = Ok st' →
  (Forall lule_entry_ok st.1 → Forall lule_entry_ok st'.1)
  ∧ length st'.1 ≤ length st.1 + length (filter (λ ev, opens_row ev) data).
Proof.
  induction data as [|ev data IH]; intros [es self] st'.
  { intros [= <-]. split; [done|simpl; lia]. }
  cbn [feed]. destruct (handle (es, self) ev) as [[es1 self1]|] eqn:E1; [|done].
  cbn [mbind result_bind]. intros [IH1 IH2]%IH. cbn [fst] in *.
  assert (length (filter (λ ev, opens_row ev) (ev :: data))
          = (if opens_row ev then 1 else 0)
            + length (filter (λ ev, opens_row ev) data)) as ->.
  { rewrite filter_cons. by destruct (opens_row ev). }
  destruct (lule_handle_spec _ _ _ _ _ E1) as [[Ho ->]|[->|He]].
  - rewrite Ho. rewrite length_app in IH2. simpl in IH2. split; [|lia].
    intros HF. apply IH1, Forall_app. split; [done|].
    apply Forall_singleton, lule_entry_ok_new.
  - pose proof (length_removelast_le es). split; [|lia].
    intros HF. by apply IH1, Forall_removelast.
  - rewrite (last_edited_length _ _ _ He) in IH2. split; [|lia].
    intros HF. apply IH1. apply (last_edited_Forall lule_edit _ es); [|done..].
    intros x y. apply lule_entry_ok_edit.
Qed.

Lemma lule_read_loop_spec pages : ∀ st st',
  read_loop st pages = Ok st' →
  (Forall lule_entry_ok st.1 → Forall lule_entry_ok st'.1)
  ∧ length st'.1
    ≤ length st.1 + length (filter (λ ev, opens_row ev) (concat pages)).
Proof.
  induction pages as [|page pages IH]; intros st st'.
  { intros [= <-]. split; [done|simpl; lia]. }
  cbn [read_loop]. destruct (feed st page) as [st1|] eqn:E1; [|done].
  cbn [mbind result_bind]. intros [IH1 IH2]%IH.
  destruct (lule_feed_spec _ _ _ E1) as [H1 H2].
  cbn [concat]. rewrite filter_app, length_app. split; [auto|lia].
Qed.
End LuleReaderFacts.



(** X19: every record [read] returns from an empty class list has the
    empty part of speech, a word without a space, and at most one
    translation, under the key "nor", that holds no comma, semicolon or
    opening parenthesis; there are at most as many records as the pages
    have start tags of a dictionary row. *)
Theorem LuleDictReader_entries_ok (pages : list (list html_event))
    (st' : LuleDictReader.cls * LuleDictReader.t) (es : list DictEntry) :
  LuleDictReader.read (LuleDictReader.cls_init, LuleDictReader.init) pages
  = Ok (st', es) →
  Forall lule_entry_ok es
  ∧ length es ≤ length (filter (λ ev, opens_row ev) (concat pages)).
Proof.
  unfold LuleDictReader.read.
  destruct (LuleDictReader.read_loop _ pages) as [st1|] eqn:E; [|done].
  cbn [mbind result_bind]. intros [= _ <-].
  destruct (LuleReaderFacts.lule_read_loop_spec _ _ _ E) as [H1 H2].
  split; [by apply H1|apply H2].
Qed.

Lemma LuleDictReader_entries_ok_witness :
  Forall lule_entry_ok [mkDictEntry "girjje" "" {["nor" := "bok"]}]
  ∧ length [mkDictEntry "girjje" "" {["nor" := "bok"]}]
    ≤ length (filter (λ ev, opens_row ev) (concat [lule_page])).
Proof.
  apply (LuleDictReader_entries_ok [lule_page]
           ([mkDictEntry "girjje" "" {["nor" := "bok"]}],
            LuleDictReader.mk false 0 0)).
  vm_compute. reflexivity.
Defined.
